(** * ag_res: reconciliation of sensed crop acreage against survey acreage

    A shallow embedding of the stages of the repository that carry
    algorithmic content, and of the properties stated about them:

    - [Reconciler]: [reallocate_acres] of scripts/aci_reallocate_pixels.py;
    - [Distributor]: [distribute_back_to_municipalities] of the same script;
    - [TopUp]: the donor top-up loop of scripts/label_area_deltas.py;
    - [Units]: the unit conversions of the stages that derive hectares and
      pixel counts from acres;
    - [Materializer]: [assign_within_muni] of scripts/raster_build.py, its
      caller [process_by_municipality] and the output rasters of [main];
    - [Reconciler64], [TopUp64]: the two transfer passes once more, on
      double-precision floats.

    In the first five modules the quantities that the scripts hold as
    floating-point numbers (acres, hectares, pixel counts, biomass values)
    are exact rationals, and a statement about them is a statement of
    exact arithmetic, written with [==] on [Q]: it tells what the code
    evaluates, or what holds of it whatever the rounding (a sign, a
    comparison, a value that is copied).  Where rounding decides, the
    passes are evaluated on binary64 floats.  Data frames are lists of
    records in row order; the pandas index label of a row is its position
    in the list. *)

From Stdlib Require Import QArith Qminmax Qround Lqa Lia Sorted Floats.
From stdpp Require Import base list strings gmap.

#[global] Set Warnings "-inexact-float".

(** ** Numbers and orderings shared by all stages *)

Module Num.

Local Open Scope Q_scope.

(** [x < y] on floats, as a boolean. *)
Definition Qltb (x y : Q) : bool := negb (Qle_bool y x).

(** Python's [min(a, b)]: the first argument unless the second is smaller. *)
Definition py_min (a b : Q) : Q := if Qltb b a then b else a.

(** Python's [max(a, b)]: the first argument unless the second is larger. *)
Definition py_max (a b : Q) : Q := if Qltb a b then b else a.

(** [sum] of a column. *)
Definition Qsum (l : list Q) : Q := foldr Qplus 0 l.

(** Sorted list of the distinct strings of a column: the group keys of a
    pandas [groupby] (which sorts its keys by default). *)
Fixpoint insert_key (k : string) (ks : list string) : list string :=
  match ks with
  | [] => [k]
  | k' :: ks' =>
      if String.eqb k k' then ks
      else if String.leb k k' then k :: ks
      else k' :: insert_key k ks'
  end.

Definition sorted_keys (ks : list string) : list string :=
  foldr insert_key [] ks.

(** [df.iterrows()]: the rows paired with their index labels. *)
Definition iterrows {A} (l : list A) : list (nat * A) :=
  zip (seq 0 (length l)) l.

(** Strictly before, in the order of the group keys. *)
Definition key_lt (a b : string) : Prop := String.leb a b = true /\ a <> b.

End Num.

(** ** Region Reconciler: [reallocate_acres] *)

Module Reconciler.

Import Num.
Local Open Scope Q_scope.

(** One row of the merged region-by-label table built by
    [preprocess_data]. *)
Record Row := mkRow {
  rm : string;
  Label : string;
  pixel_count : Q;
  hectares : Q;
  acres_aci : Q;
  acres_masc : Q;
  acres_diff : Q
}.

(** [merged["acres_diff"] = merged["acres_aci"] - merged["acres_masc"]],
    the last step of [preprocess_data]. *)
Definition set_acres_diff (r : Row) : Row :=
  mkRow (rm r) (Label r) (pixel_count r) (hectares r)
        (acres_aci r) (acres_masc r) (acres_aci r - acres_masc r).

Definition set_acres_aci (v : Q) (r : Row) : Row :=
  mkRow (rm r) (Label r) (pixel_count r) (hectares r)
        v (acres_masc r) (acres_diff r).

Definition sub_acres_diff (v : Q) (r : Row) : Row :=
  mkRow (rm r) (Label r) (pixel_count r) (hectares r)
        (acres_aci r) (acres_masc r) (acres_diff r - v).

(** Case 1: [rm_df.loc[mask_case1, ["acres_aci", "pixel_count",
    "hectares"]] = 0]. *)
Definition mask_case1 (r : Row) : bool :=
  Qltb 0 (acres_aci r) && Qeq_bool (acres_masc r) 0.

Definition zero_case1 (r : Row) : Row :=
  if mask_case1 r
  then mkRow (rm r) (Label r) 0 0 0 (acres_masc r) (acres_diff r)
  else r.

(** Case 2: the rows to fill and the rows to draw from. *)
Definition is_missing (r : Row) : bool :=
  Qeq_bool (acres_aci r) 0 && Qltb 0 (acres_masc r).

Definition is_surplus (r : Row) : bool :=
  Qltb (acres_masc r) (acres_aci r).

Definition missing_of (rm_df : list Row) : list (nat * Row) :=
  List.filter (fun p => is_missing p.2) (iterrows rm_df).

Definition surplus_of (rm_df : list Row) : list (nat * Row) :=
  List.filter (fun p => is_surplus p.2) (iterrows rm_df).

(** [surplus.sort_values("acres_diff", ascending=False)]; rows of equal
    surplus keep their table order. *)
Fixpoint insert_desc (p : nat * Row) (l : list (nat * Row)) : list (nat * Row) :=
  match l with
  | [] => [p]
  | q :: l' =>
      if Qle_bool (acres_diff q.2) (acres_diff p.2) then p :: l
      else q :: insert_desc p l'
  end.

Definition sort_desc (l : list (nat * Row)) : list (nat * Row) :=
  foldr insert_desc [] l.

(** The inner loop [for jdx, s_row in surplus.iterrows()] for the missing
    row [idx] that still needs [target_add].  It returns the region table
    and the surplus table, both updated. *)
Fixpoint drain (idx : nat) (surplus : list (nat * Row)) (target_add : Q)
    (rm_df : list Row) : list Row * list (nat * Row) :=
  match surplus with
  | [] => (rm_df, [])
  | (jdx, s_row) :: rest =>
      if Qle_bool target_add 0 then (rm_df, surplus)            (* break *)
      else
        let available := acres_diff s_row in
        if Qle_bool available 0 then                             (* continue *)
          let '(rm_df', rest') := drain idx rest target_add rm_df in
          (rm_df', (jdx, s_row) :: rest')
        else
          let take := py_min available target_add in
          let rm_df1 := alter (fun r => set_acres_aci (acres_aci r - take) r) jdx rm_df in
          let rm_df2 := alter (fun r => set_acres_aci (acres_aci r + take) r) idx rm_df1 in
          let '(rm_df', rest') := drain idx rest (target_add - take) rm_df2 in
          (rm_df', (jdx, sub_acres_diff take s_row) :: rest')
  end.

(** The outer loop [for idx, row in missing.iterrows()]. *)
Fixpoint fill_missing (missing surplus : list (nat * Row)) (rm_df : list Row)
    : list Row * list (nat * Row) :=
  match missing with
  | [] => (rm_df, surplus)
  | (idx, row) :: rest =>
      let '(rm_df', surplus') := drain idx surplus (acres_masc row) rm_df in
      fill_missing rest surplus' rm_df'
  end.

(** The body of [for rm, rm_df in df.groupby("rm")]. *)
Definition reallocate_rm (rm_df0 : list Row) : list Row :=
  let rm_df := map zero_case1 rm_df0 in
  let missing := missing_of rm_df in
  let surplus := surplus_of rm_df in
  match missing, surplus with
  | _ :: _, _ :: _ =>
      map set_acres_diff (fill_missing missing (sort_desc surplus) rm_df).1
  | _, _ => rm_df
  end.

Definition groupby_rm (df : list Row) : list (list Row) :=
  map (fun k => List.filter (fun r => String.eqb (rm r) k) df)
      (sorted_keys (map rm df)).

Definition reallocate_acres (df : list Row) : list Row :=
  concat (map reallocate_rm (groupby_rm df)).

(** [pd.concat(results, ignore_index=True)]: [None] stands for the
    [ValueError] that pandas raises when [results] is empty. *)
Definition pd_concat (results : list (list Row)) : option (list Row) :=
  match results with
  | [] => None
  | _ :: _ => Some (concat results)
  end.

(** [reallocate_acres] together with its failure: [reallocate_acres]
    above is the table it returns when it returns. *)
Definition reallocate_acres_or_error (df : list Row) : option (list Row) :=
  pd_concat (map reallocate_rm (groupby_rm df)).


(** *** Vocabulary of the statements about this stage, and examples *)

Definition example_region (pA hA pB hB pC hC : Q) : list Row :=
  map set_acres_diff
      [ mkRow "R" "A" pA hA 100 0 0;
        mkRow "R" "B" pB hB 0 40 0;
        mkRow "R" "C" pC hC 80 60 0 ].

Definition zero_truth_region : list Row :=
  map set_acres_diff [ mkRow "R" "A" 1111 100 247 0 0 ].

Definition unchanged (r r' : Row) : Prop :=
  acres_aci r' == acres_aci r /\ pixel_count r' == pixel_count r /\
  hectares r' == hectares r.

(** A surplus-table entry agrees with the region table: its remaining
    surplus is what the donor row still holds above its target. *)
Definition entry_ok (rm_df : list Row) (p : nat * Row) : Prop :=
  exists r, rm_df !! p.1 = Some r /\
            acres_aci r - acres_masc r == acres_diff p.2 /\
            0 <= acres_diff p.2.

(** The columns a transfer leaves alone. *)
Definition same_but_acres (r r' : Row) : Prop :=
  rm r' = rm r /\ Label r' = Label r /\ pixel_count r' = pixel_count r /\
  hectares r' = hectares r /\ acres_masc r' = acres_masc r.

End Reconciler.

(** ** Cascading donor top-up: the loop of [label_area_deltas.main] *)

Module TopUp.

Import Num.
Local Open Scope Q_scope.

(** One row of the region-by-label table on which the donor pools work.
    The column [taken_from_canola] is only added to a region's table when
    Canola first gives; [None] stands for the absent column. *)
Record Row := mkRow {
  rm : string;
  Label : string;
  aci_acres : Q;
  masc_acres : Q;
  aci_acres_before : Q;
  taken_from_other : Q;
  taken_from_pasture : Q;
  taken_from_canola : option Q
}.

Definition set_aci (v : Q) (r : Row) : Row :=
  mkRow (rm r) (Label r) v (masc_acres r) (aci_acres_before r)
        (taken_from_other r) (taken_from_pasture r) (taken_from_canola r).

Definition add_other (v : Q) (r : Row) : Row :=
  mkRow (rm r) (Label r) (aci_acres r) (masc_acres r) (aci_acres_before r)
        (taken_from_other r + v) (taken_from_pasture r) (taken_from_canola r).

Definition add_pasture (v : Q) (r : Row) : Row :=
  mkRow (rm r) (Label r) (aci_acres r) (masc_acres r) (aci_acres_before r)
        (taken_from_other r) (taken_from_pasture r + v) (taken_from_canola r).

(** [sub.at[i, "taken_from_canola"] += v] on an existing column. *)
Definition add_canola (v : Q) (r : Row) : Row :=
  mkRow (rm r) (Label r) (aci_acres r) (masc_acres r) (aci_acres_before r)
        (taken_from_other r) (taken_from_pasture r)
        (Some (default 0 (taken_from_canola r) + v)).

(** [sub["taken_from_canola"] = 0.0]: the new column, zero in every row. *)
Definition new_canola_col (r : Row) : Row :=
  mkRow (rm r) (Label r) (aci_acres r) (masc_acres r) (aci_acres_before r)
        (taken_from_other r) (taken_from_pasture r) (Some 0).

(** The first three statements after the merge:
    [aci_acres_before], [taken_from_other], [taken_from_pasture]. *)
Definition init_row (r : Row) : Row :=
  mkRow (rm r) (Label r) (aci_acres r) (masc_acres r) (aci_acres r) 0 0 None.

(** [sub.index[sub["Label"] == label]], first element, with its row. *)
Fixpoint find_label (label : string) (sub : list Row) : option (nat * Row) :=
  match sub with
  | [] => None
  | r :: sub' =>
      if String.eqb (Label r) label then Some (0%nat, r)
      else prod_map S id <$> find_label label sub'
  end.

Definition get_surplus (label : string) (sub : list Row) : Q :=
  match find_label label sub with
  | None => 0
  | Some (_, s) => py_max 0 (aci_acres s - masc_acres s)
  end.

(** [take(label, amount)]: the amount given, and the table after it. *)
Definition take (label : string) (amount : Q) (sub : list Row) : Q * list Row :=
  match find_label label sub with
  | None => (0, sub)
  | Some (i, d) =>
      if Qle_bool amount 0 then (0, sub)
      else
        let can_give := py_max 0 (aci_acres d - masc_acres d) in
        let give := py_min amount can_give in
        if Qltb 0 give
        then (give, alter (fun r => set_aci (aci_acres r - give) r) i sub)
        else (give, sub)
  end.

(** The variables of one region's iteration: its table, whether the
    canola column exists, and the three running pool balances. *)
Record State := mkState {
  sub : list Row;
  has_canola_col : bool;
  available_other : Q;
  available_pasture : Q;
  available_canola : Q
}.

Definition OTHER : string := "Other crops".
Definition PASTURE : string := "Pasture/forages".
Definition CANOLA : string := "Canola/rapeseed".

(** The three draws made for recipient [i]; each returns what is still
    needed and the state after the draw. *)
Definition draw_other (i : nat) (need : Q) (st : State) : Q * State :=
  let '(give_other, sub1) := take OTHER need (sub st) in
  if Qltb 0 give_other then
    let sub2 := alter (fun r => set_aci (aci_acres r + give_other) r) i sub1 in
    let sub3 := alter (add_other give_other) i sub2 in
    (need - give_other,
     mkState sub3 (has_canola_col st) (available_other st - give_other)
             (available_pasture st) (available_canola st))
  else
    (need, mkState sub1 (has_canola_col st) (available_other st)
                   (available_pasture st) (available_canola st)).

Definition draw_pasture (i : nat) (need : Q) (st : State) : Q * State :=
  if Qltb 0 need then
    let '(give_past, sub1) := take PASTURE need (sub st) in
    if Qltb 0 give_past then
      let sub2 := alter (fun r => set_aci (aci_acres r + give_past) r) i sub1 in
      let sub3 := alter (add_pasture give_past) i sub2 in
      (need - give_past,
       mkState sub3 (has_canola_col st) (available_other st)
               (available_pasture st - give_past) (available_canola st))
    else
      (need, mkState sub1 (has_canola_col st) (available_other st)
                     (available_pasture st) (available_canola st))
  else (need, st).

Definition draw_canola (i : nat) (need : Q) (st : State) : Q * State :=
  if Qltb 0 need then
    let '(give_can, sub1) := take CANOLA need (sub st) in
    if Qltb 0 give_can then
      let sub1' := if has_canola_col st then sub1 else map new_canola_col sub1 in
      let sub2 := alter (fun r => set_aci (aci_acres r + give_can) r) i sub1' in
      let sub3 := alter (add_canola give_can) i sub2 in
      (need - give_can,
       mkState sub3 true (available_other st)
               (available_pasture st) (available_canola st - give_can))
    else
      (need, mkState sub1 (has_canola_col st) (available_other st)
                     (available_pasture st) (available_canola st))
  else (need, st).

(** The body of [for i in recipients_idx]. *)
Definition topup_row (i : nat) (st : State) : State :=
  match sub st !! i with
  | None => st
  | Some r =>
      let need := masc_acres r - aci_acres r in
      if Qle_bool need 0 then st
      else
        let '(need1, st1) := draw_other i need st in
        let '(need2, st2) := draw_pasture i need1 st1 in
        (draw_canola i need2 st2).2
  end.

(** [sub.index[sub["masc_acres"] > sub["aci_acres"]]], computed once
    before the loop. *)
Definition recipients_idx (sub : list Row) : list nat :=
  map fst (List.filter (fun p => Qltb (aci_acres p.2) (masc_acres p.2))
                       (iterrows sub)).

Definition init_state (sub0 : list Row) : State :=
  mkState sub0 false (get_surplus OTHER sub0) (get_surplus PASTURE sub0)
          (get_surplus CANOLA sub0).

(** The body of [for rm, sub in df.groupby("rm", sort=False)]. *)
Definition topup_rm (sub0 : list Row) : State :=
  foldl (fun st i => topup_row i st) (init_state sub0) (recipients_idx sub0).

(** Group keys in order of first appearance ([sort=False]). *)
Fixpoint first_seen (ks : list string) : list string :=
  match ks with
  | [] => []
  | k :: ks' => k :: List.filter (fun k' => negb (String.eqb k' k)) (first_seen ks')
  end.

Definition groupby_rm (df : list Row) : list (list Row) :=
  map (fun k => List.filter (fun r => String.eqb (rm r) k) df)
      (first_seen (map rm df)).

(** The table [res] before its report columns are added. *)
Definition topup (df : list Row) : list Row :=
  concat (map (fun g => sub (topup_rm g)) (groupby_rm (map init_row df))).


(** *** Vocabulary of the statements about this stage, and examples *)

(** The index of the donor row of a label, if the region has one. *)
Definition donor_idx (label : string) (sub : list Row) : option nat :=
  fst <$> find_label label sub.

(** The common shape of the three draws: [bump] books the gift in the
    recipient's column, and [prep] adds the column first where needed. *)
Definition gdraw (label : string) (bump : Q -> Row -> Row) (prep : Row -> Row)
    (do_prep : bool) (i : nat) (need : Q) (t : list Row) : Q * list Row :=
  let '(g, t1) := take label need t in
  if Qltb 0 g then
    (need - g,
     alter (bump g) i
       (alter (fun r => set_aci (aci_acres r + g) r) i
          (if do_prep then map prep t1 else t1)))
  else (need, t1).

(** Row [k] of the table after a draw of [g] for recipient [i]. *)
Definition after_draw (bump : Q -> Row -> Row) (prep : Row -> Row)
    (do_prep : bool) (i : nat) (donor : option nat) (g : Q) (k : nat)
    (r : Row) : Row :=
  if Qltb 0 g then
    let r1 := if decide (donor = Some k)
              then set_aci (aci_acres r - g) r else r in
    let r2 := if do_prep then prep r1 else r1 in
    if decide (k = i) then bump g (set_aci (aci_acres r2 + g) r2) else r2
  else r.

(** What every draw has in common: the amount still needed and the rows
    of the table after it. *)
Definition draw_facts (label : string) (bump : Q -> Row -> Row)
    (prep : Row -> Row) (do_prep : bool) (i : nat) (need : Q) (st : State)
    (out : Q * State) : Prop :=
  let g := py_min need (get_surplus label (sub st)) in
  out.1 = (if Qltb 0 g then need - g else need) /\
  forall k, sub out.2 !! k =
            after_draw bump prep do_prep i (donor_idx label (sub st)) g k
              <$> sub st !! k.

(** The bookkeeping steps leave label, target and sensed acres alone. *)
Definition keeps_core (f : Row -> Row) : Prop :=
  forall r, Label (f r) = Label r /\ masc_acres (f r) = masc_acres r /\
            aci_acres (f r) = aci_acres r.

(** The sensed acres a row still holds after the three draws. *)
Definition canola_base (st : State) (r : Row) : Q :=
  if has_canola_col st then default 0 (taken_from_canola r) else 0.

(** What the loop maintains, relative to the table [sub0] it started
    from: targets are untouched, a row that started at or above its target
    stays between its target and its first value, a row that started below
    its target stays between its first value and its target, and each pool
    balance is the surplus its donor still has. *)
Definition capped (sub0 : list Row) (st : State) : Prop :=
  length (sub st) = length sub0 /\
  (forall k r0, sub0 !! k = Some r0 ->
     exists r, sub st !! k = Some r /\
       Label r = Label r0 /\ masc_acres r = masc_acres r0 /\
       (masc_acres r0 <= aci_acres r0 ->
          masc_acres r0 <= aci_acres r /\ aci_acres r <= aci_acres r0) /\
       (aci_acres r0 < masc_acres r0 ->
          aci_acres r0 <= aci_acres r /\ aci_acres r <= masc_acres r0)) /\
  available_other st == get_surplus OTHER (sub st) /\
  available_pasture st == get_surplus PASTURE (sub st) /\
  available_canola st == get_surplus CANOLA (sub st).

End TopUp.

(** ** Sub-Region Distributor: [distribute_back_to_municipalities] *)

Module Distributor.

Import Num.
Local Open Scope Q_scope.

(** One row of the municipality table [aci_df], with the region column
    [rm] merged in by [preprocess_data].  [MUNI_NO] and [Code] are [None]
    in a row made up for a region without any municipality. *)
Record Row := mkRow {
  MUNI_NO : option Z;
  MUNI_NAME : string;
  Code : option Z;
  pixel_count : Q;
  hectares : Q;
  acres : Q;
  Label : string;
  rm : string
}.

(** A row of [df] after the two left merges: the municipality row, the
    original regional total, and the corrected regional total ([None]
    where the corrected table has no row for the key). *)
Record Merged := mkMerged {
  base : Row;
  acres_orig : Q;
  acres_aci : option Q
}.

(** A row of the returned table [final], which has no [rm] column. *)
Record Final := mkFinal {
  f_MUNI_NO : option Z;
  f_MUNI_NAME : string;
  f_Code : option Z;
  f_pixel_count : Q;
  f_hectares : Q;
  f_acres : Q;
  f_Label : string
}.

Definition key_eqb (k1 k2 : string * string) : bool :=
  String.eqb k1.1 k2.1 && String.eqb k1.2 k2.2.

Definition key (r : Row) : string * string := (rm r, Label r).

Definition rkey (m : Reconciler.Row) : string * string :=
  (Reconciler.rm m, Reconciler.Label m).

(** [(rm, label) not in existing_keys]. *)
Definition in_keys (k : string * string) (aci_df : list Row) : bool :=
  existsb (fun r => key_eqb (key r) k) aci_df.

(** The row appended for a key of the corrected table that the
    municipality table lacks. *)
Definition new_row (aci_df : list Row) (m : Reconciler.Row) : Row :=
  match List.filter (fun r => String.eqb (rm r) (Reconciler.rm m)) aci_df with
  | template_row :: _ =>
      mkRow (MUNI_NO template_row) (MUNI_NAME template_row) (Code template_row)
            0 0 0 (Reconciler.Label m) (Reconciler.rm m)
  | [] =>
      mkRow None (Reconciler.rm m) None 0 0 0 (Reconciler.Label m) (Reconciler.rm m)
  end.

Definition new_rows (aci_df : list Row) (reallocated_df : list Reconciler.Row)
    : list Row :=
  map (new_row aci_df)
      (List.filter (fun m => negb (in_keys (rkey m) aci_df)) reallocated_df).

(** [aci_df.groupby(["rm", "Label"])["acres"].sum()] at one key. *)
Definition orig_total (aci_df : list Row) (k : string * string) : Q :=
  Qsum (map acres (List.filter (fun r => key_eqb (key r) k) aci_df)).

(** The two left merges for one municipality row: one output row per
    matching row of the corrected table, or one row without a corrected
    total when nothing matches. *)
Definition merge_row (aci_df : list Row) (reallocated_df : list Reconciler.Row)
    (r : Row) : list Merged :=
  let orig := orig_total aci_df (key r) in
  match List.filter (fun m => key_eqb (rkey m) (key r)) reallocated_df with
  | [] => [mkMerged r orig None]
  | ms => map (fun m => mkMerged r orig (Some (Reconciler.acres_aci m))) ms
  end.

Definition scale_factor (m : Merged) : Q :=
  match acres_aci m with
  | Some a => if Qltb 0 (acres_orig m) then a / acres_orig m else 0
  | None => 1
  end.

(** Step 5: the three area columns times the scale factor. *)
Definition rescale (m : Merged) : Merged :=
  let s := scale_factor m in
  let r := base m in
  mkMerged (mkRow (MUNI_NO r) (MUNI_NAME r) (Code r)
                  (pixel_count r * s) (hectares r * s) (acres r * s)
                  (Label r) (rm r))
           (acres_orig m) (acres_aci m).

Definition mask_new (m : Merged) : bool :=
  Qeq_bool (acres_orig m) 0 &&
  match acres_aci m with Some a => Qltb 0 a | None => false end.

(** Step 5b: a key that is new to the region takes the corrected total,
    and its hectares and pixel count are derived from it. *)
Definition fill_new (m : Merged) : Merged :=
  if mask_new m then
    let r := base m in
    let acres' := default (acres r) (acres_aci m) in
    let hectares' := acres' * 0.404685642 in
    let pixel_count' := hectares' / 0.09 in
    mkMerged (mkRow (MUNI_NO r) (MUNI_NAME r) (Code r)
                    pixel_count' hectares' acres' (Label r) (rm r))
             (acres_orig m) (acres_aci m)
  else m.

(** The table [df] after step 5b. *)
Definition distribute_df (aci_df : list Row) (reallocated_df : list Reconciler.Row)
    : list Merged :=
  let aci_df' := aci_df ++ new_rows aci_df reallocated_df in
  map (fun m => fill_new (rescale m))
      (concat (map (merge_row aci_df' reallocated_df) aci_df')).

Definition final_cols (m : Merged) : Final :=
  let r := base m in
  mkFinal (MUNI_NO r) (MUNI_NAME r) (Code r)
          (pixel_count r) (hectares r) (acres r) (Label r).

Definition distribute_back_to_municipalities (aci_df : list Row)
    (reallocated_df : list Reconciler.Row) : list Final :=
  map final_cols (distribute_df aci_df reallocated_df).

(** The rows of [df] for one region and label. *)
Definition rows_of (k : string * string) (df : list Merged) : list Row :=
  List.filter (fun r => key_eqb (key r) k) (map base df).


(** *** Vocabulary of the statements about this stage, and examples *)

(** A municipality table as [aci_prepare.py] writes it: one row for each
    code that has at least one pixel in the municipality, hence with
    positive acres. *)
Definition receivable (aci_df : list Row) : Prop :=
  Forall (fun r => 0 < acres r) aci_df.

Definition one_muni : list Row :=
  [ mkRow (Some 101%Z) "Alpha" (Some 153%Z) 900 81 200 "Canola/rapeseed" "R" ].

Definition wheat_corrected : list Reconciler.Row :=
  [ Reconciler.mkRow "R" "Wheat" 0 0 10 40 (-30) ].

Definition canola_corrected : list Reconciler.Row :=
  [ Reconciler.mkRow "R" "Canola/rapeseed" 900 81 200 200 0 ].

(** Two rows stand for the same record: same identity, and the three area
    columns equal as numbers. *)
Definition same_record (r r' : Row) : Prop :=
  MUNI_NO r' = MUNI_NO r /\ MUNI_NAME r' = MUNI_NAME r /\ Code r' = Code r /\
  Label r' = Label r /\ rm r' = rm r /\
  pixel_count r' == pixel_count r /\ hectares r' == hectares r /\
  acres r' == acres r.

(** The row that takes a corrected total [a] on behalf of [t]. *)
Definition filled (t : Row) (a : Q) : Row :=
  mkRow (MUNI_NO t) (MUNI_NAME t) (Code t)
        (a * 0.404685642 / 0.09) (a * 0.404685642) a (Label t) (rm t).

(** Row [r'] is row [r] with its three area columns multiplied by [s]. *)
Definition scaled_by (s : Q) (r r' : Row) : Prop :=
  MUNI_NO r' = MUNI_NO r /\ MUNI_NAME r' = MUNI_NAME r /\ Code r' = Code r /\
  Label r' = Label r /\ rm r' = rm r /\
  pixel_count r' == pixel_count r * s /\ hectares r' == hectares r * s /\
  acres r' == acres r * s.

(** No area column of the row is negative. *)
Definition areas_nonneg (r : Row) : Prop :=
  0 <= pixel_count r /\ 0 <= hectares r /\ 0 <= acres r.

(** The three area columns of the row are zero. *)
Definition areas_zero (r : Row) : Prop :=
  pixel_count r == 0 /\ hectares r == 0 /\ acres r == 0.

(** What identifies a row of the municipality table, and of the returned
    table. *)
Definition ident (r : Row) : option Z * string * option Z * string :=
  (MUNI_NO r, MUNI_NAME r, Code r, Label r).

Definition f_ident (f : Final) : option Z * string * option Z * string :=
  (f_MUNI_NO f, f_MUNI_NAME f, f_Code f, f_Label f).

End Distributor.

(** ** Unit conversions of the stages that derive hectares and pixels *)

Module Units.

Local Open Scope Q_scope.

(** aci_reallocate_pixels.py, step 5b of the Distributor. *)
Definition distributor_hectares (acres : Q) : Q := acres * 0.404685642.
Definition distributor_pixels (hectares : Q) : Q := hectares / 0.09.

(** aci_yield_per_pixel.py: [aci_hectares] and [aci_pixels]. *)
Definition yield_hectares (aci_acres : Q) : Q := aci_acres * 0.404686.
Definition yield_pixels (aci_hectares : Q) : Q := aci_hectares / 0.09.

(** aci_biomass_per_pixel.py: [aci_hectares] and [aci_pixels]. *)
Definition biomass_hectares (aci_acres : Q) : Q := aci_acres * 0.404686.
Definition biomass_pixels (aci_hectares : Q) : Q := aci_hectares / 0.09.

End Units.

(** ** Pixel Materializer: [assign_within_muni] and its caller *)

Module Materializer.

Import Num.
Local Open Scope Q_scope.

(** One row of the per-municipality target table [df_muni]. *)
Record Target := mkTarget {
  MUNI_NAME : string;
  Label : string;
  aci_pixels : Q;
  gt_aci_biomass_tonnes_per_pixel : Q
}.

(** One record of [assigned_log]. *)
Record LogEntry := mkLog {
  log_MUNI_NAME : string;
  log_Label : string;
  log_Code : Z;
  required_pixels : Z;
  existing_pixels : Z;
  newly_assigned : Z;
  total_assigned : Z;
  biomass_value : Q
}.

(** The arrays of one window, stored flat in row-major order, the order in
    which [np.argwhere] lists positions: [band1] holds category codes,
    [band2] biomass values, [assigned_mask] the cells already taken. *)
Record Grid := mkGrid {
  band1 : list Z;
  band2 : list Q;
  assigned_mask : list bool
}.

(** Python's [round] on a float, to the nearest integer, ties to even. *)
Definition py_round (x : Q) : Z :=
  let f := Qfloor x in
  let d := x - inject_Z f in
  if Qltb d (1 # 2) then f
  else if Qltb (1 # 2) d then (f + 1)%Z
  else if Z.even f then f else (f + 1)%Z.

(** [str.strip()].  A label is held as the sequence of its Unicode code
    points, one character each, so the labels of the model are those whose
    code points lie below 256.  In that range Python's [str.isspace] is
    true of the code points 9 to 13, 28 to 32, 133 (next line) and 160
    (no-break space), and these are what [strip] removes. *)
Definition is_space (a : Ascii.ascii) : bool :=
  let n := Ascii.nat_of_ascii a in
  ((9 <=? n) && (n <=? 13) || (28 <=? n) && (n <=? 32)
   || (n =? 133) || (n =? 160))%nat.

Fixpoint lstrip (l : list Ascii.ascii) : list Ascii.ascii :=
  match l with
  | a :: l' => if is_space a then lstrip l' else l
  | [] => []
  end.

Definition strip (s : string) : string :=
  String.string_of_list_ascii
    (rev (lstrip (rev (lstrip (String.list_ascii_of_string s))))).

(** [arr[mask] = v]. *)
Definition set_where {A} (mask : list bool) (v : A) (l : list A) : list A :=
  zip_with (fun (m : bool) x => if m then v else x) mask l.

(** [arr[rows, cols] = v] for a list of positions. *)
Definition set_at {A} (sel : list nat) (v : A) (l : list A) : list A :=
  foldl (fun acc p => <[p:=v]> acc) l sel.

(** [np.argwhere(mask)]: the positions that hold [True], ascending. *)
Definition argwhere (mask : list bool) : list nat :=
  map fst (List.filter snd (iterrows mask)).

(** [np.count_nonzero(band1 == code)]. *)
Definition count_code (code : Z) (b : list Z) : Z :=
  Z.of_nat (length (List.filter (Z.eqb code) b)).

(** [(~assigned_mask) & (~np.isin(band1, list(protected_codes)))], then
    [cand_mask &= valid_mask] when a mask is given. *)
Definition cand_mask (protected_codes : gset Z) (g : Grid)
    (valid_mask : option (list bool)) : list bool :=
  let m := zip_with (fun (a : bool) (c : Z) =>
                       negb a && negb (bool_decide (c ∈ protected_codes)))
                    (assigned_mask g) (band1 g) in
  match valid_mask with
  | None => m
  | Some v => zip_with andb m v
  end.

(** Rule 1 for one label group: cells whose code already matches take the
    group's first biomass value and are marked as assigned. *)
Definition preserve_label (label_to_code : gmap string Z) (df_muni : list Target)
    (g : Grid) (lbl : string) : Grid :=
  match label_to_code !! lbl,
        List.filter (fun t => String.eqb (Label t) lbl) df_muni with
  | Some code, t :: _ =>
      let biomass_val := gt_aci_biomass_tonnes_per_pixel t in
      let mask := map (Z.eqb code) (band1 g) in
      mkGrid (band1 g) (set_where mask biomass_val (band2 g))
             (set_where mask true (assigned_mask g))
  | _, _ => g
  end.

Definition rule1 (label_to_code : gmap string Z) (df_muni : list Target)
    (g : Grid) : Grid :=
  foldl (preserve_label label_to_code df_muni) g
        (sorted_keys (map Label df_muni)).

Section Sampling.

(** The random source: [choice g n k] stands for
    [rng.choice(n, size=k, replace=False)] in generator state [g], and
    returns the drawn indices with the next generator state. *)
Context {G : Type} (choice : G -> nat -> nat -> list nat * G).

(** The state threaded through the loop of Rule 2. *)
Record Run := mkRun {
  grid : Grid;
  assigned_log : list LogEntry;
  rng : G
}.

(** The body of [for _, row in df_muni.iterrows()], Rule 2. *)
Definition fill_row (label_to_code : gmap string Z) (protected_codes : gset Z)
    (valid_mask : option (list bool)) (st : Run) (row : Target) : Run :=
  let lbl := strip (Label row) in
  match label_to_code !! lbl with
  | None => st
  | Some code =>
      let required := py_round (aci_pixels row) in
      if (required <=? 0)%Z then st
      else
        let biomass_val := gt_aci_biomass_tonnes_per_pixel row in
        let g := grid st in
        let current := count_code code (band1 g) in
        let deficit := (required - current)%Z in
        if (deficit <=? 0)%Z then st
        else
          let candidates := argwhere (cand_mask protected_codes g valid_mask) in
          match candidates with
          | [] => st
          | _ :: _ =>
              let deficit' := Z.min deficit (Z.of_nat (length candidates)) in
              let '(idx, rng') :=
                choice (rng st) (length candidates) (Z.to_nat deficit') in
              let sel := map (fun k => nth k candidates 0%nat) idx in
              mkRun (mkGrid (set_at sel code (band1 g))
                            (set_at sel biomass_val (band2 g))
                            (set_at sel true (assigned_mask g)))
                    (assigned_log st ++
                       [mkLog (MUNI_NAME row) lbl code required current
                              deficit' (current + deficit')%Z biomass_val])
                    rng'
          end
  end.

(** The last statement: values below zero other than the sentinel
    become zero. *)
Definition clean (v : Q) : Q :=
  if Qltb v 0 && negb (Qeq_bool v (-9999.0)) then 0 else v.

Definition assign_within_muni (b1 : list Z) (b2 : list Q) (df_muni : list Target)
    (label_to_code : gmap string Z) (protected_codes : gset Z) (rng0 : G)
    (valid_mask : option (list bool)) : list Z * list Q * list LogEntry * G :=
  let g0 := mkGrid b1 b2 (replicate (length b1) false) in
  let g1 := rule1 label_to_code df_muni g0 in
  let st := foldl (fill_row label_to_code protected_codes valid_mask)
                  (mkRun g1 [] rng0) df_muni in
  (band1 (grid st), map clean (band2 (grid st)), assigned_log st, rng st).

(** The protected codes fixed in [process_by_municipality]. *)
Definition protected_codes : gset Z :=
  {[10; 20; 30; 34; 35; 50; 60; 80; 85; 110; 130; 200; 210; 220; 230]}%Z.

(** [arr.astype("uint16")] on the category band. *)
Definition to_uint16 (z : Z) : Z := (z mod 65536)%Z.

Definition rename_muni (muni_name : string) (e : LogEntry) : LogEntry :=
  mkLog muni_name (log_Label e) (log_Code e) (required_pixels e)
        (existing_pixels e) (newly_assigned e) (total_assigned e)
        (biomass_value e).

(** What [process_by_municipality] does with one municipality once its
    window [band1_chunk] and geometry mask [mask_geom] are known: [None]
    when the municipality is skipped, otherwise the two bands written to
    the output rasters, the log records and the generator state. *)
Definition process_window (muni_name : string) (band1_chunk : list Z)
    (mask_geom : list bool) (df_muni : list Target)
    (label_to_code : gmap string Z) (rng0 : G)
    : option (list Z * list Q * list LogEntry * G) :=
  match df_muni with
  | [] => None
  | _ :: _ =>
      if forallb (Z.eqb 0) band1_chunk then None
      else
        let band2_chunk := replicate (length band1_chunk) (-9999.0) in
        let '(b1, b2, log, rng') :=
          assign_within_muni band1_chunk band2_chunk df_muni label_to_code
                             protected_codes rng0 (Some mask_geom) in
        Some (map to_uint16 b1, b2, map (rename_muni muni_name) log, rng')
  end.

End Sampling.

(** A deterministic generator for examples: it always draws the first
    [k] indices. *)
Definition first_k (g : unit) (n k : nat) : list nat * unit :=
  (seq 0 (Nat.min k n), g).


(** *** Vocabulary of the statements about this stage, and examples *)

Definition example_codes : gmap string Z := {[ "Wheat" := 146%Z ]}.

Definition wheat_target (px : Q) : Target := mkTarget "Alpha" "Wheat" px 3.

(** The state in which Rule 2 starts on a window. *)
Definition start_state {G} (b1 : list Z) (b2 : list Q) (df_muni : list Target)
    (label_to_code : gmap string Z) (rng0 : G) : @Run G :=
  mkRun (rule1 label_to_code df_muni
               (mkGrid b1 b2 (replicate (length b1) false))) [] rng0.

(** What [rng.choice(n, size=k, replace=False)] guarantees for [k <= n]:
    [k] distinct indices below [n]. *)
Definition choice_ok {G} (choice : G -> nat -> nat -> list nat * G) : Prop :=
  forall g n k, (k <= n)%nat ->
    length (choice g n k).1 = k /\ NoDup (choice g n k).1 /\
    Forall (fun i => (i < n)%nat) (choice g n k).1.

(** The record appended for a row that fills [n] cells. *)
Definition entry_of (row : Target) (code current n : Z) : LogEntry :=
  mkLog (MUNI_NAME row) (strip (Label row)) code (py_round (aci_pixels row))
        current n (current + n)%Z (gt_aci_biomass_tonnes_per_pixel row).

(** The state after the cells [sel] were given to [row]. *)
Definition filled_with {G} (st : @Run G) (row : Target) (code : Z) (sel : list nat)
    (n : Z) (st' : @Run G) : Prop :=
  let g := grid st in
  grid st' = mkGrid (set_at sel code (band1 g))
                    (set_at sel (gt_aci_biomass_tonnes_per_pixel row) (band2 g))
                    (set_at sel true (assigned_mask g)) /\
  assigned_log st' =
    assigned_log st ++ [entry_of row code (count_code code (band1 g)) n].

(** [c] is the code of a label of the target table, as Rule 1 looks it
    up. *)
Definition target_code (label_to_code : gmap string Z) (df_muni : list Target)
    (c : Z) : Prop :=
  exists t, t ∈ df_muni /\ label_to_code !! Label t = Some c.

(** The labels of the table carry no surrounding white space, as
    [load_data] leaves them. *)
Definition stripped (df_muni : list Target) : Prop :=
  Forall (fun t => strip (Label t) = Label t) df_muni.

(** The counts of a log record agree with each other. *)
Definition log_ok (e : LogEntry) : Prop :=
  (0 <= existing_pixels e)%Z /\ (1 <= newly_assigned e)%Z /\
  total_assigned e = (existing_pixels e + newly_assigned e)%Z /\
  (total_assigned e <= required_pixels e)%Z.

(** Whether the Rule 1 group of label [lbl] marks the cells of code [c]. *)
Definition marks (label_to_code : gmap string Z) (df_muni : list Target)
    (lbl : string) (c : Z) : bool :=
  match label_to_code !! lbl,
        List.filter (fun t => String.eqb (Label t) lbl) df_muni with
  | Some code, _ :: _ => Z.eqb code c
  | _, _ => false
  end.

(** Every cell that holds the code of a label of the table is marked as
    assigned. *)
Definition targets_assigned (label_to_code : gmap string Z)
    (df_muni : list Target) (g : Grid) : Prop :=
  forall p c, band1 g !! p = Some c -> target_code label_to_code df_muni c ->
              assigned_mask g !! p = Some true.

(** [c] is the code Rule 1 or Rule 2 looks up for a row of the table. *)
Definition row_code (label_to_code : gmap string Z) (df_muni : list Target)
    (c : Z) : Prop :=
  exists t, t ∈ df_muni /\
    (label_to_code !! Label t = Some c \/
     label_to_code !! strip (Label t) = Some c).

(** Every cell of the value band still holds the value -9999 it started
    with, or belongs to a cell that is marked as assigned and holds the
    code of a row of the table. *)
Definition values_on_targets (label_to_code : gmap string Z)
    (df_muni : list Target) (g : Grid) : Prop :=
  forall p v, band2 g !! p = Some v ->
    v = -9999.0 \/
    exists c, band1 g !! p = Some c /\ assigned_mask g !! p = Some true /\
              row_code label_to_code df_muni c.

(** *** The random draw *)

(** What [rng.choice(n, size=k, replace=False)] can return: an
    arrangement of [k] distinct indices below [n]. *)
Definition arrangement (n k : nat) (idx : list nat) : Prop :=
  length idx = k /\ NoDup idx /\ Forall (fun i => (i < n)%nat) idx.

(** How many of the generator states in [states] draw [idx]. *)
Definition draws_of {G} (choice : G -> nat -> nat -> list nat * G)
    (states : list G) (n k : nat) (idx : list nat) : nat :=
  length (List.filter (fun g => bool_decide ((choice g n k).1 = idx)) states).

(** The generator draws uniformly: over a finite family of generator
    states, each taken as equally likely, every state draws an arrangement
    and every arrangement is drawn by the same number of states.  This is
    what numpy documents for [Generator.choice] without replacement. *)
Definition uniform_draw {G} (choice : G -> nat -> nat -> list nat * G)
    (states : list G) (n k : nat) : Prop :=
  Forall (fun g => arrangement n k (choice g n k).1) states /\
  exists times, (0 < times)%nat /\
    forall idx, arrangement n k idx -> draws_of choice states n k idx = times.

(** The state [st] with the generator in state [g]. *)
Definition with_rng {G} (st : @Run G) (g : G) : @Run G :=
  mkRun (grid st) (assigned_log st) g.

(** [candidates[idx]] for a draw of [k] indices: the cells that
    [fill_row] writes. *)
Definition selected_cells {G} (choice : G -> nat -> nat -> list nat * G)
    (protected_codes : gset Z) (valid_mask : option (list bool))
    (st : @Run G) (k : nat) : list nat :=
  let candidates := argwhere (cand_mask protected_codes (grid st) valid_mask) in
  map (fun j => nth j candidates 0%nat)
      (choice (rng st) (length candidates) k).1.

(** An arrangement of [k] distinct cells of the pool. *)
Definition selection_of (pool : list nat) (k : nat) (sel : list nat) : Prop :=
  length sel = k /\ NoDup sel /\ Forall (fun p => p ∈ pool) sel.

(** How many of the generator states make the row select [sel]. *)
Definition selects_of {G} (choice : G -> nat -> nat -> list nat * G)
    (protected_codes : gset Z) (valid_mask : option (list bool))
    (st : @Run G) (states : list G) (k : nat) (sel : list nat) : nat :=
  length (List.filter
            (fun g => bool_decide
               (selected_cells choice protected_codes valid_mask
                               (with_rng st g) k = sel))
            states).

(** A generator for examples whose state is the arrangement it draws
    next; when the state is no arrangement for the request it draws the
    first [k] indices. *)
Definition scripted (g : list nat) (n k : nat) : list nat * list nat :=
  (if (length g =? k)%nat && bool_decide (NoDup g)
      && forallb (fun i => (i <? n)%nat) g
   then g else seq 0 k, g).

(** *** The output rasters *)

(** One row of [gdf_muni] after the clip, with what rasterio derives from
    its geometry on the source grid: [m_window] lists the cells of the
    bounding window in row-major order, as positions in the flattened
    grid ([None] when [geometry_window] raises), and [m_mask] is the
    geometry mask over those cells. *)
Record Muni := mkMuni {
  m_name : string;
  m_window : option (list nat);
  m_mask : list bool
}.

(** [src.read(1, window=window)], for a window inside the grid. *)
Definition read_window (src : list Z) (cells : list nat) : list Z :=
  map (fun p => default 0%Z (src !! p)) cells.

(** [dst.write(arr, 1, window=window)]. *)
Definition write_window {A} (dst : list A) (cells : list nat) (arr : list A)
    : list A :=
  foldl (fun d pv => <[pv.1:=pv.2]> d) dst (zip cells arr).

(** The two output rasters, flattened like the source grid, with the log
    collected so far and the generator. *)
Record Rasters {G : Type} := mkRasters {
  dst_codes : list Z;
  dst_biomass : list Q;
  logs : list LogEntry;
  gen : G
}.
Arguments Rasters : clear implicits.
Arguments mkRasters {G} _ _ _ _.

(** [only_muni and muni_name != only_muni]: an empty [only_muni] is no
    filter. *)
Definition filtered_out (only_muni : option string) (muni_name : string) : bool :=
  match only_muni with
  | Some n => negb (String.eqb n EmptyString) && negb (String.eqb muni_name n)
  | None => false
  end.

(** The body of [for _, muni in gdf_muni.iterrows()]. *)
Definition process_muni {G} (choice : G -> nat -> nat -> list nat * G)
    (df : list Target) (label_to_code : gmap string Z)
    (only_muni : option string) (src : list Z)
    (st : Rasters G) (muni : Muni) : Rasters G :=
  if filtered_out only_muni (m_name muni) then st
  else
    let df_muni :=
      List.filter (fun t => String.eqb (MUNI_NAME t) (m_name muni)) df in
    match m_window muni with
    | None => st
    | Some cells =>
        match process_window choice (m_name muni) (read_window src cells)
                             (m_mask muni) df_muni label_to_code (gen st) with
        | None => st
        | Some (b1, b2, log, rng') =>
            mkRasters (write_window (dst_codes st) cells b1)
                      (write_window (dst_biomass st) cells b2)
                      (logs st ++ log) rng'
        end
    end.

Definition process_by_municipality {G} (choice : G -> nat -> nat -> list nat * G)
    (df : list Target) (label_to_code : gmap string Z)
    (only_muni : option string) (src : list Z) (gdf_muni : list Muni)
    (st : Rasters G) : Rasters G :=
  foldl (process_muni choice df label_to_code only_muni src) st gdf_muni.

(** What [main] does with the two rasters: both are first written whole,
    the codes with zeros and the values with -9999, and are then filled
    window by window. *)
Definition build_rasters {G} (choice : G -> nat -> nat -> list nat * G)
    (src : list Z) (df : list Target) (gdf_muni : list Muni)
    (label_to_code : gmap string Z) (rng0 : G) (only_muni : option string)
    : Rasters G :=
  process_by_municipality choice df label_to_code only_muni src gdf_muni
    (mkRasters (replicate (length src) 0%Z)
               (replicate (length src) (-9999.0)) [] rng0).

(** The municipality is processed, not skipped: it passes the filter, has
    target rows and a window, and its window is not all zeros. *)
Definition is_processed (df : list Target) (only_muni : option string)
    (src : list Z) (muni : Muni) : bool :=
  negb (filtered_out only_muni (m_name muni)) &&
  match m_window muni,
        List.filter (fun t => String.eqb (MUNI_NAME t) (m_name muni)) df with
  | Some cells, _ :: _ => negb (forallb (Z.eqb 0) (read_window src cells))
  | _, _ => false
  end.

(** The cell lies in the window of a municipality that is processed. *)
Definition covered (df : list Target) (only_muni : option string)
    (src : list Z) (gdf_muni : list Muni) (p : nat) : bool :=
  existsb (fun muni => is_processed df only_muni src muni &&
                       bool_decide (p ∈ default [] (m_window muni)))
          gdf_muni.

(** A window is a set of distinct cells of the grid. *)
Definition window_ok (src : list Z) (muni : Muni) : Prop :=
  match m_window muni with
  | None => True
  | Some cells => NoDup cells /\ Forall (fun p => (p < length src)%nat) cells
  end.

(** A grid of two municipalities, each with a protected cell, and targets
    for the first of them only. *)
Definition two_munis : list Muni :=
  [ mkMuni "Alpha" (Some [0; 1]%nat) [true; true];
    mkMuni "Beta" (Some [2; 3]%nat) [true; true] ].

Definition two_munis_src : list Z := [10; 0; 7; 10]%Z.

End Materializer.

(** ** Double-precision numbers

    Python floats and numpy float64 values are IEEE 754 binary64 numbers;
    [float] is that type, with its correctly rounded operations. *)

Module Float64.

Local Open Scope float_scope.

(** Python's [min(a, b)]: the first argument unless the second is smaller. *)
Definition py_min (a b : float) : float := if PrimFloat.ltb b a then b else a.

(** Python's [max(a, b)]: the first argument unless the second is larger. *)
Definition py_max (a b : float) : float := if PrimFloat.ltb a b then b else a.

(** The acres of [n] pixels as [aci_prepare.py] computes them on a grid of
    30 m cells: [pixel_count * pixel_area_m2 / 4046.85642]. *)
Definition pixel_acres (n : float) : float := n * 900 / 4046.85642.

End Float64.

(** ** The Region Reconciler in double precision

    [reallocate_acres] once more, with every number the IEEE 754 binary64
    float that pandas holds, and every operation the float operation that
    the script runs. *)

Module Reconciler64.

Import Num.
Local Open Scope float_scope.

(** One row of the merged region-by-label table built by
    [preprocess_data]. *)
Record Row := mkRow {
  rm : string;
  Label : string;
  pixel_count : float;
  hectares : float;
  acres_aci : float;
  acres_masc : float;
  acres_diff : float
}.

(** [merged["acres_diff"] = merged["acres_aci"] - merged["acres_masc"]],
    the last step of [preprocess_data]. *)
Definition set_acres_diff (r : Row) : Row :=
  mkRow (rm r) (Label r) (pixel_count r) (hectares r)
        (acres_aci r) (acres_masc r) (acres_aci r - acres_masc r).

Definition set_acres_aci (v : float) (r : Row) : Row :=
  mkRow (rm r) (Label r) (pixel_count r) (hectares r)
        v (acres_masc r) (acres_diff r).

Definition sub_acres_diff (v : float) (r : Row) : Row :=
  mkRow (rm r) (Label r) (pixel_count r) (hectares r)
        (acres_aci r) (acres_masc r) (acres_diff r - v).

(** Case 1: [rm_df.loc[mask_case1, ["acres_aci", "pixel_count",
    "hectares"]] = 0]. *)
Definition mask_case1 (r : Row) : bool :=
  PrimFloat.ltb 0 (acres_aci r) && PrimFloat.eqb (acres_masc r) 0.

Definition zero_case1 (r : Row) : Row :=
  if mask_case1 r
  then mkRow (rm r) (Label r) 0 0 0 (acres_masc r) (acres_diff r)
  else r.

(** Case 2: the rows to fill and the rows to draw from. *)
Definition is_missing (r : Row) : bool :=
  PrimFloat.eqb (acres_aci r) 0 && PrimFloat.ltb 0 (acres_masc r).

Definition is_surplus (r : Row) : bool :=
  PrimFloat.ltb (acres_masc r) (acres_aci r).

Definition missing_of (rm_df : list Row) : list (nat * Row) :=
  List.filter (fun p => is_missing p.2) (iterrows rm_df).

Definition surplus_of (rm_df : list Row) : list (nat * Row) :=
  List.filter (fun p => is_surplus p.2) (iterrows rm_df).

(** [surplus.sort_values("acres_diff", ascending=False)]; rows of equal
    surplus keep their table order. *)
Fixpoint insert_desc (p : nat * Row) (l : list (nat * Row)) : list (nat * Row) :=
  match l with
  | [] => [p]
  | q :: l' =>
      if PrimFloat.leb (acres_diff q.2) (acres_diff p.2) then p :: l
      else q :: insert_desc p l'
  end.

Definition sort_desc (l : list (nat * Row)) : list (nat * Row) :=
  foldr insert_desc [] l.

(** The inner loop [for jdx, s_row in surplus.iterrows()] for the missing
    row [idx] that still needs [target_add].  It returns the region table
    and the surplus table, both updated. *)
Fixpoint drain (idx : nat) (surplus : list (nat * Row)) (target_add : float)
    (rm_df : list Row) : list Row * list (nat * Row) :=
  match surplus with
  | [] => (rm_df, [])
  | (jdx, s_row) :: rest =>
      if PrimFloat.leb target_add 0 then (rm_df, surplus)            (* break *)
      else
        let available := acres_diff s_row in
        if PrimFloat.leb available 0 then                             (* continue *)
          let '(rm_df', rest') := drain idx rest target_add rm_df in
          (rm_df', (jdx, s_row) :: rest')
        else
          let take := Float64.py_min available target_add in
          let rm_df1 := alter (fun r => set_acres_aci (acres_aci r - take) r) jdx rm_df in
          let rm_df2 := alter (fun r => set_acres_aci (acres_aci r + take) r) idx rm_df1 in
          let '(rm_df', rest') := drain idx rest (target_add - take) rm_df2 in
          (rm_df', (jdx, sub_acres_diff take s_row) :: rest')
  end.

(** The outer loop [for idx, row in missing.iterrows()]. *)
Fixpoint fill_missing (missing surplus : list (nat * Row)) (rm_df : list Row)
    : list Row * list (nat * Row) :=
  match missing with
  | [] => (rm_df, surplus)
  | (idx, row) :: rest =>
      let '(rm_df', surplus') := drain idx surplus (acres_masc row) rm_df in
      fill_missing rest surplus' rm_df'
  end.

(** The body of [for rm, rm_df in df.groupby("rm")]. *)
Definition reallocate_rm (rm_df0 : list Row) : list Row :=
  let rm_df := map zero_case1 rm_df0 in
  let missing := missing_of rm_df in
  let surplus := surplus_of rm_df in
  match missing, surplus with
  | _ :: _, _ :: _ =>
      map set_acres_diff (fill_missing missing (sort_desc surplus) rm_df).1
  | _, _ => rm_df
  end.

Definition groupby_rm (df : list Row) : list (list Row) :=
  map (fun k => List.filter (fun r => String.eqb (rm r) k) df)
      (sorted_keys (map rm df)).

Definition reallocate_acres (df : list Row) : list Row :=
  concat (map reallocate_rm (groupby_rm df)).

(** [pd.concat(results, ignore_index=True)]: [None] stands for the
    [ValueError] that pandas raises when [results] is empty. *)
Definition pd_concat (results : list (list Row)) : option (list Row) :=
  match results with
  | [] => None
  | _ :: _ => Some (concat results)
  end.

(** [reallocate_acres] together with its failure: [reallocate_acres]
    above is the table it returns when it returns. *)
Definition reallocate_acres_or_error (df : list Row) : option (list Row) :=
  pd_concat (map reallocate_rm (groupby_rm df)).

(** A region with one missing row and one row in surplus: three pixels of
    Barley against a survey of 0.1 acres. *)
Definition short_region : list Row :=
  map set_acres_diff
      [ mkRow "R" "Oats" 0 0 0 1 0;
        mkRow "R" "Barley" 3 0.27 (Float64.pixel_acres 3) 0.1 0 ].

End Reconciler64.

(** ** The donor top-up in double precision

    The loop of scripts/label_area_deltas.py once more, on binary64
    floats. *)

Module TopUp64.

Import Num.
Local Open Scope float_scope.

(** One row of the region-by-label table on which the donor pools work.
    The column [taken_from_canola] is only added to a region's table when
    Canola first gives; [None] stands for the absent column. *)
Record Row := mkRow {
  rm : string;
  Label : string;
  aci_acres : float;
  masc_acres : float;
  aci_acres_before : float;
  taken_from_other : float;
  taken_from_pasture : float;
  taken_from_canola : option float
}.

Definition set_aci (v : float) (r : Row) : Row :=
  mkRow (rm r) (Label r) v (masc_acres r) (aci_acres_before r)
        (taken_from_other r) (taken_from_pasture r) (taken_from_canola r).

Definition add_other (v : float) (r : Row) : Row :=
  mkRow (rm r) (Label r) (aci_acres r) (masc_acres r) (aci_acres_before r)
        (taken_from_other r + v) (taken_from_pasture r) (taken_from_canola r).

Definition add_pasture (v : float) (r : Row) : Row :=
  mkRow (rm r) (Label r) (aci_acres r) (masc_acres r) (aci_acres_before r)
        (taken_from_other r) (taken_from_pasture r + v) (taken_from_canola r).

(** [sub.at[i, "taken_from_canola"] += v] on an existing column. *)
Definition add_canola (v : float) (r : Row) : Row :=
  mkRow (rm r) (Label r) (aci_acres r) (masc_acres r) (aci_acres_before r)
        (taken_from_other r) (taken_from_pasture r)
        (Some (default 0 (taken_from_canola r) + v)).

(** [sub["taken_from_canola"] = 0.0]: the new column, zero in every row. *)
Definition new_canola_col (r : Row) : Row :=
  mkRow (rm r) (Label r) (aci_acres r) (masc_acres r) (aci_acres_before r)
        (taken_from_other r) (taken_from_pasture r) (Some 0).

(** The first three statements after the merge:
    [aci_acres_before], [taken_from_other], [taken_from_pasture]. *)
Definition init_row (r : Row) : Row :=
  mkRow (rm r) (Label r) (aci_acres r) (masc_acres r) (aci_acres r) 0 0 None.

(** [sub.index[sub["Label"] == label]], first element, with its row. *)
Fixpoint find_label (label : string) (sub : list Row) : option (nat * Row) :=
  match sub with
  | [] => None
  | r :: sub' =>
      if String.eqb (Label r) label then Some (0%nat, r)
      else prod_map S id <$> find_label label sub'
  end.

Definition get_surplus (label : string) (sub : list Row) : float :=
  match find_label label sub with
  | None => 0
  | Some (_, s) => Float64.py_max 0 (aci_acres s - masc_acres s)
  end.

(** [take(label, amount)]: the amount given, and the table after it. *)
Definition take (label : string) (amount : float) (sub : list Row) : float * list Row :=
  match find_label label sub with
  | None => (0, sub)
  | Some (i, d) =>
      if PrimFloat.leb amount 0 then (0, sub)
      else
        let can_give := Float64.py_max 0 (aci_acres d - masc_acres d) in
        let give := Float64.py_min amount can_give in
        if PrimFloat.ltb 0 give
        then (give, alter (fun r => set_aci (aci_acres r - give) r) i sub)
        else (give, sub)
  end.

(** The variables of one region's iteration: its table, whether the
    canola column exists, and the three running pool balances. *)
Record State := mkState {
  sub : list Row;
  has_canola_col : bool;
  available_other : float;
  available_pasture : float;
  available_canola : float
}.

Definition OTHER : string := "Other crops".
Definition PASTURE : string := "Pasture/forages".
Definition CANOLA : string := "Canola/rapeseed".

(** The three draws made for recipient [i]; each returns what is still
    needed and the state after the draw. *)
Definition draw_other (i : nat) (need : float) (st : State) : float * State :=
  let '(give_other, sub1) := take OTHER need (sub st) in
  if PrimFloat.ltb 0 give_other then
    let sub2 := alter (fun r => set_aci (aci_acres r + give_other) r) i sub1 in
    let sub3 := alter (add_other give_other) i sub2 in
    (need - give_other,
     mkState sub3 (has_canola_col st) (available_other st - give_other)
             (available_pasture st) (available_canola st))
  else
    (need, mkState sub1 (has_canola_col st) (available_other st)
                   (available_pasture st) (available_canola st)).

Definition draw_pasture (i : nat) (need : float) (st : State) : float * State :=
  if PrimFloat.ltb 0 need then
    let '(give_past, sub1) := take PASTURE need (sub st) in
    if PrimFloat.ltb 0 give_past then
      let sub2 := alter (fun r => set_aci (aci_acres r + give_past) r) i sub1 in
      let sub3 := alter (add_pasture give_past) i sub2 in
      (need - give_past,
       mkState sub3 (has_canola_col st) (available_other st)
               (available_pasture st - give_past) (available_canola st))
    else
      (need, mkState sub1 (has_canola_col st) (available_other st)
                     (available_pasture st) (available_canola st))
  else (need, st).

Definition draw_canola (i : nat) (need : float) (st : State) : float * State :=
  if PrimFloat.ltb 0 need then
    let '(give_can, sub1) := take CANOLA need (sub st) in
    if PrimFloat.ltb 0 give_can then
      let sub1' := if has_canola_col st then sub1 else map new_canola_col sub1 in
      let sub2 := alter (fun r => set_aci (aci_acres r + give_can) r) i sub1' in
      let sub3 := alter (add_canola give_can) i sub2 in
      (need - give_can,
       mkState sub3 true (available_other st)
               (available_pasture st) (available_canola st - give_can))
    else
      (need, mkState sub1 (has_canola_col st) (available_other st)
                     (available_pasture st) (available_canola st))
  else (need, st).

(** The body of [for i in recipients_idx]. *)
Definition topup_row (i : nat) (st : State) : State :=
  match sub st !! i with
  | None => st
  | Some r =>
      let need := masc_acres r - aci_acres r in
      if PrimFloat.leb need 0 then st
      else
        let '(need1, st1) := draw_other i need st in
        let '(need2, st2) := draw_pasture i need1 st1 in
        (draw_canola i need2 st2).2
  end.

(** [sub.index[sub["masc_acres"] > sub["aci_acres"]]], computed once
    before the loop. *)
Definition recipients_idx (sub : list Row) : list nat :=
  map fst (List.filter (fun p => PrimFloat.ltb (aci_acres p.2) (masc_acres p.2))
                       (iterrows sub)).

Definition init_state (sub0 : list Row) : State :=
  mkState sub0 false (get_surplus OTHER sub0) (get_surplus PASTURE sub0)
          (get_surplus CANOLA sub0).

(** The body of [for rm, sub in df.groupby("rm", sort=False)]. *)
Definition topup_rm (sub0 : list Row) : State :=
  foldl (fun st i => topup_row i st) (init_state sub0) (recipients_idx sub0).

(** Group keys in order of first appearance ([sort=False]). *)
Fixpoint first_seen (ks : list string) : list string :=
  match ks with
  | [] => []
  | k :: ks' => k :: List.filter (fun k' => negb (String.eqb k' k)) (first_seen ks')
  end.

Definition groupby_rm (df : list Row) : list (list Row) :=
  map (fun k => List.filter (fun r => String.eqb (rm r) k) df)
      (first_seen (map rm df)).

(** The table [res] before its report columns are added. *)
Definition topup (df : list Row) : list Row :=
  concat (map (fun g => sub (topup_rm g)) (groupby_rm (map init_row df))).

(** A region with one row below its target and three pixels of
    'Other crops' against a survey of 0.1 acres. *)
Definition short_region : list Row :=
  [ mkRow "R" "Oats" 0 1 0 0 0 None;
    mkRow "R" "Other crops" (Float64.pixel_acres 3) 0.1 0 0 0 None ].

End TopUp64.

(** * Properties *)

(** ** Facts about the shared numeric helpers *)

Module NumFacts.

Import Num.
Local Open Scope Q_scope.

Lemma Qltb_lt x y : Qltb x y = true <-> x < y.
Proof.
  unfold Qltb. rewrite negb_true_iff.
  destruct (Qle_bool y x) eqn:E.
  - apply Qle_bool_iff in E. split; [discriminate | lra].
  - split; [intros _ | reflexivity].
    destruct (Qlt_le_dec x y) as [|Hle]; [assumption |].
    apply Qle_bool_iff in Hle. congruence.
Qed.

Lemma Qltb_ge x y : Qltb x y = false <-> y <= x.
Proof.
  destruct (Qltb x y) eqn:E.
  - apply Qltb_lt in E. split; [discriminate | lra].
  - split; [intros _ | reflexivity].
    destruct (Qlt_le_dec x y) as [Hlt|]; [| assumption].
    apply Qltb_lt in Hlt. congruence.
Qed.

Lemma Qeqb_eq x y : Qeq_bool x y = true <-> x == y.
Proof. apply Qeq_bool_iff. Qed.

Lemma Qeqb_neq x y : Qeq_bool x y = false <-> ~ x == y.
Proof.
  destruct (Qeq_bool x y) eqn:E.
  - apply Qeq_bool_iff in E. split; [discriminate | tauto].
  - split; [| reflexivity]. intros _ H. apply Qeq_bool_iff in H. congruence.
Qed.

Lemma py_min_spec a b :
  (b < a /\ py_min a b = b) \/ (a <= b /\ py_min a b = a).
Proof.
  unfold py_min. destruct (Qltb b a) eqn:E.
  - left. split; [by apply Qltb_lt | done].
  - right. split; [by apply Qltb_ge | done].
Qed.

Lemma py_max_spec a b :
  (a < b /\ py_max a b = b) \/ (b <= a /\ py_max a b = a).
Proof.
  unfold py_max. destruct (Qltb a b) eqn:E.
  - left. split; [by apply Qltb_lt | done].
  - right. split; [by apply Qltb_ge | done].
Qed.

Lemma py_max_0_nonneg x : 0 <= py_max 0 x.
Proof. destruct (py_max_spec 0 x) as [[? ->]|[? ->]]; lra. Qed.

Lemma py_min_le_l a b : py_min a b <= a.
Proof. destruct (py_min_spec a b) as [[? ->]|[? ->]]; lra. Qed.

Lemma py_min_le_r a b : py_min a b <= b.
Proof. destruct (py_min_spec a b) as [[? ->]|[? ->]]; lra. Qed.

Lemma length_iterrows {A} (l : list A) : length (iterrows l) = length l.
Proof. unfold iterrows. rewrite length_zip, length_seq. lia. Qed.

Lemma lookup_iterrows {A} (l : list A) i p :
  iterrows l !! i = Some p <-> p.1 = i /\ l !! i = Some p.2.
Proof.
  unfold iterrows. destruct p as [j x]. simpl.
  rewrite lookup_zip_with_Some. split.
  - intros (a & b & [= -> ->] & Ha & Hb).
    apply lookup_seq in Ha as [-> _]. done.
  - intros [-> Hx]. exists i, x. split_and!; [done | | done].
    apply lookup_seq. split; [done |]. by eapply lookup_lt_Some.
Qed.

Lemma elem_of_iterrows {A} (l : list A) i x :
  (i, x) ∈ iterrows l <-> l !! i = Some x.
Proof.
  rewrite list_elem_of_lookup. split.
  - intros [k Hk]. apply lookup_iterrows in Hk as [<- Hx]. done.
  - intros Hx. exists i. by apply lookup_iterrows.
Qed.

Lemma NoDup_fst_iterrows {A} (l : list A) : NoDup (map fst (iterrows l)).
Proof.
  unfold iterrows. rewrite fst_zip; [apply NoDup_seq |].
  rewrite length_seq. lia.
Qed.

Lemma py_min_proper a a' b b' : a == a' -> b == b' -> py_min a b == py_min a' b'.
Proof.
  intros Ha Hb.
  destruct (py_min_spec a b) as [[? ->]|[? ->]];
    destruct (py_min_spec a' b') as [[? ->]|[? ->]]; lra.
Qed.

Lemma py_max_proper a a' b b' : a == a' -> b == b' -> py_max a b == py_max a' b'.
Proof.
  intros Ha Hb.
  destruct (py_max_spec a b) as [[? ->]|[? ->]];
    destruct (py_max_spec a' b') as [[? ->]|[? ->]]; lra.
Qed.

Lemma Qle_bool_false x y : Qle_bool x y = false <-> y < x.
Proof.
  destruct (Qle_bool x y) eqn:E.
  - apply Qle_bool_iff in E. split; [discriminate | lra].
  - split; [intros _ | reflexivity].
    destruct (Qlt_le_dec y x) as [|Hle]; [assumption |].
    apply Qle_bool_iff in Hle. congruence.
Qed.

Lemma NoDup_fst_filter {A} (f : nat * A -> bool) (l : list (nat * A)) :
  NoDup (map fst l) -> NoDup (map fst (List.filter f l)).
Proof.
  induction l as [|p l IH]; simpl; [done |].
  intros Hnd. apply NoDup_cons in Hnd as [Hp Hnd].
  destruct (f p); simpl; [| by apply IH].
  apply NoDup_cons. split; [| by apply IH].
  intros Hin. apply Hp. apply list_elem_of_fmap in Hin as (q & -> & Hq).
  apply list_elem_of_fmap. exists q. split; [done |].
  apply list_elem_of_In in Hq. apply filter_In in Hq as [Hq _].
  by apply list_elem_of_In.
Qed.

End NumFacts.

(** ** Group keys *)

Module KeyFacts.

Import Num NumFacts.

Lemma ascii_compare_lt_trans a b c :
  Ascii.compare a b = Lt -> Ascii.compare b c = Lt -> Ascii.compare a c = Lt.
Proof.
  unfold Ascii.compare. rewrite !N.compare_lt_iff. lia.
Qed.

Lemma compare_not_gt_trans s1 : forall s2 s3,
  String.compare s1 s2 <> Gt -> String.compare s2 s3 <> Gt ->
  String.compare s1 s3 <> Gt.
Proof.
  induction s1 as [|a s1 IH]; intros [|b s2] [|c s3]; simpl; try done.
  destruct (Ascii.compare a b) eqn:Eab; [| | done].
  - apply Ascii.compare_eq_iff in Eab. subst b.
    destruct (Ascii.compare a c); [apply IH | done | done].
  - destruct (Ascii.compare b c) eqn:Ebc; [| | done].
    + apply Ascii.compare_eq_iff in Ebc. subst c. by rewrite Eab.
    + by rewrite (ascii_compare_lt_trans a b c).
Qed.

Lemma leb_trans s1 s2 s3 :
  String.leb s1 s2 = true -> String.leb s2 s3 = true -> String.leb s1 s3 = true.
Proof.
  unfold String.leb. intros H1 H2.
  pose proof (compare_not_gt_trans s1 s2 s3) as H.
  destruct (String.compare s1 s2); try done;
    destruct (String.compare s2 s3); try done;
    destruct (String.compare s1 s3); try done; by exfalso; apply H.
Qed.

Lemma elem_of_insert_key k k' ks :
  k' ∈ insert_key k ks <-> k' = k \/ k' ∈ ks.
Proof.
  induction ks as [|k0 ks IH]; simpl.
  { set_solver. }
  destruct (String.eqb k k0) eqn:E.
  - apply String.eqb_eq in E. subst k0. rewrite !elem_of_cons. tauto.
  - destruct (String.leb k k0); [rewrite !elem_of_cons; tauto |].
    rewrite !elem_of_cons, IH. tauto.
Qed.

Lemma elem_of_sorted_keys k ks : k ∈ sorted_keys ks <-> k ∈ ks.
Proof.
  unfold sorted_keys. induction ks as [|k0 ks IH]; simpl; [done |].
  rewrite elem_of_insert_key, IH, elem_of_cons. tauto.
Qed.

Lemma insert_key_sorted k ks :
  StronglySorted key_lt ks -> StronglySorted key_lt (insert_key k ks).
Proof.
  induction 1 as [|k0 ks Hs IH Hall]; simpl.
  { repeat constructor. }
  destruct (String.eqb k k0) eqn:E; [by constructor |].
  apply String.eqb_neq in E.
  destruct (String.leb k k0) eqn:L.
  - constructor; [by constructor |].
    constructor; [by split |].
    eapply Forall_impl; [exact Hall |]. intros x [Hx1 Hx2]. split.
    + by eapply leb_trans.
    + intros ->. apply E. by apply String.leb_antisym.
  - constructor; [done |].
    apply Forall_forall. intros x Hx. apply elem_of_insert_key in Hx as [->|Hx].
    + split; [| congruence].
      destruct (String.leb_total k k0) as [H|H]; congruence.
    + rewrite Forall_forall in Hall. by apply Hall.
Qed.

Lemma sorted_keys_sorted ks : StronglySorted key_lt (sorted_keys ks).
Proof.
  unfold sorted_keys. induction ks as [|k ks IH]; simpl; [constructor |].
  by apply insert_key_sorted.
Qed.

Lemma NoDup_sorted_keys ks : NoDup (sorted_keys ks).
Proof.
  pose proof (sorted_keys_sorted ks) as H.
  induction H as [|k l Hs IH Hall]; constructor; [| done].
  intros Hin. rewrite Forall_forall in Hall. by destruct (Hall k Hin).
Qed.

(** Splitting a table into the groups of distinct keys that cover it
    loses no row and repeats none. *)
Lemma groups_perm {A} (f : A -> string) (keys : list string) : forall df : list A,
  NoDup keys -> (forall r, r ∈ df -> f r ∈ keys) ->
  concat (map (fun k => List.filter (fun r => String.eqb (f r) k) df) keys) ≡ₚ df.
Proof.
  induction keys as [|k keys IH]; intros df Hnd Hcov; simpl.
  { destruct df as [|r df]; [done |]. specialize (Hcov r). set_solver. }
  apply NoDup_cons in Hnd as [Hk Hnd].
  set (rest := List.filter (fun r => negb (String.eqb (f r) k)) df).
  assert (Hsame : forall k', k' ∈ keys ->
            List.filter (fun r => String.eqb (f r) k') df =
            List.filter (fun r => String.eqb (f r) k') rest).
  { intros k' Hk'. unfold rest. clear -Hk Hk'.
    induction df as [|r df IHd]; simpl; [done |].
    destruct (String.eqb (f r) k) eqn:E; simpl.
    - apply String.eqb_eq in E.
      destruct (String.eqb (f r) k') eqn:E'; [| done].
      apply String.eqb_eq in E'. congruence.
    - destruct (String.eqb (f r) k'); by rewrite IHd. }
  assert (Hmap : map (fun k' => List.filter (fun r => String.eqb (f r) k') df) keys =
                 map (fun k' => List.filter (fun r => String.eqb (f r) k') rest) keys).
  { apply list_eq. intros i. rewrite !list_lookup_fmap.
    destruct (keys !! i) as [k'|] eqn:Hi; [| done]. simpl.
    f_equal. apply Hsame. by eapply list_elem_of_lookup_2. }
  rewrite Hmap, IH; [| done |].
  - unfold rest. clear. induction df as [|r df IHd]; simpl; [done |].
    destruct (String.eqb (f r) k); simpl.
    + by rewrite IHd.
    + rewrite <- Permutation_middle. by rewrite IHd.
  - intros r Hr. unfold rest in Hr.
    apply list_elem_of_In, filter_In in Hr as [Hr Hne].
    apply list_elem_of_In in Hr. specialize (Hcov r Hr).
    apply elem_of_cons in Hcov as [Heq|]; [| done].
    apply negb_true_iff, String.eqb_neq in Hne. done.
Qed.

End KeyFacts.

Module ReconcilerFacts.
Import Num NumFacts Reconciler.
Local Open Scope Q_scope.

(** *** The transfer loops keep every donor at or above its target *)

Lemma insert_desc_perm p l : insert_desc p l ≡ₚ p :: l.
Proof.
  induction l as [|q l IH]; simpl; [done |].
  destruct (Qle_bool _ _); [done |].
  rewrite IH. apply Permutation_swap.
Qed.

Lemma sort_desc_perm l : sort_desc l ≡ₚ l.
Proof.
  induction l as [|p l IH]; simpl; [done |].
  rewrite insert_desc_perm. by rewrite IH.
Qed.

Lemma drain_inv idx surplus : forall target_add rm_df,
  idx ∉ map fst surplus ->
  NoDup (map fst surplus) ->
  Forall (entry_ok rm_df) surplus ->
  let out := drain idx surplus target_add rm_df in
  map fst out.2 = map fst surplus /\
  Forall (entry_ok out.1) out.2 /\
  (forall k, k ∉ map fst surplus -> k <> idx -> out.1 !! k = rm_df !! k) /\
  (forall k r, rm_df !! k = Some r ->
     exists r', out.1 !! k = Some r' /\ acres_masc r' = acres_masc r /\
                (k <> idx -> acres_aci r' <= acres_aci r) /\
                (k ∉ map fst surplus -> acres_aci r <= acres_aci r')).
Proof.
  induction surplus as [|[jdx s_row] rest IH]; intros t rm_df Hidx Hnd Hok; simpl.
  { split_and!; [done | done | done |]. intros k r Hk. exists r. split_and!; [done | done | lra | lra]. }
  destruct (Qle_bool t 0) eqn:Ht; simpl.
  { split_and!; [done | done | done |]. intros k r Hk. exists r. split_and!; [done | done | lra | lra]. }
  simpl in Hidx, Hnd. apply not_elem_of_cons in Hidx as [Hij Hidx].
  apply NoDup_cons in Hnd as [Hj Hnd].
  apply Forall_cons in Hok as [Hhd Hok].
  destruct (Qle_bool (acres_diff s_row) 0) eqn:Hav.
  - specialize (IH t rm_df Hidx Hnd Hok).
    destruct (drain idx rest t rm_df) as [rm' rest'] eqn:E. simpl in *.
    destruct IH as (Hfst & Hok' & Hframe & Hrows).
    split_and!.
    + by rewrite Hfst.
    + apply Forall_cons. split; [| done].
      destruct Hhd as (r & Hr & Hd & Hge). exists r. simpl in *.
      rewrite Hframe; [done | done | congruence].
    + intros k Hk Hki. apply not_elem_of_cons in Hk as [_ Hk]. by apply Hframe.
    + intros k r Hk. destruct (Hrows k r Hk) as (r' & ? & ? & ? & Hup).
      exists r'. split_and!; [done | done | done |].
      intros Hn. apply not_elem_of_cons in Hn as [_ Hn]. by apply Hup.
  - set (take := py_min (acres_diff s_row) t).
    set (rm1 := alter (fun r => set_acres_aci (acres_aci r - take) r) jdx rm_df).
    set (rm2 := alter (fun r => set_acres_aci (acres_aci r + take) r) idx rm1).
    assert (Hav' : 0 < acres_diff s_row).
    { destruct (Qlt_le_dec 0 (acres_diff s_row)) as [|Hle]; [done |].
      apply Qle_bool_iff in Hle. congruence. }
    assert (Ht' : 0 < t).
    { destruct (Qlt_le_dec 0 t) as [|Hle]; [done |].
      apply Qle_bool_iff in Hle. congruence. }
    assert (Htake : 0 < take /\ take <= acres_diff s_row /\ take <= t).
    { unfold take. destruct (py_min_spec (acres_diff s_row) t) as [[? ->]|[? ->]]; lra. }
    assert (Hok2 : Forall (entry_ok rm2) rest).
    { apply Forall_forall. intros [j s] Hin.
      rewrite Forall_forall in Hok. destruct (Hok _ Hin) as (r & Hr & Hd & Hge).
      exists r. simpl in *.
      split_and!; [| done | done].
      unfold rm2, rm1.
      rewrite !list_lookup_alter_ne; [done | |].
      - intros ->. apply Hj. apply list_elem_of_fmap. by exists (j, s).
      - intros ->. apply Hidx. apply list_elem_of_fmap. by exists (j, s). }
    specialize (IH (t - take) rm2 Hidx Hnd Hok2).
    destruct (drain idx rest (t - take) rm2) as [rm' rest'] eqn:E. simpl in *.
    destruct IH as (Hfst & Hok' & Hframe & Hrows).
    split_and!.
    + by rewrite Hfst.
    + apply Forall_cons. split; [| done].
      destruct Hhd as (r & Hr & Hd & Hge). simpl in *.
      exists (set_acres_aci (acres_aci r - take) r). simpl.
      split_and!; [| lra | lra].
      rewrite Hframe; [| done | congruence].
      unfold rm2, rm1. rewrite list_lookup_alter_ne by congruence.
      rewrite list_lookup_alter. case_decide; [| done]. by rewrite Hr.
    + intros k Hk Hki. apply not_elem_of_cons in Hk as [Hkj Hk].
      rewrite Hframe by done. unfold rm2, rm1.
      rewrite !list_lookup_alter_ne; [done | congruence | congruence].
    + intros k r Hk.
      assert (exists r2, rm2 !! k = Some r2 /\ acres_masc r2 = acres_masc r /\
                (k <> idx -> acres_aci r2 <= acres_aci r) /\
                (k <> jdx -> acres_aci r <= acres_aci r2)) as (r2 & Hr2 & Hm2 & Hdn & Hup).
      { unfold rm2, rm1. destruct (decide (k = idx)) as [->|Hki].
        - rewrite list_lookup_alter. case_decide; [| done].
          rewrite list_lookup_alter_ne by congruence. rewrite Hk. simpl.
          eexists. split; [done |]. simpl. split_and!; [done | done | lra].
        - rewrite list_lookup_alter_ne by congruence.
          destruct (decide (k = jdx)) as [->|Hkj].
          + rewrite list_lookup_alter. case_decide; [| done]. rewrite Hk. simpl.
            eexists. split; [done |]. simpl. split_and!; [done | lra | done].
          + rewrite list_lookup_alter_ne by congruence.
            exists r. split_and!; [done | done | lra | lra]. }
      destruct (Hrows k r2 Hr2) as (r' & Hr' & Hm' & Hdn' & Hup').
      exists r'. split_and!; [done | congruence | |].
      * intros Hki. specialize (Hdn Hki). specialize (Hdn' Hki). lra.
      * intros Hn. apply not_elem_of_cons in Hn as [Hkj Hn].
        specialize (Hup Hkj). specialize (Hup' Hn). lra.
Qed.


Lemma fill_missing_inv missing : forall surplus rm_df,
  Forall (fun p => p.1 ∉ map fst surplus) missing ->
  NoDup (map fst surplus) ->
  Forall (entry_ok rm_df) surplus ->
  let out := fill_missing missing surplus rm_df in
  map fst out.2 = map fst surplus /\
  Forall (entry_ok out.1) out.2 /\
  (forall k r, rm_df !! k = Some r ->
     exists r', out.1 !! k = Some r' /\ acres_masc r' = acres_masc r /\
                (k ∈ map fst surplus -> acres_aci r' <= acres_aci r) /\
                (k ∉ map fst surplus -> acres_aci r <= acres_aci r')).
Proof.
  induction missing as [|[idx row] rest IH]; intros surplus rm_df Hmiss Hnd Hok; simpl.
  { split_and!; [done | done |]. intros k r Hk. exists r.
    split_and!; [done | done | lra | lra]. }
  apply Forall_cons in Hmiss as [Hidx Hmiss]. simpl in Hidx.
  pose proof (drain_inv idx surplus (acres_masc row) rm_df Hidx Hnd Hok) as Hd.
  destruct (drain idx surplus (acres_masc row) rm_df) as [rm' surplus'] eqn:E.
  simpl in Hd. destruct Hd as (Hfst & Hok' & _ & Hrows).
  specialize (IH surplus' rm').
  rewrite Hfst in IH. specialize (IH Hmiss Hnd Hok').
  destruct IH as (Hfst' & Hok'' & Hrows').
  split_and!; [done | done |].
  intros k r Hk. destruct (Hrows k r Hk) as (r1 & Hr1 & Hm1 & Hdn1 & Hup1).
  destruct (Hrows' k r1 Hr1) as (r2 & Hr2 & Hm2 & Hdn2 & Hup2).
  exists r2. split_and!; [done | congruence | |].
  - intros Hin. specialize (Hdn2 Hin).
    assert (k <> idx) as Hne by (intros ->; done).
    specialize (Hdn1 Hne). lra.
  - intros Hn. specialize (Hup1 Hn). specialize (Hup2 Hn). lra.
Qed.

Lemma elem_of_missing_of rm_df k r :
  (k, r) ∈ missing_of rm_df <-> rm_df !! k = Some r /\ is_missing r = true.
Proof.
  unfold missing_of. rewrite list_elem_of_In, filter_In, <- list_elem_of_In.
  by rewrite elem_of_iterrows.
Qed.

Lemma elem_of_surplus_of rm_df k r :
  (k, r) ∈ surplus_of rm_df <-> rm_df !! k = Some r /\ is_surplus r = true.
Proof.
  unfold surplus_of. rewrite list_elem_of_In, filter_In, <- list_elem_of_In.
  by rewrite elem_of_iterrows.
Qed.

Lemma missing_not_surplus r : is_missing r = true -> is_surplus r = false.
Proof.
  unfold is_missing, is_surplus. intros H.
  apply andb_true_iff in H as [H1 H2].
  apply Qeqb_eq in H1. apply Qltb_lt in H2. apply Qltb_ge. lra.
Qed.

Lemma surplus_not_zeroed r :
  is_surplus (zero_case1 r) = true -> zero_case1 r = r.
Proof.
  unfold zero_case1. destruct (mask_case1 r) eqn:E; [| done].
  unfold is_surplus. simpl. intros H. apply Qltb_lt in H.
  unfold mask_case1 in E. apply andb_true_iff in E as [_ E].
  apply Qeqb_eq in E. lra.
Qed.

Lemma acres_masc_zero_case1 r : acres_masc (zero_case1 r) = acres_masc r.
Proof. unfold zero_case1. by destruct (mask_case1 r). Qed.

(** The pre-transfer table of a region: the table after the zeroing pass. *)
Lemma reallocate_rm_transfers rm_df0 :
  Forall (fun r => acres_diff r == acres_aci r - acres_masc r) rm_df0 ->
  forall k r, rm_df0 !! k = Some r ->
  exists r', reallocate_rm rm_df0 !! k = Some r' /\
    acres_masc r' = acres_masc r /\
    (is_surplus (zero_case1 r) = true ->
       acres_aci r' <= acres_aci (zero_case1 r) /\
       acres_masc r <= acres_aci r') /\
    (is_surplus (zero_case1 r) = false ->
       acres_aci (zero_case1 r) <= acres_aci r').
Proof.
  intros Hdiff k r Hk. unfold reallocate_rm.
  set (z := map zero_case1 rm_df0).
  assert (Hz : z !! k = Some (zero_case1 r)) by (unfold z; by rewrite list_lookup_fmap, Hk).
  destruct (missing_of z) as [|m ms] eqn:Em.
  { exists (zero_case1 r). split_and!; [done | apply acres_masc_zero_case1 | |].
    - intros Hs. apply Qltb_lt in Hs. rewrite acres_masc_zero_case1 in Hs. lra.
    - lra. }
  destruct (surplus_of z) as [|s ss] eqn:Es.
  { exists (zero_case1 r). split_and!; [done | apply acres_masc_zero_case1 | |].
    - intros Hs. apply Qltb_lt in Hs. rewrite acres_masc_zero_case1 in Hs. lra.
    - lra. }
  rewrite <- Em, <- Es.
  assert (Hperm : sort_desc (surplus_of z) ≡ₚ surplus_of z) by apply sort_desc_perm.
  assert (Hnd : NoDup (map fst (sort_desc (surplus_of z)))).
  { rewrite Hperm. apply NoDup_fst_filter, NoDup_fst_iterrows. }
  assert (Hok : Forall (entry_ok z) (sort_desc (surplus_of z))).
  { rewrite Hperm. apply Forall_forall. intros [j s'] Hin.
    apply elem_of_surplus_of in Hin as [Hj Hs].
    exists s'. simpl. split; [done |].
    unfold z in Hj. rewrite list_lookup_fmap in Hj.
    destruct (rm_df0 !! j) as [r0|] eqn:Hr0; [| done].
    simpl in Hj. injection Hj as <-.
    pose proof (surplus_not_zeroed r0 Hs) as Heq.
    rewrite Heq in Hs |- *.
    rewrite Forall_forall in Hdiff.
    pose proof (Hdiff r0 (list_elem_of_lookup_2 _ _ _ Hr0)) as Hd.
    apply Qltb_lt in Hs. split; lra. }
  assert (Hmiss : Forall (fun p => p.1 ∉ map fst (sort_desc (surplus_of z))) (missing_of z)).
  { apply Forall_forall. intros [i mi] Hin. simpl.
    apply elem_of_missing_of in Hin as [Hi Hmi].
    rewrite Hperm. intros Hin. apply list_elem_of_fmap in Hin as ([j sj] & Hij & Hin).
    simpl in Hij. subst j.
    apply elem_of_surplus_of in Hin as [Hi' Hsj].
    rewrite Hi in Hi'. injection Hi' as <-.
    apply missing_not_surplus in Hmi. congruence. }
  pose proof (fill_missing_inv _ _ _ Hmiss Hnd Hok) as Hinv.
  destruct (fill_missing (missing_of z) (sort_desc (surplus_of z)) z) as [out sur'] eqn:E.
  simpl in Hinv. destruct Hinv as (Hfst & Hok' & Hrows).
  destruct (Hrows k _ Hz) as (r' & Hr' & Hm' & Hdn & Hup).
  exists (set_acres_diff r'). simpl.
  split_and!.
  - by rewrite list_lookup_fmap, Hr'.
  - rewrite Hm'. apply acres_masc_zero_case1.
  - intros Hs.
    assert (Hin : k ∈ map fst (sort_desc (surplus_of z))).
    { rewrite Hperm. apply list_elem_of_fmap. exists (k, zero_case1 r).
      split; [done |]. by apply elem_of_surplus_of. }
    split; [by apply Hdn |].
    rewrite <- Hfst in Hin. apply list_elem_of_fmap in Hin as ([k' s'] & Hk' & Hin).
    simpl in Hk'. subst k'.
    rewrite Forall_forall in Hok'.
    destruct (Hok' _ Hin) as (r'' & Hr'' & Hd & Hge). simpl in *.
    rewrite Hr' in Hr''. injection Hr'' as <-.
    rewrite acres_masc_zero_case1 in Hm'. rewrite <- Hm'. lra.
  - intros Hs. apply Hup. rewrite Hperm. intros Hin.
    apply list_elem_of_fmap in Hin as ([k' s'] & Hk' & Hin).
    simpl in Hk'. subst k'. apply elem_of_surplus_of in Hin as [Hz' Hs'].
    rewrite Hz in Hz'. injection Hz' as <-. congruence.
Qed.


(** *** The worked example of the specification *)

(** C1 (as amended).  For the region {A: sensed 100, truth 0}, {B: sensed 0,
    truth 40}, {C: sensed 80, truth 60}, whatever the pixel counts and
    hectares of the three records, the Reconciler returns sensed acres
    A = 0, B = 20, C = 60; the region's sensed total is then 80, and B
    stays 20 acres short of its ground truth. *)
Theorem example_region_reconciled pA hA pB hB pC hC :
  let out := reallocate_acres (example_region pA hA pB hB pC hC) in
  map Label out = ["A"; "B"; "C"]%string /\
  Forall2 Qeq (map acres_aci out) [0; 20; 60] /\
  Qsum (map acres_aci out) == 80 /\
  Forall2 Qeq (map (fun r => acres_masc r - acres_aci r) out) [0; 20; 0].
Proof.
  vm_compute. split_and!; [reflexivity | | reflexivity |].
  all: repeat constructor.
Qed.

(** The same run does not give a sensed total of 40. *)
Lemma example_region_total_is_not_40 :
  let out := reallocate_acres (example_region 0 0 0 0 0 0) in
  ~ (Forall2 Qeq (map acres_aci out) [0; 20; 60] /\
     Qsum (map acres_aci out) == 40 /\
     Forall2 Qeq (map (fun r => acres_masc r - acres_aci r) out) [0; 20; 0]).
Proof. vm_compute. intros (_ & H & _). discriminate H. Qed.

(** *** Regions without ground truth *)

Lemma filter_iterrows_nil {A} (f : A -> bool) (l : list A) :
  Forall (fun x => f x = false) l ->
  List.filter (fun p : nat * A => f p.2) (iterrows l) = [].
Proof.
  intros Hall. destruct (List.filter _ _) as [|[i x] l'] eqn:E; [done |].
  assert (Hin : In (i, x) (List.filter (fun p : nat * A => f p.2) (iterrows l))).
  { rewrite E. by left. }
  apply filter_In in Hin as [Hin Hf]. simpl in Hf.
  apply list_elem_of_In, elem_of_iterrows in Hin.
  rewrite Forall_forall in Hall.
  rewrite (Hall x) in Hf; [done |]. by eapply list_elem_of_lookup_2.
Qed.

Lemma Qsum_nonneg l : Forall (fun x => 0 <= x) l -> 0 <= Qsum l.
Proof.
  unfold Qsum. induction 1 as [|x l Hx _ IH]; simpl; lra.
Qed.

Lemma Qsum_zero_all l :
  Forall (fun x => 0 <= x) l -> Qsum l == 0 -> Forall (fun x => x == 0) l.
Proof.
  induction 1 as [|x l Hx Hl IH]; intros Hs; [done |].
  pose proof (Qsum_nonneg l Hl) as Hn. unfold Qsum in *. simpl in Hs.
  apply Forall_cons. split; [lra |]. apply IH. lra.
Qed.

Lemma reallocate_rm_zero_truth rm_df :
  Forall (fun r => acres_masc r == 0) rm_df ->
  reallocate_rm rm_df = map zero_case1 rm_df.
Proof.
  intros Hall. unfold reallocate_rm.
  replace (missing_of (map zero_case1 rm_df)) with (@nil (nat * Row)); [done |].
  symmetry. apply (filter_iterrows_nil is_missing).
  apply Forall_fmap. eapply Forall_impl; [exact Hall |].
  intros r Hr. simpl. unfold is_missing.
  rewrite acres_masc_zero_case1. apply andb_false_iff. right.
  apply Qltb_ge. rewrite Hr. lra.
Qed.

(** C2 (as amended).  In a region whose ground-truth acres are non-negative
    and sum to zero no transfer takes place, but the zeroing pass still
    applies: every record with positive sensed acres has its sensed acres,
    pixel count and hectares set to zero, and every other record is
    returned as it was. *)
Theorem zero_truth_region_only_zeroed rm_df :
  Forall (fun r => 0 <= acres_masc r) rm_df ->
  Qsum (map acres_masc rm_df) == 0 ->
  Forall2 (fun r r' =>
             (0 < acres_aci r ->
                acres_aci r' = 0 /\ pixel_count r' = 0 /\ hectares r' = 0) /\
             (acres_aci r <= 0 -> r' = r))
          rm_df (reallocate_rm rm_df).
Proof.
  intros Hnn Hsum.
  assert (Hall : Forall (fun r => acres_masc r == 0) rm_df).
  { apply Forall_fmap in Hnn. pose proof (Qsum_zero_all _ Hnn Hsum) as H.
    by apply Forall_fmap in H. }
  rewrite (reallocate_rm_zero_truth _ Hall).
  apply Forall2_fmap_r. apply Forall_Forall2_diag.
  eapply Forall_impl; [exact Hall |]. intros r Hr. simpl.
  unfold zero_case1, mask_case1. destruct (Qltb 0 (acres_aci r)) eqn:E; simpl.
  - apply Qeqb_eq in Hr. rewrite Hr. simpl. split; [done |].
    apply Qltb_lt in E. intros ?. lra.
  - apply Qltb_ge in E. split; [intros ?; lra | done].
Qed.

Lemma zero_truth_region_only_zeroed_witness :
  Forall2 (fun r r' =>
             (0 < acres_aci r ->
                acres_aci r' = 0 /\ pixel_count r' = 0 /\ hectares r' = 0) /\
             (acres_aci r <= 0 -> r' = r))
          zero_truth_region (reallocate_rm zero_truth_region).
Proof.
  apply zero_truth_region_only_zeroed.
  - repeat constructor. simpl. lra.
  - reflexivity.
Defined.

(** A region without ground truth is not left unchanged. *)
Lemma zero_truth_region_is_changed :
  Qsum (map acres_masc zero_truth_region) == 0 /\
  ~ Forall2 unchanged zero_truth_region (reallocate_acres zero_truth_region).
Proof.
  split; [reflexivity |]. vm_compute. intros H.
  inversion H as [|? ? ? ? (Ha & _) _]; subst. discriminate Ha.
Qed.

End ReconcilerFacts.

(** ** More on the Region Reconciler *)

Module ReconcilerMore.

Import Num NumFacts Reconciler.
Local Open Scope Q_scope.

Lemma length_drain idx surplus : forall t rm_df,
  length (drain idx surplus t rm_df).1 = length rm_df.
Proof.
  induction surplus as [|[jdx s] rest IH]; intros t rm_df; simpl; [done |].
  destruct (Qle_bool t 0); [done |].
  destruct (Qle_bool (acres_diff s) 0).
  - specialize (IH t rm_df). by destruct (drain idx rest t rm_df).
  - match goal with |- context [drain idx rest ?t' ?r'] =>
      specialize (IH t' r'); destruct (drain idx rest t' r') end.
    simpl in *. by rewrite IH, !length_alter.
Qed.

Lemma fst_drain idx surplus : forall t rm_df,
  map fst (drain idx surplus t rm_df).2 = map fst surplus.
Proof.
  induction surplus as [|[jdx s] rest IH]; intros t rm_df; simpl; [done |].
  destruct (Qle_bool t 0); [done |].
  destruct (Qle_bool (acres_diff s) 0).
  - specialize (IH t rm_df). destruct (drain idx rest t rm_df). simpl in *.
    by rewrite IH.
  - match goal with |- context [drain idx rest ?t' ?r'] =>
      specialize (IH t' r'); destruct (drain idx rest t' r') end.
    simpl in *. by rewrite IH.
Qed.

(** *** What a transfer touches *)

Lemma same_but_acres_refl r : same_but_acres r r.
Proof. by repeat split. Qed.

Lemma same_but_acres_trans r1 r2 r3 :
  same_but_acres r1 r2 -> same_but_acres r2 r3 -> same_but_acres r1 r3.
Proof. unfold same_but_acres. intros (?&?&?&?&?) (?&?&?&?&?). split_and!; congruence. Qed.

Lemma alter_same_but (rm_df : list Row) k v j r :
  rm_df !! j = Some r ->
  exists r', alter (fun r0 => set_acres_aci (v r0) r0) k rm_df !! j = Some r' /\
             same_but_acres r r'.
Proof.
  intros Hj. rewrite list_lookup_alter. destruct (decide (k = j)) as [->|].
  - rewrite Hj. eexists. split; [done |]. by repeat split.
  - exists r. split; [done |]. apply same_but_acres_refl.
Qed.

Lemma drain_same_but idx surplus : forall t rm_df k r,
  rm_df !! k = Some r ->
  exists r', (drain idx surplus t rm_df).1 !! k = Some r' /\ same_but_acres r r'.
Proof.
  induction surplus as [|[jdx s] rest IH]; intros t rm_df k r Hk; simpl.
  { exists r. split; [done | apply same_but_acres_refl]. }
  destruct (Qle_bool t 0).
  { exists r. split; [done | apply same_but_acres_refl]. }
  destruct (Qle_bool (acres_diff s) 0).
  - destruct (IH t rm_df k r Hk) as (r' & ? & ?).
    destruct (drain idx rest t rm_df). simpl in *. eauto.
  - set (take := py_min (acres_diff s) t).
    destruct (alter_same_but rm_df jdx (fun r0 => acres_aci r0 - take) k r Hk)
      as (r1 & Hr1 & S1).
    destruct (alter_same_but _ idx (fun r0 => acres_aci r0 + take) k r1 Hr1)
      as (r2 & Hr2 & S2).
    destruct (IH (t - take) _ k r2 Hr2) as (r' & Hr' & S3).
    fold take.
    destruct (drain idx rest (t - take) _). simpl in *.
    exists r'. split; [done |].
    eapply same_but_acres_trans; [| exact S3].
    eapply same_but_acres_trans; eauto.
Qed.

Lemma drain_frame idx surplus : forall t rm_df k,
  k <> idx -> k ∉ map fst surplus ->
  (drain idx surplus t rm_df).1 !! k = rm_df !! k.
Proof.
  induction surplus as [|[jdx s] rest IH]; intros t rm_df k Hki Hk; simpl; [done |].
  destruct (Qle_bool t 0); [done |].
  simpl in Hk. apply not_elem_of_cons in Hk as [Hkj Hk].
  destruct (Qle_bool (acres_diff s) 0).
  - specialize (IH t rm_df k Hki Hk). by destruct (drain idx rest t rm_df).
  - match goal with |- context [drain idx rest ?t' ?r'] =>
      specialize (IH t' r' k Hki Hk); destruct (drain idx rest t' r') end.
    simpl in *. rewrite IH. by rewrite !list_lookup_alter_ne.
Qed.

(** What the missing row [idx] receives from one pass over the donors:
    never more than it asked for, and less only when the donors have
    nothing left. *)
Lemma drain_recv idx surplus : forall t rm_df r,
  rm_df !! idx = Some r -> idx ∉ map fst surplus -> 0 <= t ->
  exists r', (drain idx surplus t rm_df).1 !! idx = Some r' /\
    acres_aci r <= acres_aci r' /\ acres_aci r' - acres_aci r <= t /\
    (acres_aci r' - acres_aci r == t \/
     Forall (fun p => acres_diff p.2 <= 0) (drain idx surplus t rm_df).2).
Proof.
  induction surplus as [|[jdx s] rest IH]; intros t rm_df r Hr Hidx Ht; simpl.
  { exists r. split_and!; [done | lra | lra | by right]. }
  destruct (Qle_bool t 0) eqn:Et.
  { apply Qle_bool_iff in Et. exists r. split_and!; [done | lra | lra | left; lra]. }
  apply Qle_bool_false in Et.
  simpl in Hidx. apply not_elem_of_cons in Hidx as [Hij Hidx].
  destruct (Qle_bool (acres_diff s) 0) eqn:Ea.
  - apply Qle_bool_iff in Ea.
    destruct (IH t rm_df r Hr Hidx Ht) as (r' & Hr' & H1 & H2 & H3).
    destruct (drain idx rest t rm_df). simpl in *.
    exists r'. split_and!; [done | done | done |].
    destruct H3; [by left | right]. by apply Forall_cons.
  - apply Qle_bool_false in Ea.
    set (take := py_min (acres_diff s) t).
    assert (Htake : 0 < take /\ take <= acres_diff s /\ take <= t /\
                    (take == t \/ take == acres_diff s)).
    { unfold take. destruct (py_min_spec (acres_diff s) t) as [[? ->]|[? ->]].
      - split_and!; lra.
      - split_and!; lra. }
    set (rm2 := alter (fun r0 => set_acres_aci (acres_aci r0 + take) r0) idx
                  (alter (fun r0 => set_acres_aci (acres_aci r0 - take) r0) jdx rm_df)).
    assert (Hr2 : rm2 !! idx = Some (set_acres_aci (acres_aci r + take) r)).
    { unfold rm2. rewrite list_lookup_alter. destruct (decide (idx = idx)); [| done].
      rewrite list_lookup_alter_ne by congruence. by rewrite Hr. }
    destruct (IH (t - take) rm2 _ Hr2 Hidx ltac:(lra)) as (r' & Hr' & H1 & H2 & H3).
    fold take. fold rm2.
    destruct (drain idx rest (t - take) rm2). simpl in *.
    exists r'. split_and!; [done | lra | lra |].
    destruct H3 as [H3|H3]; [left; lra |].
    destruct Htake as (? & ? & ? & [Hc|Hc]); [left; lra | right].
    apply Forall_cons. split; [simpl; lra | done].
Qed.

Lemma drain_exhausted idx surplus : forall t rm_df,
  Forall (fun p => acres_diff p.2 <= 0) surplus ->
  drain idx surplus t rm_df = (rm_df, surplus).
Proof.
  induction surplus as [|[jdx s] rest IH]; intros t rm_df Hall; simpl; [done |].
  destruct (Qle_bool t 0); [done |].
  apply Forall_cons in Hall as [Hs Hall]. simpl in Hs.
  apply Qle_bool_iff in Hs. rewrite Hs. by rewrite IH.
Qed.

Lemma fill_missing_exhausted missing : forall surplus rm_df,
  Forall (fun p => acres_diff p.2 <= 0) surplus ->
  fill_missing missing surplus rm_df = (rm_df, surplus).
Proof.
  induction missing as [|[idx row] rest IH]; intros surplus rm_df Hall; simpl;
    [done |].
  rewrite drain_exhausted by done. by apply IH.
Qed.

Lemma fill_missing_frame missing : forall surplus rm_df k,
  k ∉ map fst missing -> k ∉ map fst surplus ->
  (fill_missing missing surplus rm_df).1 !! k = rm_df !! k.
Proof.
  induction missing as [|[idx row] rest IH]; intros surplus rm_df k Hm Hs; simpl;
    [done |].
  simpl in Hm. apply not_elem_of_cons in Hm as [Hki Hm].
  pose proof (fst_drain idx surplus (acres_masc row) rm_df) as Hf.
  pose proof (drain_frame idx surplus (acres_masc row) rm_df k Hki Hs) as Hd.
  destruct (drain idx surplus (acres_masc row) rm_df). simpl in *.
  rewrite IH; [done | done | by rewrite Hf].
Qed.

Lemma fill_missing_same_but missing : forall surplus rm_df k r,
  rm_df !! k = Some r ->
  exists r', (fill_missing missing surplus rm_df).1 !! k = Some r' /\
             same_but_acres r r'.
Proof.
  induction missing as [|[idx row] rest IH]; intros surplus rm_df k r Hk; simpl.
  { exists r. split; [done | apply same_but_acres_refl]. }
  destruct (drain_same_but idx surplus (acres_masc row) rm_df k r Hk)
    as (r1 & Hr1 & S1).
  destruct (drain idx surplus (acres_masc row) rm_df) as [rm1 s1]. simpl in *.
  destruct (IH s1 rm1 k r1 Hr1) as (r' & Hr' & S2).
  exists r'. split; [done |]. by eapply same_but_acres_trans.
Qed.

(** Every missing row is either filled to the amount it asked for, or the
    donors are exhausted when the loop ends. *)
Lemma fill_missing_filled missing : forall surplus rm_df,
  NoDup (map fst missing) ->
  Forall (fun p => p.1 ∉ map fst surplus) missing ->
  Forall (fun p => is_Some (rm_df !! p.1) /\ 0 <= acres_masc p.2) missing ->
  let out := fill_missing missing surplus rm_df in
  Forall (fun p => exists r r',
            rm_df !! p.1 = Some r /\ out.1 !! p.1 = Some r' /\
            acres_aci r <= acres_aci r' /\
            acres_aci r' - acres_aci r <= acres_masc p.2 /\
            (acres_aci r' - acres_aci r == acres_masc p.2 \/
             Forall (fun q => acres_diff q.2 <= 0) out.2)) missing.
Proof.
  induction missing as [|[idx row] rest IH]; intros surplus rm_df Hnd Hdis Hval;
    simpl; [done |].
  simpl in Hnd. apply NoDup_cons in Hnd as [Hidx Hnd].
  apply Forall_cons in Hdis as [Hd Hdis]. simpl in Hd.
  apply Forall_cons in Hval as [[[r Hr] Hpos] Hval]. simpl in Hr, Hpos.
  destruct (drain_recv idx surplus (acres_masc row) rm_df r Hr Hd Hpos)
    as (r1 & Hr1 & G1 & G2 & G3).
  pose proof (fst_drain idx surplus (acres_masc row) rm_df) as Hf.
  pose proof (length_drain idx surplus (acres_masc row) rm_df) as Hl.
  pose proof (fun k => drain_frame idx surplus (acres_masc row) rm_df k) as Hfr.
  destruct (drain idx surplus (acres_masc row) rm_df) as [rm1 s1]. simpl in *.
  apply Forall_cons. split.
  - exists r, r1. simpl. split_and!; [done | | done | done |].
    + rewrite fill_missing_frame; [done | done | by rewrite Hf].
    + destruct G3 as [G3|G3]; [by left | right].
      by rewrite fill_missing_exhausted.
  - assert (Hdis1 : Forall (fun p => p.1 ∉ map fst s1) rest) by (by rewrite Hf).
    assert (Hval1 : Forall (fun p => is_Some (rm1 !! p.1) /\ 0 <= acres_masc p.2) rest).
    { apply Forall_forall. intros p Hp. rewrite Forall_forall in Hval.
      destruct (Hval p Hp) as [Hs ?]. split; [| done].
      apply lookup_lt_is_Some. rewrite Hl. by apply lookup_lt_is_Some. }
    specialize (IH s1 rm1 Hnd Hdis1 Hval1). simpl in IH.
    apply Forall_forall. intros p Hp. rewrite Forall_forall in IH.
    destruct (IH p Hp) as (a & b & Ha & Hb & ?).
    exists a, b. split; [| done].
    rewrite <- Ha. symmetry. apply Hfr.
    + intros Heq. apply Hidx. rewrite <- Heq. apply list_elem_of_fmap. eauto.
    + rewrite Forall_forall in Hdis. by apply Hdis.
Qed.


Lemma NoDup_missing_of rm_df : NoDup (map fst (missing_of rm_df)).
Proof. apply NoDup_fst_filter, NoDup_fst_iterrows. Qed.

Lemma missing_disjoint_surplus z :
  Forall (fun p => p.1 ∉ map fst (sort_desc (surplus_of z))) (missing_of z).
Proof.
  apply Forall_forall. intros [i mi] Hin. simpl.
  apply ReconcilerFacts.elem_of_missing_of in Hin as [Hi Hmi].
  rewrite ReconcilerFacts.sort_desc_perm. intros Hin.
  apply list_elem_of_fmap in Hin as ([j sj] & Hij & Hin).
  simpl in Hij. subst j.
  apply ReconcilerFacts.elem_of_surplus_of in Hin as [Hi' Hsj].
  rewrite Hi in Hi'. injection Hi' as <-.
  apply ReconcilerFacts.missing_not_surplus in Hmi. congruence.
Qed.

Lemma reallocate_rm_rows rm_df0 k r :
  rm_df0 !! k = Some r ->
  let z := zero_case1 r in
  exists r', reallocate_rm rm_df0 !! k = Some r' /\
    same_but_acres z r' /\
    (is_missing z = true ->
       0 <= acres_aci r' /\ acres_aci r' <= acres_masc r') /\
    (is_missing z = false -> is_surplus z = false ->
       acres_aci r' = acres_aci z).
Proof.
  intros Hk z. unfold reallocate_rm.
  set (zs := map zero_case1 rm_df0).
  assert (Hz : zs !! k = Some z) by (unfold zs; by rewrite list_lookup_fmap, Hk).
  assert (Hmiss_bound : is_missing z = true ->
            0 <= acres_aci z /\ acres_aci z <= acres_masc z).
  { unfold is_missing. intros H. apply andb_true_iff in H as [H1 H2].
    apply Qeqb_eq in H1. apply Qltb_lt in H2. lra. }
  destruct (missing_of zs) as [|m ms] eqn:Em.
  { exists z. split_and!; [done | apply same_but_acres_refl | done | done]. }
  destruct (surplus_of zs) as [|s ss] eqn:Es.
  { exists z. split_and!; [done | apply same_but_acres_refl | done | done]. }
  rewrite <- Em, <- Es.
  destruct (fill_missing_same_but (missing_of zs) (sort_desc (surplus_of zs))
              zs k z Hz) as (r1 & Hr1 & S1).
  exists (set_acres_diff r1). split_and!.
  - by rewrite list_lookup_fmap, Hr1.
  - destruct S1 as (?&?&?&?&?). by repeat split.
  - intros Hm. simpl.
    assert (Hin : (k, z) ∈ missing_of zs)
      by (by apply ReconcilerFacts.elem_of_missing_of).
    pose proof (fill_missing_filled (missing_of zs) (sort_desc (surplus_of zs)) zs
                  (NoDup_missing_of zs) (missing_disjoint_surplus zs)) as Hf.
    assert (Hval : Forall (fun p => is_Some (zs !! p.1) /\ 0 <= acres_masc p.2)
                          (missing_of zs)).
    { apply Forall_forall. intros [i mi] Hi.
      apply ReconcilerFacts.elem_of_missing_of in Hi as [Hi Hmi]. simpl.
      split; [eauto |]. unfold is_missing in Hmi.
      apply andb_true_iff in Hmi as [_ H2]. apply Qltb_lt in H2. lra. }
    specialize (Hf Hval). simpl in Hf. rewrite Forall_forall in Hf.
    destruct (Hf _ Hin) as (a & b & Ha & Hb & G1 & G2 & _). simpl in *.
    assert (a = z) as -> by congruence. assert (b = r1) as -> by congruence.
    destruct (Hmiss_bound Hm). destruct S1 as (_&_&_&_&Hmasc).
    unfold is_missing in Hm. apply andb_true_iff in Hm as [H1 _].
    apply Qeqb_eq in H1. rewrite Hmasc. lra.
  - intros Hm Hs. simpl.
    rewrite fill_missing_frame in Hr1; [congruence | |].
    + intros Hin. apply list_elem_of_fmap in Hin as ([k' x] & Hk' & Hin).
      simpl in Hk'. subst k'.
      apply ReconcilerFacts.elem_of_missing_of in Hin as [Hz' Hx]. congruence.
    + rewrite ReconcilerFacts.sort_desc_perm. intros Hin.
      apply list_elem_of_fmap in Hin as ([k' x] & Hk' & Hin).
      simpl in Hk'. subst k'.
      apply ReconcilerFacts.elem_of_surplus_of in Hin as [Hz' Hx]. congruence.
Qed.


(** X2.  The transfer changes sensed acres only: every row of a region
    comes back with the region, label, pixel count, hectares and ground
    truth it had after the zeroing pass.  A row that was missing (sensed 0,
    ground truth positive) does not end below zero; a row that was neither
    missing nor in surplus keeps its sensed acres. *)
Theorem transfer_touches_only_acres rm_df0 k r :
  rm_df0 !! k = Some r ->
  let z := zero_case1 r in
  exists r', reallocate_rm rm_df0 !! k = Some r' /\
    same_but_acres z r' /\
    (is_missing z = true -> 0 <= acres_aci r') /\
    (is_missing z = false -> is_surplus z = false ->
       acres_aci r' = acres_aci z).
Proof.
  intros Hk z.
  destruct (reallocate_rm_rows rm_df0 k r Hk) as (r' & Hr' & Hs & Hm & Hn).
  exists r'. split_and!; [done | done | | done].
  intros H. by destruct (Hm H).
Qed.

Lemma transfer_touches_only_acres_witness :
  exists b, reallocate_rm (example_region 1 2 3 4 5 6) !! 1%nat = Some b /\
            pixel_count b = 3 /\ hectares b = 4 /\ 0 <= acres_aci b.
Proof.
  destruct (transfer_touches_only_acres (example_region 1 2 3 4 5 6) 1%nat _ eq_refl)
    as (b & Hb & (_ & _ & Hp & Hh & _) & Hm & _).
  exists b. split_and!; [exact Hb | exact Hp | exact Hh | exact (Hm eq_refl)].
Defined.

(** X5.  A record with positive sensed acres and no ground truth leaves
    the Reconciler with sensed acres, pixel count and hectares all zero,
    whatever the rest of its region looks like: it is zeroed and then
    neither gives nor receives. *)
Theorem unsupported_record_is_removed rm_df0 k r :
  rm_df0 !! k = Some r ->
  0 < acres_aci r -> acres_masc r == 0 ->
  exists r', reallocate_rm rm_df0 !! k = Some r' /\
    acres_aci r' = 0 /\ pixel_count r' = 0 /\ hectares r' = 0.
Proof.
  intros Hk Ha Hm.
  destruct (reallocate_rm_rows rm_df0 k r Hk) as (r' & Hr' & S & _ & Hkeep).
  assert (Hz : zero_case1 r =
               mkRow (rm r) (Label r) 0 0 0 (acres_masc r) (acres_diff r)).
  { unfold zero_case1, mask_case1.
    apply Qltb_lt in Ha. apply Qeqb_eq in Hm. by rewrite Ha, Hm. }
  rewrite Hz in S, Hkeep. destruct S as (_ & _ & Hp & Hh & _).
  simpl in Hp, Hh, Hkeep.
  exists r'. split_and!; [done | | done | done].
  apply Hkeep.
  - unfold is_missing. simpl. apply Qltb_ge. lra.
  - unfold is_surplus. simpl. apply Qltb_ge. lra.
Qed.

Lemma unsupported_record_is_removed_witness :
  exists a, reallocate_rm (example_region 1 2 3 4 5 6) !! 0%nat = Some a /\
            acres_aci a = 0 /\ pixel_count a = 0 /\ hectares a = 0.
Proof.
  apply (unsupported_record_is_removed (example_region 1 2 3 4 5 6) 0%nat
           _ eq_refl eq_refl eq_refl).
Defined.

(** *** The whole table *)

Lemma length_fill_missing missing : forall surplus rm_df,
  length (fill_missing missing surplus rm_df).1 = length rm_df.
Proof.
  induction missing as [|[idx row] rest IH]; intros surplus rm_df; simpl; [done |].
  pose proof (length_drain idx surplus (acres_masc row) rm_df) as Hl.
  destruct (drain idx surplus (acres_masc row) rm_df). simpl in *.
  by rewrite IH.
Qed.

Lemma reallocate_rm_keys rm_df0 :
  map (fun r => (rm r, Label r)) (reallocate_rm rm_df0) =
  map (fun r => (rm r, Label r)) rm_df0.
Proof.
  assert (Hz : map (fun r => (rm r, Label r)) (map zero_case1 rm_df0) =
               map (fun r => (rm r, Label r)) rm_df0).
  { rewrite map_map. apply map_ext. intros r. unfold zero_case1.
    by destruct (mask_case1 r). }
  unfold reallocate_rm. set (zs := map zero_case1 rm_df0) in *.
  destruct (missing_of zs) as [|m ms] eqn:Em; [done |].
  destruct (surplus_of zs) as [|s ss] eqn:Es; [done |].
  rewrite <- Em, <- Es, <- Hz. apply list_eq. intros k.
  rewrite !list_lookup_fmap.
  destruct (zs !! k) as [z|] eqn:Hk.
  - destruct (fill_missing_same_but (missing_of zs) (sort_desc (surplus_of zs))
                zs k z Hk) as (r1 & -> & (? & ? & _)).
    simpl. congruence.
  - rewrite (proj2 (lookup_ge_None _ _)); [done |].
    rewrite length_fill_missing. by apply lookup_ge_None.
Qed.

(** X4.  On a table without rows [reallocate_acres] fails: there is no
    group and the final [pd.concat] has nothing to concatenate.  On any
    other table it returns, loses no row and invents none: the (region,
    label) keys of its result are those of its input, rearranged so that
    the rows of one region stand together, in the order they had. *)
Theorem reallocate_acres_keeps_rows df :
  (reallocate_acres_or_error df = None <-> df = []) /\
  (df <> [] ->
   reallocate_acres_or_error df = Some (reallocate_acres df) /\
   map (fun r => (rm r, Label r)) (reallocate_acres df) ≡ₚ
   map (fun r => (rm r, Label r)) df /\
   length (reallocate_acres df) = length df /\
   map (fun r => (rm r, Label r)) (reallocate_acres df) =
   map (fun r => (rm r, Label r)) (concat (groupby_rm df))).
Proof.
  assert (Hgrp : groupby_rm df = [] <-> df = []).
  { unfold groupby_rm. split; [| by intros ->].
    intros H. destruct df as [|r df]; [done |]. exfalso.
    assert (Hin : rm r ∈ sorted_keys (map rm (r :: df))).
    { apply KeyFacts.elem_of_sorted_keys. by left. }
    destruct (sorted_keys (map rm (r :: df))); [by apply elem_of_nil in Hin | done]. }
  assert (Hres : reallocate_acres_or_error df =
                 if decide (df = []) then None else Some (reallocate_acres df)).
  { unfold reallocate_acres_or_error, reallocate_acres, pd_concat.
    destruct (decide (df = [])) as [->|Hne]; [done |].
    destruct (groupby_rm df) eqn:E; [| done].
    exfalso. by apply Hne, Hgrp. }
  split.
  { rewrite Hres. by destruct (decide (df = [])). }
  intros Hne. split.
  { rewrite Hres. by destruct (decide (df = [])). }
  assert (Heq : map (fun r => (rm r, Label r)) (reallocate_acres df) =
                map (fun r => (rm r, Label r)) (concat (groupby_rm df))).
  { unfold reallocate_acres. generalize (groupby_rm df). intros gs.
    induction gs as [|g gs IH]; simpl; [done |].
    by rewrite !map_app, IH, reallocate_rm_keys. }
  assert (Hperm : concat (groupby_rm df) ≡ₚ df).
  { unfold groupby_rm. apply KeyFacts.groups_perm.
    - apply KeyFacts.NoDup_sorted_keys.
    - intros r Hr. apply KeyFacts.elem_of_sorted_keys.
      apply list_elem_of_fmap. eauto. }
  split_and!.
  - rewrite Heq. by apply fmap_Permutation.
  - apply (f_equal length) in Heq. rewrite !length_map in Heq.
    rewrite Heq. by apply Permutation_length.
  - exact Heq.
Qed.

Lemma reallocate_acres_keeps_rows_witness :
  let df := example_region 0 0 0 0 0 0 in
  reallocate_acres_or_error df = Some (reallocate_acres df) /\
  length (reallocate_acres df) = 3%nat.
Proof.
  intros df.
  destruct (proj2 (reallocate_acres_keeps_rows df)) as (H1 & _ & H2 & _).
  - discriminate.
  - split; [exact H1 | exact H2].
Defined.

End ReconcilerMore.

(** ** The cascading donor top-up *)

Module TopUpFacts.

Import Num NumFacts TopUp.
Local Open Scope Q_scope.

(** *** Looking up a donor row *)

Lemma find_label_Some label sub j d :
  find_label label sub = Some (j, d) <->
  sub !! j = Some d /\ Label d = label /\
  (forall k r, (k < j)%nat -> sub !! k = Some r -> Label r <> label).
Proof.
  revert j. induction sub as [|r sub IH]; intros j; simpl.
  { split; [done | by intros [? _]]. }
  destruct (String.eqb (Label r) label) eqn:E.
  - apply String.eqb_eq in E. split.
    + intros [= <- <-]. split_and!; [done | done |]. intros k r' Hk. lia.
    + intros (Hj & Hl & Hfirst). destruct j as [|j]; [by injection Hj as -> |].
      exfalso. apply (Hfirst 0%nat r); [lia | done | done].
  - apply String.eqb_neq in E. split.
    + intros H. apply fmap_Some in H as ([j' d'] & F & Heq).
      simpl in Heq. injection Heq as -> ->.
      apply IH in F as (Hj & Hl & Hfirst).
      split_and!; [done | done |].
      intros [|k] r' Hk Hr'; simpl in Hr'; [by injection Hr' as <- |].
      apply (Hfirst k); [lia | done].
    + intros (Hj & Hl & Hfirst). destruct j as [|j]; simpl in Hj.
      { injection Hj as ->. done. }
      assert (F : find_label label sub = Some (j, d)).
      { apply IH. split_and!; [done | done |].
        intros k r' Hk Hr'. apply (Hfirst (S k)); [lia | done]. }
      by rewrite F.
Qed.

Lemma find_label_None label sub :
  find_label label sub = None <->
  (forall k r, sub !! k = Some r -> Label r <> label).
Proof.
  induction sub as [|r sub IH]; simpl.
  { split; [by intros _ k r' | done]. }
  destruct (String.eqb (Label r) label) eqn:E.
  - apply String.eqb_eq in E. split; [done |].
    intros H. exfalso. by apply (H 0%nat r).
  - apply String.eqb_neq in E.
    destruct (find_label label sub) as [[j' d']|] eqn:F; simpl.
    + split; [done |]. intros H. exfalso.
      apply find_label_Some in F as (Hj & Hl & _). by apply (H (S j') d').
    + split; [| done]. intros _ [|k] r' Hr'; simpl in Hr'.
      * by injection Hr' as <-.
      * destruct IH as [IH _]. by apply (IH eq_refl k).
Qed.

(** Two tables with the same labels, row by row, have the same donors. *)
Lemma donor_idx_same_labels label (sub sub' : list Row) :
  length sub' = length sub ->
  (forall k r, sub !! k = Some r ->
     exists r', sub' !! k = Some r' /\ Label r' = Label r) ->
  donor_idx label sub' = donor_idx label sub.
Proof.
  intros Hlen Hrows. unfold donor_idx.
  assert (Hback : forall k r', sub' !! k = Some r' ->
            exists r, sub !! k = Some r /\ Label r' = Label r).
  { intros k r' Hk. destruct (sub !! k) as [r|] eqn:Hr.
    - destruct (Hrows k r Hr) as (r'' & Hr'' & Hl). exists r.
      split; [done |]. congruence.
    - apply lookup_ge_None in Hr. apply lookup_lt_Some in Hk. lia. }
  destruct (find_label label sub) as [[j d]|] eqn:F.
  - apply find_label_Some in F as (Hj & Hl & Hfirst).
    destruct (Hrows j d Hj) as (d' & Hd' & Hl').
    assert (F' : find_label label sub' = Some (j, d')).
    { apply find_label_Some. split_and!; [done | congruence |].
      intros k r' Hk Hr'. destruct (Hback k r' Hr') as (r & Hr & Hlr).
      rewrite Hlr. by apply (Hfirst k). }
    by rewrite F'.
  - assert (F' : find_label label sub' = None).
    { apply find_label_None. intros k r' Hr'.
      destruct (Hback k r' Hr') as (r & Hr & Hlr). rewrite Hlr.
      destruct (find_label_None label sub) as [H _]. by apply (H F k). }
    by rewrite F'.
Qed.

Lemma get_surplus_nonneg label sub : 0 <= get_surplus label sub.
Proof.
  unfold get_surplus. destruct (find_label label sub) as [[j d]|]; [| lra].
  apply py_max_0_nonneg.
Qed.

Lemma get_surplus_lookup label sub j d :
  donor_idx label sub = Some j -> sub !! j = Some d ->
  get_surplus label sub = py_max 0 (aci_acres d - masc_acres d).
Proof.
  unfold donor_idx, get_surplus. intros Hj Hd.
  destruct (find_label label sub) as [[j' d']|] eqn:F; [| done].
  simpl in Hj. injection Hj as ->.
  apply find_label_Some in F as (Hj' & _). congruence.
Qed.

Lemma get_surplus_no_donor label sub :
  donor_idx label sub = None -> get_surplus label sub = 0.
Proof.
  unfold donor_idx, get_surplus.
  by destruct (find_label label sub) as [[j' d']|].
Qed.

Lemma donor_idx_lookup label sub j :
  donor_idx label sub = Some j -> exists d, sub !! j = Some d /\ Label d = label.
Proof.
  unfold donor_idx. destruct (find_label label sub) as [[j' d']|] eqn:F; [| done].
  simpl. intros [= ->]. apply find_label_Some in F as (? & ? & _). eauto.
Qed.

Lemma take_fst label amount sub :
  0 < amount -> (take label amount sub).1 = py_min amount (get_surplus label sub).
Proof.
  intros Ha. unfold take, get_surplus.
  destruct (find_label label sub) as [[j d]|].
  - assert (Qle_bool amount 0 = false) as -> by (apply Qle_bool_false; lra).
    by destruct (Qltb 0 _).
  - simpl. unfold py_min.
    assert (Qltb 0 amount = true) as -> by (by apply Qltb_lt). done.
Qed.

Lemma take_snd label amount sub :
  0 < amount ->
  (take label amount sub).2 =
    match donor_idx label sub with
    | Some j =>
        let give := py_min amount (get_surplus label sub) in
        if Qltb 0 give
        then alter (fun r => set_aci (aci_acres r - give) r) j sub
        else sub
    | None => sub
    end.
Proof.
  intros Ha. unfold take, get_surplus, donor_idx.
  destruct (find_label label sub) as [[j d]|]; [| done]. simpl.
  assert (Qle_bool amount 0 = false) as -> by (apply Qle_bool_false; lra).
  by destruct (Qltb 0 _).
Qed.


(** *** One draw from one donor *)

Lemma gdraw_spec label bump prep do_prep i need t :
  0 < need ->
  let g := py_min need (get_surplus label t) in
  let out := gdraw label bump prep do_prep i need t in
  out.1 = (if Qltb 0 g then need - g else need) /\
  forall k, out.2 !! k =
            after_draw bump prep do_prep i (donor_idx label t) g k <$> t !! k.
Proof.
  intros Hneed g out. unfold out, gdraw.
  rewrite (surjective_pairing (take label need t)).
  rewrite take_fst, take_snd by done. fold g.
  unfold after_draw.
  destruct (Qltb 0 g) eqn:Hg; simpl.
  2:{ split; [done |]. intros k.
      destruct (donor_idx label t); by destruct (t !! k). }
  split; [done |]. intros k.
  rewrite list_lookup_alter.
  assert (Hinner : forall k',
    (if do_prep
     then map prep match donor_idx label t with
                   | Some j => alter (fun r => set_aci (aci_acres r - g) r) j t
                   | None => t
                   end
     else match donor_idx label t with
          | Some j => alter (fun r => set_aci (aci_acres r - g) r) j t
          | None => t
          end) !! k' =
    (fun r => let r1 := if decide (donor_idx label t = Some k')
                        then set_aci (aci_acres r - g) r else r in
              if do_prep then prep r1 else r1) <$> t !! k').
  { intros k'. destruct (donor_idx label t) as [j|].
    - destruct do_prep; [rewrite list_lookup_fmap |];
        rewrite list_lookup_alter; case_decide; subst;
        destruct (t !! k'); simpl; try done;
        case_decide; congruence.
    - destruct do_prep; [rewrite list_lookup_fmap |];
        destruct (t !! k'); simpl; try done; case_decide; congruence. }
  case_decide as Hki.
  - subst k. rewrite list_lookup_alter. rewrite decide_True by done.
    rewrite Hinner. destruct (t !! i); simpl; [| done].
    destruct (decide (i = i)); [done | congruence].
  - rewrite list_lookup_alter_ne by done. rewrite Hinner.
    destruct (t !! k); simpl; [| done].
    destruct (decide (k = i)); [congruence | done].
Qed.

(** The three draws are instances of the common shape. *)
Lemma draw_other_gdraw i need st :
  let g := (take OTHER need (sub st)).1 in
  let out := gdraw OTHER add_other id false i need (sub st) in
  draw_other i need st =
    (out.1, mkState out.2 (has_canola_col st)
              (if Qltb 0 g then available_other st - g else available_other st)
              (available_pasture st) (available_canola st)).
Proof.
  unfold draw_other, gdraw. destruct (take OTHER need (sub st)) as [g t1]. simpl.
  by destruct (Qltb 0 g).
Qed.

Lemma draw_pasture_gdraw i need st :
  0 < need ->
  let g := (take PASTURE need (sub st)).1 in
  let out := gdraw PASTURE add_pasture id false i need (sub st) in
  draw_pasture i need st =
    (out.1, mkState out.2 (has_canola_col st) (available_other st)
              (if Qltb 0 g then available_pasture st - g else available_pasture st)
              (available_canola st)).
Proof.
  intros Hn. apply Qltb_lt in Hn. unfold draw_pasture, gdraw. rewrite Hn.
  destruct (take PASTURE need (sub st)) as [g t1]. simpl.
  by destruct (Qltb 0 g).
Qed.

Lemma draw_canola_gdraw i need st :
  0 < need ->
  let g := (take CANOLA need (sub st)).1 in
  let out := gdraw CANOLA add_canola new_canola_col (negb (has_canola_col st))
                   i need (sub st) in
  draw_canola i need st =
    (out.1, mkState out.2 (if Qltb 0 g then true else has_canola_col st)
              (available_other st) (available_pasture st)
              (if Qltb 0 g then available_canola st - g else available_canola st)).
Proof.
  intros Hn. apply Qltb_lt in Hn. unfold draw_canola, gdraw. rewrite Hn.
  destruct (take CANOLA need (sub st)) as [g t1]. simpl.
  destruct (Qltb 0 g); [| done]. by destruct (has_canola_col st).
Qed.


Lemma py_min_not_pos need cap : need <= 0 -> Qltb 0 (py_min need cap) = false.
Proof. intros H. apply Qltb_ge. pose proof (py_min_le_l need cap). lra. Qed.

Lemma after_draw_not_pos bump prep do_prep i donor g k r :
  Qltb 0 g = false -> after_draw bump prep do_prep i donor g k r = r.
Proof. unfold after_draw. by intros ->. Qed.

Lemma draw_facts_idle label bump prep do_prep i need st :
  need <= 0 -> draw_facts label bump prep do_prep i need st (need, st).
Proof.
  intros H. unfold draw_facts. simpl.
  pose proof (py_min_not_pos need (get_surplus label (sub st)) H) as Hg.
  rewrite Hg. split; [done |]. intros k.
  destruct (sub st !! k); simpl; [| done].
  by rewrite after_draw_not_pos.
Qed.

Lemma draw_other_facts i need st :
  0 < need ->
  let g := py_min need (get_surplus OTHER (sub st)) in
  let out := draw_other i need st in
  draw_facts OTHER add_other id false i need st out /\
  has_canola_col out.2 = has_canola_col st /\
  available_other out.2 =
    (if Qltb 0 g then available_other st - g else available_other st) /\
  available_pasture out.2 = available_pasture st /\
  available_canola out.2 = available_canola st.
Proof.
  intros Hn. simpl. rewrite draw_other_gdraw. simpl.
  rewrite take_fst by done.
  split_and!; try done. apply gdraw_spec. done.
Qed.

Lemma draw_pasture_facts i need st :
  0 <= need ->
  let g := py_min need (get_surplus PASTURE (sub st)) in
  let out := draw_pasture i need st in
  draw_facts PASTURE add_pasture id false i need st out /\
  has_canola_col out.2 = has_canola_col st /\
  available_other out.2 = available_other st /\
  available_pasture out.2 =
    (if Qltb 0 g then available_pasture st - g else available_pasture st) /\
  available_canola out.2 = available_canola st.
Proof.
  intros Hn. simpl. destruct (Qltb 0 need) eqn:E.
  - apply Qltb_lt in E. rewrite draw_pasture_gdraw by done. simpl.
    rewrite take_fst by done.
    split_and!; try done. apply gdraw_spec. done.
  - apply Qltb_ge in E. unfold draw_pasture.
    assert (Qltb 0 need = false) as -> by (by apply Qltb_ge).
    rewrite py_min_not_pos by done.
    split_and!; try done. by apply draw_facts_idle.
Qed.

Lemma draw_canola_facts i need st :
  0 <= need ->
  let g := py_min need (get_surplus CANOLA (sub st)) in
  let out := draw_canola i need st in
  draw_facts CANOLA add_canola new_canola_col (negb (has_canola_col st))
             i need st out /\
  has_canola_col out.2 = (if Qltb 0 g then true else has_canola_col st) /\
  available_other out.2 = available_other st /\
  available_pasture out.2 = available_pasture st /\
  available_canola out.2 =
    (if Qltb 0 g then available_canola st - g else available_canola st).
Proof.
  intros Hn. simpl. destruct (Qltb 0 need) eqn:E.
  - apply Qltb_lt in E. rewrite draw_canola_gdraw by done. simpl.
    rewrite take_fst by done.
    split_and!; try done. apply gdraw_spec. done.
  - apply Qltb_ge in E. unfold draw_canola.
    assert (Qltb 0 need = false) as -> by (by apply Qltb_ge).
    rewrite py_min_not_pos by done.
    split_and!; try done. by apply draw_facts_idle.
Qed.

Lemma keeps_core_add_other g : keeps_core (add_other g).
Proof. by intros r. Qed.
Lemma keeps_core_add_pasture g : keeps_core (add_pasture g).
Proof. by intros r. Qed.
Lemma keeps_core_add_canola g : keeps_core (add_canola g).
Proof. by intros r. Qed.
Lemma keeps_core_new_canola_col : keeps_core new_canola_col.
Proof. by intros r. Qed.
Lemma keeps_core_id : keeps_core id.
Proof. by intros r. Qed.

Lemma after_draw_core bump prep do_prep i donor g k r :
  (forall g, keeps_core (bump g)) -> keeps_core prep -> 0 <= g ->
  let r' := after_draw bump prep do_prep i donor g k r in
  Label r' = Label r /\ masc_acres r' = masc_acres r /\
  aci_acres r' == aci_acres r + (if decide (k = i) then g else 0)
                             - (if decide (donor = Some k) then g else 0).
Proof.
  intros Hb Hp Hg r'. unfold r', after_draw. clear r'. cbv zeta.
  destruct (Qltb 0 g) eqn:E.
  2:{ apply Qltb_ge in E. split_and!; [done | done |].
      repeat case_decide; lra. }
  set (r1 := if decide (donor = Some k) then set_aci (aci_acres r - g) r else r).
  set (r2 := if do_prep then prep r1 else r1).
  assert (H1 : Label r1 = Label r /\ masc_acres r1 = masc_acres r /\
               aci_acres r1 == aci_acres r - (if decide (donor = Some k) then g else 0)).
  { unfold r1. case_decide; simpl; split_and!; try done; lra. }
  assert (H2 : Label r2 = Label r1 /\ masc_acres r2 = masc_acres r1 /\
               aci_acres r2 = aci_acres r1).
  { unfold r2. destruct do_prep; [apply Hp | done]. }
  destruct H1 as (? & ? & ?), H2 as (? & ? & Ha2).
  set (d := if decide (donor = Some k) then g else 0) in *.
  destruct (decide (k = i)).
  - destruct (Hb g (set_aci (aci_acres r2 + g) r2)) as (-> & -> & ->). simpl.
    split_and!; [congruence | congruence |]. rewrite Ha2. lra.
  - split_and!; [congruence | congruence |]. rewrite Ha2. lra.
Qed.

(** The summary of one draw of [g] for recipient [i], whose deficit is at
    least [need]: nothing is drawn beyond the donor's surplus or beyond the
    need, and only the sensed acres of donor and recipient move. *)
Lemma draw_facts_core label bump prep do_prep i need st out r :
  (forall g, keeps_core (bump g)) -> keeps_core prep ->
  draw_facts label bump prep do_prep i need st out ->
  sub st !! i = Some r ->
  0 <= need -> need <= masc_acres r - aci_acres r ->
  let g := py_min need (get_surplus label (sub st)) in
  0 <= g /\ g <= need /\ g <= get_surplus label (sub st) /\
  out.1 == need - g /\
  (donor_idx label (sub st) = Some i -> g == 0) /\
  length (sub out.2) = length (sub st) /\
  (forall k rk, sub st !! k = Some rk ->
     exists rk', sub out.2 !! k = Some rk' /\
       rk' = after_draw bump prep do_prep i (donor_idx label (sub st)) g k rk /\
       Label rk' = Label rk /\ masc_acres rk' = masc_acres rk /\
       aci_acres rk' == aci_acres rk + (if decide (k = i) then g else 0)
           - (if decide (donor_idx label (sub st) = Some k) then g else 0)).
Proof.
  intros Hb Hp [Hn Hrows] Hi Hneed Hdef g. fold g in Hn, Hrows.
  pose proof (get_surplus_nonneg label (sub st)) as Hcap.
  assert (Hg0 : 0 <= g).
  { unfold g. destruct (py_min_spec need (get_surplus label (sub st)))
      as [[? ->]|[? ->]]; lra. }
  assert (Hgn : g <= need) by apply py_min_le_l.
  assert (Hgc : g <= get_surplus label (sub st)) by apply py_min_le_r.
  split_and!; try done.
  - rewrite Hn. destruct (Qltb 0 g) eqn:E; [lra |]. apply Qltb_ge in E. lra.
  - intros Hd. rewrite (get_surplus_lookup _ _ _ _ Hd Hi) in Hgc.
    destruct (py_max_spec 0 (aci_acres r - masc_acres r)) as [[? Hm]|[? Hm]];
      rewrite Hm in Hgc; lra.
  - apply Nat.le_antisymm.
    + destruct (decide (length (sub out.2) <= length (sub st))%nat); [done |].
      destruct (lookup_lt_is_Some_2 (sub out.2) (length (sub st))) as [x Hx]; [lia |].
      rewrite Hrows in Hx. rewrite lookup_ge_None_2 in Hx; [done | lia].
    + destruct (decide (length (sub st) <= length (sub out.2))%nat); [done |].
      destruct (lookup_lt_is_Some_2 (sub st) (length (sub out.2))) as [x Hx]; [lia |].
      pose proof (Hrows (length (sub out.2))) as Hr. rewrite Hx in Hr.
      rewrite lookup_ge_None_2 in Hr; [done | lia].
  - intros k rk Hk. eexists. rewrite Hrows, Hk. simpl.
    split; [done |]. split; [done |].
    by apply after_draw_core.
Qed.


(** A draw from one donor leaves the surplus of every other donor as it
    was, and lowers the surplus of its own donor by what it gave. *)
Lemma get_surplus_other_label label label' bump prep do_prep i need st out r :
  (forall g, keeps_core (bump g)) -> keeps_core prep ->
  draw_facts label bump prep do_prep i need st out ->
  sub st !! i = Some r ->
  0 <= need -> need <= masc_acres r - aci_acres r ->
  label' <> label ->
  get_surplus label' (sub out.2) == get_surplus label' (sub st).
Proof.
  intros Hb Hp Hf Hi Hneed Hdef Hne.
  destruct (draw_facts_core _ _ _ _ _ _ _ _ _ Hb Hp Hf Hi Hneed Hdef)
    as (Hg0 & Hgn & Hgc & Hn & Hself & Hlen & Hrows).
  set (g := py_min need (get_surplus label (sub st))) in *.
  assert (Hd : donor_idx label' (sub out.2) = donor_idx label' (sub st)).
  { apply donor_idx_same_labels; [done |]. intros k rk Hk.
    destruct (Hrows k rk Hk) as (rk' & ? & _ & ? & _). eauto. }
  destruct (donor_idx label' (sub st)) as [j|] eqn:Hj.
  2:{ rewrite !get_surplus_no_donor by done. lra. }
  destruct (donor_idx_lookup _ _ _ Hj) as (d & Hd1 & Hd2).
  destruct (Hrows j d Hd1) as (d' & Hd1' & _ & _ & Hm & Ha).
  rewrite (get_surplus_lookup _ _ _ _ Hd Hd1').
  rewrite (get_surplus_lookup _ _ _ _ Hj Hd1).
  assert (Hnot : donor_idx label (sub st) <> Some j).
  { intros Hc. destruct (donor_idx_lookup _ _ _ Hc) as (d2 & Hd3 & Hd4).
    congruence. }
  destruct (decide (donor_idx label (sub st) = Some j)); [done |].
  destruct (decide (j = i)) as [->|Hji].
  - assert (d = r) as -> by congruence.
    destruct (py_max_spec 0 (aci_acres d' - masc_acres d')) as [[? ->]|[? ->]];
      destruct (py_max_spec 0 (aci_acres r - masc_acres r)) as [[? ->]|[? ->]];
      rewrite ?Hm in *; lra.
  - apply py_max_proper; [lra |]. rewrite Hm. lra.
Qed.

Lemma get_surplus_same_label label bump prep do_prep i need st out r :
  (forall g, keeps_core (bump g)) -> keeps_core prep ->
  draw_facts label bump prep do_prep i need st out ->
  sub st !! i = Some r ->
  0 <= need -> need <= masc_acres r - aci_acres r ->
  get_surplus label (sub out.2) ==
    get_surplus label (sub st) - py_min need (get_surplus label (sub st)).
Proof.
  intros Hb Hp Hf Hi Hneed Hdef.
  destruct (draw_facts_core _ _ _ _ _ _ _ _ _ Hb Hp Hf Hi Hneed Hdef)
    as (Hg0 & Hgn & Hgc & Hn & Hself & Hlen & Hrows).
  set (g := py_min need (get_surplus label (sub st))) in *.
  assert (Hd : donor_idx label (sub out.2) = donor_idx label (sub st)).
  { apply donor_idx_same_labels; [done |]. intros k rk Hk.
    destruct (Hrows k rk Hk) as (rk' & ? & _ & ? & _). eauto. }
  destruct (donor_idx label (sub st)) as [j|] eqn:Hj.
  2:{ rewrite !get_surplus_no_donor in * by done. lra. }
  destruct (donor_idx_lookup _ _ _ Hj) as (d & Hd1 & Hd2).
  destruct (Hrows j d Hd1) as (d' & Hd1' & _ & _ & Hm & Ha).
  rewrite (get_surplus_lookup _ _ _ _ Hd Hd1').
  rewrite (get_surplus_lookup _ _ _ _ Hj Hd1) in *.
  destruct (decide (Some j = Some j)); [| done].
  assert (Hzero : j = i -> g == 0) by (intros ->; by apply Hself).
  destruct (py_max_spec 0 (aci_acres d' - masc_acres d')) as [[? ->]|[? ->]];
    destruct (py_max_spec 0 (aci_acres d - masc_acres d)) as [[? Hx]|[? Hx]];
    rewrite Hx in *; rewrite ?Hm in *;
    destruct (decide (j = i)) as [Hji|Hji];
    try (specialize (Hzero Hji)); lra.
Qed.

(** The bookkeeping columns after each kind of draw. *)
Lemma after_draw_other_cols i donor g k r :
  0 <= g ->
  let r' := after_draw add_other id false i donor g k r in
  taken_from_other r' == taken_from_other r + (if decide (k = i) then g else 0) /\
  taken_from_pasture r' = taken_from_pasture r /\
  taken_from_canola r' = taken_from_canola r.
Proof.
  intros Hg r'. unfold r', after_draw. clear r'. cbv zeta.
  destruct (Qltb 0 g) eqn:E.
  - destruct (decide (donor = Some k)), (decide (k = i)); simpl;
      split_and!; try done; lra.
  - apply Qltb_ge in E. split_and!; try done. case_decide; lra.
Qed.

Lemma after_draw_pasture_cols i donor g k r :
  0 <= g ->
  let r' := after_draw add_pasture id false i donor g k r in
  taken_from_other r' = taken_from_other r /\
  taken_from_pasture r' == taken_from_pasture r + (if decide (k = i) then g else 0) /\
  taken_from_canola r' = taken_from_canola r.
Proof.
  intros Hg r'. unfold r', after_draw. clear r'. cbv zeta.
  destruct (Qltb 0 g) eqn:E.
  - destruct (decide (donor = Some k)), (decide (k = i)); simpl;
      split_and!; try done; lra.
  - apply Qltb_ge in E. split_and!; try done. case_decide; lra.
Qed.

Lemma after_draw_canola_cols has_col i donor g r :
  let r' := after_draw add_canola new_canola_col (negb has_col) i donor g i r in
  taken_from_other r' = taken_from_other r /\
  taken_from_pasture r' = taken_from_pasture r /\
  (0 < g -> taken_from_canola r' =
            Some ((if has_col then default 0 (taken_from_canola r) else 0) + g)) /\
  (g <= 0 -> taken_from_canola r' = taken_from_canola r).
Proof.
  intros r'. unfold r', after_draw. clear r'. cbv zeta.
  destruct (Qltb 0 g) eqn:E.
  - apply Qltb_lt in E.
    destruct (decide (donor = Some i)), (decide (i = i)), has_col; simpl;
      split_and!; try done; intros; lra.
  - apply Qltb_ge in E. split_and!; try done. intros. lra.
Qed.


Lemma if_decide_same {A} (i : nat) (x y : A) :
  (if decide (i = i) then x else y) = x.
Proof. by destruct (decide (i = i)). Qed.

Lemma if_decide_other {A} (k i : nat) (x y : A) :
  k <> i -> (if decide (k = i) then x else y) = y.
Proof. intros. by destruct (decide (k = i)). Qed.

(** *** One recipient: the three donors in their fixed order *)

(** The three stages of [topup_row] for a recipient in deficit, with what
    each stage knows about the recipient's row. *)
Lemma topup_row_stages i st r :
  sub st !! i = Some r ->
  0 < masc_acres r - aci_acres r ->
  let need := masc_acres r - aci_acres r in
  let o1 := draw_other i need st in
  let o2 := draw_pasture i o1.1 o1.2 in
  let o3 := draw_canola i o2.1 o2.2 in
  topup_row i st = o3.2 /\
  (exists r1, sub o1.2 !! i = Some r1 /\
     0 <= o1.1 /\ o1.1 <= masc_acres r1 - aci_acres r1) /\
  (exists r2, sub o2.2 !! i = Some r2 /\
     0 <= o2.1 /\ o2.1 <= masc_acres r2 - aci_acres r2).
Proof.
  intros Hi Hdef need o1 o2 o3.
  assert (Hneed : 0 <= need) by (unfold need; lra).
  destruct (draw_other_facts i need st Hdef) as (F1 & _).
  fold o1 in F1.
  destruct (draw_facts_core _ _ _ _ _ _ _ _ _ keeps_core_add_other keeps_core_id
              F1 Hi Hneed ltac:(unfold need; lra))
    as (Hg0 & Hgn & Hgc & Hn & Hself & Hlen & Hrows).
  destruct (Hrows i r Hi) as (r1 & Hr1 & _ & _ & Hm1 & Ha1).
  rewrite if_decide_same in Ha1.
  assert (Hz1 : (if decide (donor_idx OTHER (sub st) = Some i)
                 then py_min need (get_surplus OTHER (sub st)) else 0) == 0).
  { destruct (decide (donor_idx OTHER (sub st) = Some i)); [by apply Hself | lra]. }
  assert (Hn1 : 0 <= o1.1 /\ o1.1 <= masc_acres r1 - aci_acres r1).
  { rewrite Hm1. fold need in Hn, Ha1, Hz1. unfold need in *. split; lra. }
  destruct Hn1 as [Hn1a Hn1b].
  destruct (draw_pasture_facts i o1.1 o1.2 Hn1a) as (F2 & _).
  fold o2 in F2.
  destruct (draw_facts_core _ _ _ _ _ _ _ _ _ keeps_core_add_pasture keeps_core_id
              F2 Hr1 Hn1a Hn1b)
    as (Hg0' & Hgn' & Hgc' & Hn' & Hself' & Hlen' & Hrows').
  destruct (Hrows' i r1 Hr1) as (r2 & Hr2 & _ & _ & Hm2 & Ha2).
  rewrite if_decide_same in Ha2.
  assert (Hz2 : (if decide (donor_idx PASTURE (sub o1.2) = Some i)
                 then py_min o1.1 (get_surplus PASTURE (sub o1.2)) else 0) == 0).
  { destruct (decide (donor_idx PASTURE (sub o1.2) = Some i)); [by apply Hself' | lra]. }
  split_and!.
  - unfold topup_row. rewrite Hi. fold need.
    assert (Qle_bool need 0 = false) as -> by (by apply Qle_bool_false).
    fold o1. rewrite (surjective_pairing o1). fold o2.
    by rewrite (surjective_pairing o2).
  - exists r1. done.
  - exists r2. split_and!; [done | lra |]. rewrite Hm2. lra.
Qed.


Lemma topup_row_summary i st r :
  sub st !! i = Some r ->
  0 < masc_acres r - aci_acres r ->
  let need := masc_acres r - aci_acres r in
  let g1 := py_min need (get_surplus OTHER (sub st)) in
  let g2 := py_min (need - g1) (get_surplus PASTURE (sub st)) in
  let g3 := py_min (need - g1 - g2) (get_surplus CANOLA (sub st)) in
  let out := topup_row i st in
  (0 <= g1 /\ g1 <= get_surplus OTHER (sub st)) /\
  (0 <= g2 /\ g2 <= get_surplus PASTURE (sub st)) /\
  (0 <= g3 /\ g3 <= get_surplus CANOLA (sub st)) /\
  (exists r', sub out !! i = Some r' /\
     Label r' = Label r /\ masc_acres r' = masc_acres r /\
     aci_acres r' == aci_acres r + g1 + g2 + g3 /\
     taken_from_other r' == taken_from_other r + g1 /\
     taken_from_pasture r' == taken_from_pasture r + g2 /\
     (0 < g3 -> exists v, taken_from_canola r' = Some v /\
                          v == canola_base st r + g3) /\
     (g3 <= 0 -> taken_from_canola r' = taken_from_canola r)) /\
  (forall k rk, k <> i -> sub st !! k = Some rk ->
     exists rk', sub out !! k = Some rk' /\
       Label rk' = Label rk /\ masc_acres rk' = masc_acres rk /\
       aci_acres rk' == aci_acres rk
         - (if decide (donor_idx OTHER (sub st) = Some k) then g1 else 0)
         - (if decide (donor_idx PASTURE (sub st) = Some k) then g2 else 0)
         - (if decide (donor_idx CANOLA (sub st) = Some k) then g3 else 0)) /\
  (get_surplus OTHER (sub out) == get_surplus OTHER (sub st) - g1 /\
   get_surplus PASTURE (sub out) == get_surplus PASTURE (sub st) - g2 /\
   get_surplus CANOLA (sub out) == get_surplus CANOLA (sub st) - g3) /\
  (available_other out == available_other st - g1 /\
   available_pasture out == available_pasture st - g2 /\
   available_canola out == available_canola st - g3) /\
  g1 + g2 + g3 <= need /\
  length (sub out) = length (sub st).
Proof.
  intros Hi Hdef need g1 g2 g3 out.
  destruct (topup_row_stages i st r Hi Hdef)
    as (Hout & (r1 & Hr1 & Hn1a & Hn1b) & (r2 & Hr2 & Hn2a & Hn2b)).
  fold need in Hout, Hr1, Hn1a, Hn1b, Hr2, Hn2a, Hn2b.
  set (o1 := draw_other i need st) in *.
  set (o2 := draw_pasture i o1.1 o1.2) in *.
  set (o3 := draw_canola i o2.1 o2.2) in *.
  assert (Hneed : 0 <= need) by (unfold need; lra).
  assert (Hneed' : need <= masc_acres r - aci_acres r) by (unfold need; lra).
  (* first draw *)
  destruct (draw_other_facts i need st Hdef) as (F1 & Hc1 & Ao1 & Ap1 & Ac1).
  fold o1 g1 in F1, Hc1, Ao1, Ap1, Ac1.
  destruct (draw_facts_core _ _ _ _ _ _ _ _ _ keeps_core_add_other keeps_core_id
              F1 Hi Hneed Hneed')
    as (Hg1a & Hg1b & Hg1c & Hn1 & Hself1 & Hlen1 & Hrows1).
  fold g1 in Hg1a, Hg1b, Hg1c, Hn1, Hself1, Hrows1.
  assert (Hd1 : forall l, donor_idx l (sub o1.2) = donor_idx l (sub st)).
  { intros l. apply donor_idx_same_labels; [done |]. intros k rk Hk.
    destruct (Hrows1 k rk Hk) as (rk' & ? & _ & ? & _). eauto. }
  (* second draw *)
  destruct (draw_pasture_facts i o1.1 o1.2 Hn1a) as (F2 & Hc2 & Ao2 & Ap2 & Ac2).
  fold o2 in F2, Hc2, Ao2, Ap2, Ac2.
  destruct (draw_facts_core _ _ _ _ _ _ _ _ _ keeps_core_add_pasture keeps_core_id
              F2 Hr1 Hn1a Hn1b)
    as (Hg2a & Hg2b & Hg2c & Hn2 & Hself2 & Hlen2 & Hrows2).
  set (g2a := py_min o1.1 (get_surplus PASTURE (sub o1.2))) in *.
  assert (Hcap2 : get_surplus PASTURE (sub o1.2) == get_surplus PASTURE (sub st)).
  { eapply get_surplus_other_label;
      [apply keeps_core_add_other | apply keeps_core_id | exact F1 | exact Hi
      | exact Hneed | exact Hneed' | done]. }
  assert (Hg2 : g2a == g2) by (apply py_min_proper; [lra | done]).
  assert (Hd2 : forall l, donor_idx l (sub o2.2) = donor_idx l (sub st)).
  { intros l. rewrite <- Hd1. apply donor_idx_same_labels; [done |]. intros k rk Hk.
    destruct (Hrows2 k rk Hk) as (rk' & ? & _ & ? & _). eauto. }
  (* third draw *)
  destruct (draw_canola_facts i o2.1 o2.2 Hn2a) as (F3 & _ & Ao3 & Ap3 & Ac3).
  fold o3 in F3, Ao3, Ap3, Ac3.
  destruct (draw_facts_core _ _ _ _ _ _ _ _ _ keeps_core_add_canola
              keeps_core_new_canola_col F3 Hr2 Hn2a Hn2b)
    as (Hg3a & Hg3b & Hg3c & Hn3 & Hself3 & Hlen3 & Hrows3).
  set (g3a := py_min o2.1 (get_surplus CANOLA (sub o2.2))) in *.
  assert (Hcap3 : get_surplus CANOLA (sub o2.2) == get_surplus CANOLA (sub st)).
  { transitivity (get_surplus CANOLA (sub o1.2)).
    - eapply get_surplus_other_label;
        [apply keeps_core_add_pasture | apply keeps_core_id | exact F2 | exact Hr1
        | exact Hn1a | exact Hn1b | done].
    - eapply get_surplus_other_label;
        [apply keeps_core_add_other | apply keeps_core_id | exact F1 | exact Hi
        | exact Hneed | exact Hneed' | done]. }
  assert (Hg3 : g3a == g3) by (apply py_min_proper; [lra | done]).
  unfold out. rewrite Hout.
  split_and!; try lra.
  - (* the recipient's row *)
    destruct (Hrows1 i r Hi) as (r1' & Hr1' & He1 & Hl1 & Hm1 & Ha1).
    assert (r1' = r1) as -> by congruence.
    destruct (Hrows2 i r1 Hr1) as (r2' & Hr2' & He2 & Hl2 & Hm2 & Ha2).
    assert (r2' = r2) as -> by congruence.
    destruct (Hrows3 i r2 Hr2) as (r3 & Hr3 & He3 & Hl3 & Hm3 & Ha3).
    rewrite Hd1 in Ha2, Hself2. rewrite Hd2 in Ha3, Hself3.
    rewrite if_decide_same in Ha1, Ha2, Ha3.
    assert (Hz1 : (if decide (donor_idx OTHER (sub st) = Some i) then g1 else 0) == 0).
    { destruct (decide (donor_idx OTHER (sub st) = Some i)); [by apply Hself1 | lra]. }
    assert (Hz2 : (if decide (donor_idx PASTURE (sub st) = Some i) then g2a else 0) == 0).
    { destruct (decide (donor_idx PASTURE (sub st) = Some i)); [by apply Hself2 | lra]. }
    assert (Hz3 : (if decide (donor_idx CANOLA (sub st) = Some i) then g3a else 0) == 0).
    { destruct (decide (donor_idx CANOLA (sub st) = Some i)); [by apply Hself3 | lra]. }
    pose proof (after_draw_other_cols i (donor_idx OTHER (sub st)) g1 i r Hg1a)
      as (Co1 & Co2 & Co3).
    rewrite <- He1 in Co1, Co2, Co3.
    pose proof (after_draw_pasture_cols i (donor_idx PASTURE (sub o1.2)) g2a i r1 Hg2a)
      as (Cp1 & Cp2 & Cp3).
    rewrite <- He2 in Cp1, Cp2, Cp3.
    pose proof (after_draw_canola_cols (has_canola_col o2.2) i
                  (donor_idx CANOLA (sub o2.2)) g3a r2) as (Cc1 & Cc2 & Cc3 & Cc4).
    rewrite <- He3 in Cc1, Cc2, Cc3, Cc4.
    rewrite if_decide_same in Co1, Cp2.
    exists r3. split_and!.
    + done.
    + congruence.
    + congruence.
    + rewrite Ha3, Ha2, Ha1. lra.
    + rewrite Cc1, Cp1, Co1. lra.
    + rewrite Cc2, Cp2, Co2. lra.
    + intros Hpos. eexists. split; [apply Cc3; lra |].
      unfold canola_base. rewrite Hc2, Hc1, Cp3, Co3.
      destruct (has_canola_col st); lra.
    + intros Hle. rewrite Cc4 by lra. congruence.
  - (* every other row *)
    intros k rk Hki Hk.
    destruct (Hrows1 k rk Hk) as (rk1 & Hrk1 & _ & Hl1 & Hm1 & Ha1).
    destruct (Hrows2 k rk1 Hrk1) as (rk2 & Hrk2 & _ & Hl2 & Hm2 & Ha2).
    destruct (Hrows3 k rk2 Hrk2) as (rk3 & Hrk3 & _ & Hl3 & Hm3 & Ha3).
    rewrite Hd1 in Ha2. rewrite Hd2 in Ha3.
    rewrite if_decide_other in Ha1, Ha2, Ha3 by done.
    exists rk3. split_and!; [done | congruence | congruence |].
    rewrite Ha3, Ha2, Ha1.
    destruct (decide (donor_idx OTHER (sub st) = Some k)),
             (decide (donor_idx PASTURE (sub st) = Some k)),
             (decide (donor_idx CANOLA (sub st) = Some k)); lra.
  - (* surplus of Other *)
    rewrite (get_surplus_other_label CANOLA OTHER _ _ _ _ _ _ _ _
               keeps_core_add_canola keeps_core_new_canola_col F3 Hr2 Hn2a Hn2b)
      by done.
    rewrite (get_surplus_other_label PASTURE OTHER _ _ _ _ _ _ _ _
               keeps_core_add_pasture keeps_core_id F2 Hr1 Hn1a Hn1b) by done.
    apply (get_surplus_same_label OTHER _ _ _ _ _ _ _ _
             keeps_core_add_other keeps_core_id F1 Hi Hneed Hneed').
  - (* surplus of Pasture *)
    rewrite (get_surplus_other_label CANOLA PASTURE _ _ _ _ _ _ _ _
               keeps_core_add_canola keeps_core_new_canola_col F3 Hr2 Hn2a Hn2b)
      by done.
    rewrite (get_surplus_same_label PASTURE _ _ _ _ _ _ _ _
               keeps_core_add_pasture keeps_core_id F2 Hr1 Hn1a Hn1b).
    fold g2a. lra.
  - (* surplus of Canola *)
    rewrite (get_surplus_same_label CANOLA _ _ _ _ _ _ _ _
               keeps_core_add_canola keeps_core_new_canola_col F3 Hr2 Hn2a Hn2b).
    fold g3a. lra.
  - rewrite Ao3, Ao2, Ao1. destruct (Qltb 0 g1) eqn:E; [lra |].
    apply Qltb_ge in E. lra.
  - rewrite Ap3, Ap2, Ap1. fold g2a. destruct (Qltb 0 g2a) eqn:E; [lra |].
    apply Qltb_ge in E. lra.
  - rewrite Ac3, Ac2, Ac1. fold g3a. destruct (Qltb 0 g3a) eqn:E; [lra |].
    apply Qltb_ge in E. lra.
  - congruence.
Qed.

(** *** The whole loop of one region *)

Lemma donor_idx_label_unique l1 l2 sub k :
  donor_idx l1 sub = Some k -> donor_idx l2 sub = Some k -> l1 = l2.
Proof.
  intros H1 H2.
  destruct (donor_idx_lookup _ _ _ H1) as (d1 & Hd1 & <-).
  destruct (donor_idx_lookup _ _ _ H2) as (d2 & Hd2 & <-). congruence.
Qed.

Lemma capped_init sub0 : capped sub0 (init_state sub0).
Proof.
  unfold capped, init_state. simpl. split_and!; try reflexivity.
  intros k r0 Hk. exists r0. split_and!; try done; intros; lra.
Qed.

Lemma capped_topup_row sub0 i st : capped sub0 st -> capped sub0 (topup_row i st).
Proof.
  intros (Hlen & Hrows & Ho & Hp & Hc).
  destruct (sub st !! i) as [r|] eqn:Hi.
  2:{ unfold topup_row. rewrite Hi. done. }
  destruct (Qle_bool (masc_acres r - aci_acres r) 0) eqn:Hneed.
  { unfold topup_row. rewrite Hi, Hneed. done. }
  apply Qle_bool_false in Hneed.
  destruct (topup_row_summary i st r Hi Hneed)
    as (G1 & G2 & G3 & (r' & Hr' & Hl' & Hm' & Ha' & _) & Hothers
        & (So & Sp & Sc) & (Ao & Ap & Ac) & Hsum & Hlen').
  set (g1 := py_min (masc_acres r - aci_acres r) (get_surplus OTHER (sub st))) in *.
  set (g2 := py_min (masc_acres r - aci_acres r - g1)
                    (get_surplus PASTURE (sub st))) in *.
  set (g3 := py_min (masc_acres r - aci_acres r - g1 - g2)
                    (get_surplus CANOLA (sub st))) in *.
  split_and!; [congruence | | lra | lra | lra].
  intros k r0 Hk. destruct (Hrows k r0 Hk) as (rk & Hrk & Hl & Hm & Hhi & Hlo).
  destruct (decide (k = i)) as [->|Hki].
  - assert (rk = r) as -> by congruence.
    exists r'. split_and!; [done | congruence | congruence | |].
    + intros Hge. destruct (Hhi Hge). rewrite <- Hm in *. lra.
    + intros Hlt. destruct (Hlo Hlt). rewrite <- Hm in *. lra.
  - destruct (Hothers k rk Hki Hrk) as (rk' & Hrk' & Hlk & Hmk & Hak).
    exists rk'. split_and!; [done | congruence | congruence | |].
    all: intros Hcase; first [destruct (Hhi Hcase) | destruct (Hlo Hcase)].
    all: rewrite <- Hm in *.
    all: destruct (decide (donor_idx OTHER (sub st) = Some k)) as [D1|D1];
      destruct (decide (donor_idx PASTURE (sub st) = Some k)) as [D2|D2];
      destruct (decide (donor_idx CANOLA (sub st) = Some k)) as [D3|D3];
      try (by pose proof (donor_idx_label_unique _ _ _ _ D1 D2));
      try (by pose proof (donor_idx_label_unique _ _ _ _ D1 D3));
      try (by pose proof (donor_idx_label_unique _ _ _ _ D2 D3));
      try rewrite (get_surplus_lookup _ _ _ _ D1 Hrk) in G1;
      try rewrite (get_surplus_lookup _ _ _ _ D2 Hrk) in G2;
      try rewrite (get_surplus_lookup _ _ _ _ D3 Hrk) in G3;
      destruct (py_max_spec 0 (aci_acres rk - masc_acres rk)) as [[? Hx]|[? Hx]];
      rewrite ?Hx in *; lra.
Qed.

Lemma capped_foldl sub0 l : forall st,
  capped sub0 st -> capped sub0 (foldl (fun st i => topup_row i st) st l).
Proof.
  induction l as [|i l IH]; intros st Hst; simpl; [done |].
  apply IH. by apply capped_topup_row.
Qed.

Lemma capped_topup_rm sub0 : capped sub0 (topup_rm sub0).
Proof. apply capped_foldl, capped_init. Qed.

(** The donors of a region after its loop: what was drawn from each pool
    in total is what its balance went down by, and lies between zero and
    the surplus the donor started with. *)
Lemma topup_rm_pools sub0 :
  let st := topup_rm sub0 in
  (0 <= get_surplus OTHER sub0 - available_other st /\
   get_surplus OTHER sub0 - available_other st <= get_surplus OTHER sub0) /\
  (0 <= get_surplus PASTURE sub0 - available_pasture st /\
   get_surplus PASTURE sub0 - available_pasture st <= get_surplus PASTURE sub0) /\
  (0 <= get_surplus CANOLA sub0 - available_canola st /\
   get_surplus CANOLA sub0 - available_canola st <= get_surplus CANOLA sub0).
Proof.
  intros st. destruct (capped_topup_rm sub0) as (Hlen & Hrows & Ho & Hp & Hc).
  fold st in Hlen, Hrows, Ho, Hp, Hc.
  assert (Hle : forall l, get_surplus l (sub st) <= get_surplus l sub0).
  { intros l.
    assert (Hd : donor_idx l (sub st) = donor_idx l sub0).
    { apply donor_idx_same_labels; [done |]. intros k r0 Hk.
      destruct (Hrows k r0 Hk) as (r & ? & ? & _). eauto. }
    destruct (donor_idx l sub0) as [j|] eqn:Hj.
    2:{ rewrite !get_surplus_no_donor by done. lra. }
    destruct (donor_idx_lookup _ _ _ Hj) as (d0 & Hd0 & _).
    destruct (Hrows j d0 Hd0) as (d & Hd1 & _ & Hm & Hhi & Hlo).
    rewrite (get_surplus_lookup _ _ _ _ Hd Hd1).
    rewrite (get_surplus_lookup _ _ _ _ Hj Hd0). rewrite Hm.
    destruct (py_max_spec 0 (aci_acres d - masc_acres d0)) as [[? ->]|[? ->]];
      destruct (py_max_spec 0 (aci_acres d0 - masc_acres d0)) as [[? ->]|[? ->]];
      destruct (Qlt_le_dec (aci_acres d0) (masc_acres d0)) as [Hc0|Hc0];
      first [destruct (Hlo Hc0) | destruct (Hhi Hc0)]; lra. }
  pose proof (Hle OTHER). pose proof (Hle PASTURE). pose proof (Hle CANOLA).
  pose proof (get_surplus_nonneg OTHER (sub st)).
  pose proof (get_surplus_nonneg PASTURE (sub st)).
  pose proof (get_surplus_nonneg CANOLA (sub st)).
  split_and!; lra.
Qed.

Lemma topup_rm_rows sub0 k r0 :
  sub0 !! k = Some r0 ->
  exists r, sub (topup_rm sub0) !! k = Some r /\
    masc_acres r = masc_acres r0 /\
    aci_acres r0 - aci_acres r <= py_max 0 (aci_acres r0 - masc_acres r0) /\
    (masc_acres r0 <= aci_acres r0 -> masc_acres r0 <= aci_acres r).
Proof.
  intros Hk. destruct (capped_topup_rm sub0) as (_ & Hrows & _).
  destruct (Hrows k r0 Hk) as (r & Hr & _ & Hm & Hhi & Hlo).
  exists r. split_and!; [done | done | | intros H; by apply Hhi].
  destruct (py_max_spec 0 (aci_acres r0 - masc_acres r0)) as [[? ->]|[? ->]];
    destruct (Qlt_le_dec (aci_acres r0) (masc_acres r0)) as [Hc0|Hc0];
    first [destruct (Hlo Hc0) | destruct (Hhi Hc0)]; lra.
Qed.

End TopUpFacts.

(** ** Donor capping over exact rationals *)

Module DonorCapping.

Import Num NumFacts.
Local Open Scope Q_scope.

(** Computed over exact rationals, the two passes do cap their donors.
    In the regional surplus-to-deficit transfer, the sensed acres taken
    from a row of the table that enters the transfer (the table after the
    zeroing pass) never exceed [max(0, sensed - ground truth)], and a row
    that entered at or above its ground truth leaves at or above it.  In
    the donor top-up, what is drawn in total from each of the three pools
    lies between zero and the surplus [max(0, aci_acres - masc_acres)] the
    donor started with, what any row loses never exceeds that same bound
    for the row, and a row that started at or above its target ends at or
    above it.  The regional table is taken as [preprocess_data] builds it,
    with [acres_diff = acres_aci - acres_masc].  What double precision
    makes of this is in [Float64Facts]. *)
Lemma capping_in_exact_arithmetic (rm_df0 : list Reconciler.Row)
    (sub0 : list TopUp.Row) :
  Forall (fun r => Reconciler.acres_diff r ==
                   Reconciler.acres_aci r - Reconciler.acres_masc r) rm_df0 ->
  (forall k r, rm_df0 !! k = Some r ->
     let z := Reconciler.zero_case1 r in
     exists r', Reconciler.reallocate_rm rm_df0 !! k = Some r' /\
       Reconciler.acres_masc r' = Reconciler.acres_masc z /\
       Reconciler.acres_aci z - Reconciler.acres_aci r'
         <= py_max 0 (Reconciler.acres_aci z - Reconciler.acres_masc z) /\
       (Reconciler.acres_masc z <= Reconciler.acres_aci z ->
          Reconciler.acres_masc z <= Reconciler.acres_aci r')) /\
  (let st := TopUp.topup_rm sub0 in
   (0 <= TopUp.get_surplus TopUp.OTHER sub0 - TopUp.available_other st /\
    TopUp.get_surplus TopUp.OTHER sub0 - TopUp.available_other st
      <= TopUp.get_surplus TopUp.OTHER sub0) /\
   (0 <= TopUp.get_surplus TopUp.PASTURE sub0 - TopUp.available_pasture st /\
    TopUp.get_surplus TopUp.PASTURE sub0 - TopUp.available_pasture st
      <= TopUp.get_surplus TopUp.PASTURE sub0) /\
   (0 <= TopUp.get_surplus TopUp.CANOLA sub0 - TopUp.available_canola st /\
    TopUp.get_surplus TopUp.CANOLA sub0 - TopUp.available_canola st
      <= TopUp.get_surplus TopUp.CANOLA sub0) /\
   (forall k r0, sub0 !! k = Some r0 ->
      exists r, TopUp.sub st !! k = Some r /\
        TopUp.masc_acres r = TopUp.masc_acres r0 /\
        TopUp.aci_acres r0 - TopUp.aci_acres r
          <= py_max 0 (TopUp.aci_acres r0 - TopUp.masc_acres r0) /\
        (TopUp.masc_acres r0 <= TopUp.aci_acres r0 ->
           TopUp.masc_acres r0 <= TopUp.aci_acres r))).
Proof.
  intros Hdiff. split.
  - intros k r Hk z.
    destruct (ReconcilerFacts.reallocate_rm_transfers rm_df0 Hdiff k r Hk)
      as (r' & Hr' & Hm & Hs & Hn).
    fold z in Hs, Hn.
    assert (Hz : Reconciler.acres_masc z = Reconciler.acres_masc r)
      by apply ReconcilerFacts.acres_masc_zero_case1.
    exists r'. rewrite Hz. split_and!; [done | done | |].
    + destruct (py_max_spec 0 (Reconciler.acres_aci z - Reconciler.acres_masc r))
        as [[? ->]|[? ->]];
        destruct (Reconciler.is_surplus z) eqn:E;
        first [destruct (Hs eq_refl) | pose proof (Hn eq_refl)]; lra.
    + intros Hge. destruct (Reconciler.is_surplus z) eqn:E.
      * by destruct (Hs eq_refl).
      * pose proof (Hn eq_refl). apply Qltb_ge in E. lra.
  - intros st.
    destruct (TopUpFacts.topup_rm_pools sub0) as (Ho & Hp & Hc).
    split_and!; try apply Ho; try apply Hp; try apply Hc.
    intros k r0 Hk. by apply TopUpFacts.topup_rm_rows.
Qed.

End DonorCapping.

(** ** Donor capping in double precision *)

Module Float64Facts.

Local Open Scope float_scope.

(** C3.  In the arithmetic the scripts run, a donor can end below its
    target.  A donor of three pixels, 0.6671845303570222 acres, with a
    target of 0.1 acres has a computed surplus of 0.5671845303570222
    acres; a row that needs more than that takes all of it, and the
    donor is left with 0.09999999999999998 acres, less than its target of
    0.1.  This happens in the regional transfer of [reallocate_acres]
    and in the donor top-up alike. *)
Theorem donor_ends_below_target :
  map Reconciler64.acres_diff Reconciler64.short_region
    = [-1; 0.5671845303570222] /\
  map Reconciler64.acres_aci
      (Reconciler64.reallocate_acres Reconciler64.short_region)
    = [0.5671845303570222; 0.09999999999999998] /\
  map Reconciler64.acres_masc
      (Reconciler64.reallocate_acres Reconciler64.short_region)
    = [1; 0.1] /\
  TopUp64.get_surplus TopUp64.OTHER (map TopUp64.init_row TopUp64.short_region)
    = 0.5671845303570222 /\
  map TopUp64.aci_acres (TopUp64.topup TopUp64.short_region)
    = [0.5671845303570222; 0.09999999999999998] /\
  map TopUp64.masc_acres (TopUp64.topup TopUp64.short_region)
    = [1; 0.1] /\
  PrimFloat.ltb 0.09999999999999998 0.1 = true.
Proof. vm_compute. by repeat split. Qed.

End Float64Facts.

(** ** More on the donor top-up *)

Module TopUpMore.

Import Num NumFacts TopUp TopUpFacts.
Local Open Scope Q_scope.

(** X7.  In the top-up of a region every row keeps its label and its
    target; a row that starts at or above its target never gains acres,
    and a row that starts below its target and is none of the three donor
    labels never loses acres. *)
Theorem rows_move_one_way sub0 k r0 :
  sub0 !! k = Some r0 ->
  exists r, sub (topup_rm sub0) !! k = Some r /\
    Label r = Label r0 /\ masc_acres r = masc_acres r0 /\
    (masc_acres r0 <= aci_acres r0 -> aci_acres r <= aci_acres r0) /\
    (aci_acres r0 < masc_acres r0 -> Label r0 ∉ [OTHER; PASTURE; CANOLA] ->
       aci_acres r0 <= aci_acres r).
Proof.
  intros Hk. destruct (capped_topup_rm sub0) as (_ & Hrows & _).
  destruct (Hrows k r0 Hk) as (r & Hr & Hl & Hm & Hhi & Hlo).
  exists r. split_and!; [done | done | done | |].
  - intros H. by destruct (Hhi H).
  - intros H _. by destruct (Hlo H).
Qed.

Lemma rows_move_one_way_witness :
  exists r,
    sub (topup_rm [ mkRow "R" "Oats" 10 50 10 0 0 None;
                    mkRow "R" "Other crops" 30 10 30 0 0 None ])
      !! 1%nat = Some r /\
    Label r = "Other crops"%string /\ masc_acres r = 10 /\ aci_acres r <= 30.
Proof.
  destruct (rows_move_one_way
              [ mkRow "R" "Oats" 10 50 10 0 0 None;
                mkRow "R" "Other crops" 30 10 30 0 0 None ]
              1%nat (mkRow "R" "Other crops" 30 10 30 0 0 None) eq_refl)
    as (r & Hr & Hl & Hm & Hhi & _).
  exists r. split_and!; [exact Hr | exact Hl | exact Hm |].
  apply Hhi. simpl. lra.
Defined.

(** *** Every recipient has its turn *)








End TopUpMore.

(** ** The Sub-Region Distributor *)

Module DistributorFacts.

Import Num NumFacts Distributor.
Local Open Scope Q_scope.

Lemma key_eqb_eq k1 k2 : key_eqb k1 k2 = true <-> k1 = k2.
Proof.
  destruct k1 as [a b], k2 as [c d]. unfold key_eqb. simpl.
  rewrite andb_true_iff, !String.eqb_eq. split; [by intros [-> ->] | by intros [= -> ->]].
Qed.

Lemma key_eqb_refl k : key_eqb k k = true.
Proof. by apply key_eqb_eq. Qed.

Lemma key_rescale m : key (base (rescale m)) = key (base m).
Proof. done. Qed.

Lemma key_fill_new m : key (base (fill_new m)) = key (base m).
Proof. unfold fill_new. by destruct (mask_new m). Qed.

Lemma base_merge_row T realloc r :
  Forall (fun x => base x = r /\ acres_orig x = orig_total T (key r))
         (merge_row T realloc r).
Proof.
  unfold merge_row. destruct (List.filter _ realloc) as [|m ms].
  - by repeat constructor.
  - apply Forall_fmap, Forall_forall. by intros x _.
Qed.

(** The rows of [df] for a key come from the municipality rows of that
    key, in order. *)
Lemma rows_of_concat T realloc k l :
  rows_of k (map (fun m => fill_new (rescale m))
                 (concat (map (merge_row T realloc) l))) =
  concat (map (fun r => map (fun m => base (fill_new (rescale m)))
                            (merge_row T realloc r))
              (List.filter (fun r => key_eqb (key r) k) l)).
Proof.
  unfold rows_of. induction l as [|r l IH]; simpl; [done |].
  rewrite !map_app, List.filter_app, IH. clear IH.
  assert (Hhead :
    List.filter (fun r0 => key_eqb (key r0) k)
      (map base (map (fun m => fill_new (rescale m)) (merge_row T realloc r))) =
    if key_eqb (key r) k
    then map (fun m => base (fill_new (rescale m))) (merge_row T realloc r)
    else []).
  { pose proof (base_merge_row T realloc r) as Hb.
    induction Hb as [|x xs [Hx _] _ IHx]; simpl; [by destruct (key_eqb _ _) |].
    rewrite key_fill_new, key_rescale, Hx.
    destruct (key_eqb (key r) k); simpl; by rewrite IHx. }
  rewrite Hhead. by destruct (key_eqb (key r) k).
Qed.

Lemma in_keys_filter k aci_df :
  in_keys k aci_df = false ->
  List.filter (fun r => key_eqb (key r) k) aci_df = [].
Proof.
  unfold in_keys. induction aci_df as [|r l IH]; simpl; [done |].
  intros H. apply orb_false_iff in H as [-> H]. by apply IH.
Qed.

Lemma filter_in_keys k aci_df :
  List.filter (fun r => key_eqb (key r) k) aci_df <> [] ->
  in_keys k aci_df = true.
Proof.
  intros H. destruct (in_keys k aci_df) eqn:E; [done |].
  by apply in_keys_filter in E.
Qed.

Lemma key_new_row aci_df m : key (new_row aci_df m) = rkey m.
Proof. unfold new_row. by destruct (List.filter _ aci_df). Qed.

(** Appended rows never carry a key the municipality table already has. *)
Lemma filter_new_rows_existing k aci_df realloc :
  in_keys k aci_df = true ->
  List.filter (fun r => key_eqb (key r) k) (new_rows aci_df realloc) = [].
Proof.
  intros Hk. unfold new_rows.
  induction realloc as [|m l IH]; simpl; [done |].
  destruct (in_keys (rkey m) aci_df) eqn:E; simpl; [done |].
  rewrite key_new_row.
  destruct (key_eqb (rkey m) k) eqn:E'; [| done].
  apply key_eqb_eq in E'. congruence.
Qed.

Lemma filter_new_rows_fresh m aci_df realloc :
  in_keys (rkey m) aci_df = false ->
  List.filter (fun m' => key_eqb (rkey m') (rkey m)) realloc = [m] ->
  List.filter (fun r => key_eqb (key r) (rkey m)) (new_rows aci_df realloc)
    = [new_row aci_df m].
Proof.
  intros Hk Hm. unfold new_rows.
  assert (Hgen : forall l,
    List.filter (fun r => key_eqb (key r) (rkey m))
      (map (new_row aci_df)
           (List.filter (fun m0 => negb (in_keys (rkey m0) aci_df)) l)) =
    map (new_row aci_df)
        (List.filter (fun m' => key_eqb (rkey m') (rkey m)) l)).
  { induction l as [|m' l IH]; simpl; [done |].
    destruct (key_eqb (rkey m') (rkey m)) eqn:E.
    - apply key_eqb_eq in E. rewrite E, Hk. simpl.
      rewrite key_new_row, E, key_eqb_refl. simpl. by rewrite IH.
    - destruct (in_keys (rkey m') aci_df); simpl; [done |].
      rewrite key_new_row, E. done. }
  by rewrite Hgen, Hm.
Qed.


(** *** Scale factor one *)

Lemma equal_totals_scale_one aci_df reallocated_df k m :
  0 < orig_total aci_df k ->
  List.filter (fun m' => key_eqb (rkey m') k) reallocated_df = [m] ->
  Reconciler.acres_aci m == orig_total aci_df k ->
  Forall (fun x => key (base x) = k -> scale_factor x == 1)
         (distribute_df aci_df reallocated_df).
Proof.
  intros Hpos Hm Heq. unfold distribute_df.
  set (T := aci_df ++ new_rows aci_df reallocated_df).
  assert (Hin : in_keys k aci_df = true).
  { apply filter_in_keys. intros Hnil. unfold orig_total in Hpos.
    rewrite Hnil in Hpos. simpl in Hpos. lra. }
  assert (Horig : orig_total T k = orig_total aci_df k).
  { unfold orig_total, T.
    rewrite List.filter_app, filter_new_rows_existing by done.
    by rewrite app_nil_r. }
  apply Forall_fmap, Forall_forall. intros y Hy Hkey. simpl in *.
  rewrite key_fill_new, key_rescale in Hkey.
  apply list_elem_of_In, in_concat in Hy as (ys & Hys & Hy).
  apply in_map_iff in Hys as (r & <- & _).
  pose proof (base_merge_row T reallocated_df r) as Hb.
  rewrite Forall_forall in Hb.
  destruct (Hb y (proj2 (list_elem_of_In _ _) Hy)) as [Hbase Ho].
  rewrite Hbase in Hkey. subst k.
  unfold merge_row in Hy. rewrite Hm in Hy. simpl in Hy.
  destruct Hy as [<-|[]].
  unfold fill_new, mask_new, rescale, scale_factor. simpl.
  rewrite Horig.
  assert (Qeq_bool (orig_total aci_df (key r)) 0 = false) as ->.
  { apply Qeqb_neq. lra. }
  assert (Qltb 0 (orig_total aci_df (key r)) = true) as -> by (by apply Qltb_lt).
  cbn [andb acres_aci acres_orig base].
  assert (Qltb 0 (orig_total aci_df (key r)) = true) as -> by (by apply Qltb_lt).
  rewrite Heq. field. lra.
Qed.

Lemma equal_totals_same_rows aci_df reallocated_df k m :
  0 < orig_total aci_df k ->
  List.filter (fun m' => key_eqb (rkey m') k) reallocated_df = [m] ->
  Reconciler.acres_aci m == orig_total aci_df k ->
  Forall2 same_record
          (List.filter (fun r => key_eqb (key r) k) aci_df)
          (rows_of k (distribute_df aci_df reallocated_df)).
Proof.
  intros Hpos Hm Heq. unfold distribute_df.
  set (T := aci_df ++ new_rows aci_df reallocated_df).
  rewrite rows_of_concat.
  assert (Hin : in_keys k aci_df = true).
  { apply filter_in_keys. intros Hnil. unfold orig_total in Hpos.
    rewrite Hnil in Hpos. simpl in Hpos. lra. }
  assert (HT : List.filter (fun r => key_eqb (key r) k) T =
               List.filter (fun r => key_eqb (key r) k) aci_df).
  { unfold T. rewrite List.filter_app, filter_new_rows_existing by done.
    apply app_nil_r. }
  assert (Horig : orig_total T k = orig_total aci_df k).
  { unfold orig_total. by rewrite HT. }
  rewrite HT. clear HT.
  assert (Hall : Forall (fun r => key r = k)
                        (List.filter (fun r => key_eqb (key r) k) aci_df)).
  { apply Forall_forall. intros r Hr. apply list_elem_of_In, filter_In in Hr as [_ Hr].
    by apply key_eqb_eq. }
  revert Hall. generalize (List.filter (fun r => key_eqb (key r) k) aci_df).
  intros L Hall.
  induction Hall as [|r l Hr _ IH]; simpl; [constructor |].
  unfold merge_row at 1. rewrite Hr, Hm. simpl.
  constructor; [| exact IH].
  unfold fill_new, mask_new, rescale, scale_factor. simpl.
  rewrite Horig.
  assert (Qeq_bool (orig_total aci_df k) 0 = false) as ->.
  { apply Qeqb_neq. lra. }
  assert (Qltb 0 (orig_total aci_df k) = true) as -> by (by apply Qltb_lt).
  simpl. unfold same_record. simpl. split_and!; try done.
  all: rewrite Heq; field; lra.
Qed.

(** C9.  When the municipality rows of a region and label add up to a
    positive total and the corrected table holds exactly that total for the
    key, the Distributor returns those rows as they were: same records in
    the same order, with pixel count, hectares and acres unchanged; the
    scale factor of every row of the key is one. *)
Theorem equal_totals_identity aci_df reallocated_df k m :
  0 < orig_total aci_df k ->
  List.filter (fun m' => key_eqb (rkey m') k) reallocated_df = [m] ->
  Reconciler.acres_aci m == orig_total aci_df k ->
  Forall2 same_record
          (List.filter (fun r => key_eqb (key r) k) aci_df)
          (rows_of k (distribute_df aci_df reallocated_df)) /\
  Forall (fun x => key (base x) = k -> scale_factor x == 1)
         (distribute_df aci_df reallocated_df).
Proof.
  intros Hpos Hm Heq. split.
  - by apply (equal_totals_same_rows aci_df reallocated_df k m).
  - by apply (equal_totals_scale_one aci_df reallocated_df k m).
Qed.

Lemma equal_totals_identity_witness :
  Forall2 same_record
          (List.filter (fun r => key_eqb (key r) ("R", "Canola/rapeseed")%string) one_muni)
          (rows_of ("R", "Canola/rapeseed")%string
                   (distribute_df one_muni canola_corrected)).
Proof.
  apply (proj1 (equal_totals_identity one_muni canola_corrected
                  ("R", "Canola/rapeseed")%string
                  (Reconciler.mkRow "R" "Canola/rapeseed" 900 81 200 200 0)
                  eq_refl eq_refl eq_refl)).
Defined.

(** *** A label new to its region *)

(** When the municipality table has no row at all for a region and label,
    and the corrected table holds one row for the key with a positive
    total, the rows of the key are the one row made up for it, filled by
    step 5b. *)
Lemma absent_key_rows aci_df reallocated_df m :
  in_keys (rkey m) aci_df = false ->
  List.filter (fun m' => key_eqb (rkey m') (rkey m)) reallocated_df = [m] ->
  0 < Reconciler.acres_aci m ->
  let rows := rows_of (rkey m) (distribute_df aci_df reallocated_df) in
  let a := Reconciler.acres_aci m in
  rows = [filled (new_row aci_df m) a] /\
  Qsum (map acres rows) == a /\
  (forall t rest,
     List.filter (fun r => String.eqb (rm r) (Reconciler.rm m)) aci_df = t :: rest ->
     rows = [mkRow (MUNI_NO t) (MUNI_NAME t) (Code t)
                   (a * 0.404685642 / 0.09) (a * 0.404685642) a
                   (Reconciler.Label m) (Reconciler.rm m)]) /\
  (List.filter (fun r => String.eqb (rm r) (Reconciler.rm m)) aci_df = [] ->
     rows = [mkRow None (Reconciler.rm m) None
                   (a * 0.404685642 / 0.09) (a * 0.404685642) a
                   (Reconciler.Label m) (Reconciler.rm m)]).
Proof.
  intros Hk Hm Hpos rows a.
  assert (Hrows : rows = [filled (new_row aci_df m) a]).
  { unfold rows, distribute_df.
    set (T := aci_df ++ new_rows aci_df reallocated_df).
    rewrite rows_of_concat.
    assert (HT : List.filter (fun r => key_eqb (key r) (rkey m)) T =
                 [new_row aci_df m]).
    { unfold T. rewrite List.filter_app, in_keys_filter by done.
      by apply filter_new_rows_fresh. }
    rewrite HT. simpl. rewrite app_nil_r.
    unfold merge_row, orig_total. rewrite key_new_row, Hm, HT. simpl.
    unfold fill_new, mask_new, rescale, scale_factor. simpl.
    assert (Qeq_bool (acres (new_row aci_df m) + 0) 0 = true) as ->.
    { unfold new_row. by destruct (List.filter _ aci_df). }
    assert (Qltb 0 (Reconciler.acres_aci m) = true) as -> by (by apply Qltb_lt).
    simpl. unfold filled, new_row. by destruct (List.filter _ aci_df). }
  split_and!.
  - exact Hrows.
  - rewrite Hrows. unfold Qsum. simpl. lra.
  - intros t rest Ht. rewrite Hrows. unfold filled, new_row. by rewrite Ht.
  - intros Ht. rewrite Hrows. unfold filled, new_row. by rewrite Ht.
Qed.

Lemma receivable_orig_nonneg aci_df k :
  receivable aci_df -> 0 <= orig_total aci_df k.
Proof.
  unfold orig_total, Qsum. induction 1 as [|r l Hr _ IH]; simpl; [lra |].
  destruct (key_eqb (key r) k); simpl; [lra | done].
Qed.

(** In a table without rows of zero acres, a key whose acres add up to
    zero has no row. *)
Lemma receivable_orig_zero aci_df k :
  receivable aci_df -> orig_total aci_df k == 0 -> in_keys k aci_df = false.
Proof.
  unfold in_keys. induction 1 as [|r l Hr Hl IH]; simpl; [done |].
  pose proof (receivable_orig_nonneg l k Hl) as Hn.
  unfold orig_total, Qsum in *. simpl.
  destruct (key_eqb (key r) k); simpl; [lra | exact IH].
Qed.

(** C6.  On a municipality table as [aci_prepare.py] writes it (every row
    has positive acres), for a region and label whose original acres add
    up to zero while the corrected table holds one row for the key with a
    positive total, the Distributor returns exactly one record for the
    key.  It carries the number, name and code of the first municipality
    row of the region, the whole corrected total as acres, hectares derived
    from the acres and pixel count derived from the hectares by the
    stage's conversions; the acres of the key therefore add up to the
    corrected total. *)
Theorem zero_total_key_single_record aci_df reallocated_df m t rest :
  receivable aci_df ->
  orig_total aci_df (rkey m) == 0 ->
  List.filter (fun m' => key_eqb (rkey m') (rkey m)) reallocated_df = [m] ->
  0 < Reconciler.acres_aci m ->
  List.filter (fun r => String.eqb (rm r) (Reconciler.rm m)) aci_df = t :: rest ->
  let rows := rows_of (rkey m) (distribute_df aci_df reallocated_df) in
  exists r, rows = [r] /\
    MUNI_NO r = MUNI_NO t /\ MUNI_NAME r = MUNI_NAME t /\ Code r = Code t /\
    Label r = Reconciler.Label m /\ rm r = Reconciler.rm m /\
    acres r = Reconciler.acres_aci m /\
    hectares r == Units.distributor_hectares (acres r) /\
    pixel_count r == Units.distributor_pixels (hectares r) /\
    Qsum (map acres rows) == Reconciler.acres_aci m.
Proof.
  intros Hrec Hzero Hm Hpos Ht rows.
  pose proof (receivable_orig_zero aci_df (rkey m) Hrec Hzero) as Hk.
  destruct (absent_key_rows aci_df reallocated_df m Hk Hm Hpos)
    as (_ & Hsum & Hfirst & _).
  specialize (Hfirst t rest Ht). fold rows in Hsum, Hfirst.
  eexists. split; [exact Hfirst |].
  unfold Units.distributor_hectares, Units.distributor_pixels. simpl.
  split_and!; try reflexivity. exact Hsum.
Qed.

Lemma zero_total_key_single_record_witness :
  exists r,
    rows_of ("R", "Wheat")%string (distribute_df one_muni wheat_corrected) = [r] /\
    MUNI_NAME r = "Alpha"%string /\ Code r = Some 153%Z /\ acres r = 10.
Proof.
  destruct (zero_total_key_single_record one_muni wheat_corrected
              (Reconciler.mkRow "R" "Wheat" 0 0 10 40 (-30))
              (mkRow (Some 101%Z) "Alpha" (Some 153%Z) 900 81 200
                     "Canola/rapeseed" "R") [])
    as (r & Hr & _ & Hn & Hc & _ & _ & Ha & _).
  - repeat constructor.
  - reflexivity.
  - reflexivity.
  - reflexivity.
  - reflexivity.
  - exists r. split_and!; [exact Hr | exact Hn | exact Hc | exact Ha].
Defined.

End DistributorFacts.

(** ** More on the Sub-Region Distributor *)

Module DistributorMore.

Import Num NumFacts Distributor DistributorFacts.
Local Open Scope Q_scope.

(** The rows of a key whose original total is positive and which has one
    corrected row: each is scaled by corrected / original. *)
Lemma scaled_rows aci_df reallocated_df k m :
  0 < orig_total aci_df k ->
  List.filter (fun m' => key_eqb (rkey m') k) reallocated_df = [m] ->
  Forall2 (scaled_by (Reconciler.acres_aci m / orig_total aci_df k))
          (List.filter (fun r => key_eqb (key r) k) aci_df)
          (rows_of k (distribute_df aci_df reallocated_df)).
Proof.
  intros Hpos Hm. unfold distribute_df.
  set (T := aci_df ++ new_rows aci_df reallocated_df).
  rewrite rows_of_concat.
  assert (Hin : in_keys k aci_df = true).
  { apply filter_in_keys. intros Hnil. unfold orig_total in Hpos.
    rewrite Hnil in Hpos. simpl in Hpos. lra. }
  assert (HT : List.filter (fun r => key_eqb (key r) k) T =
               List.filter (fun r => key_eqb (key r) k) aci_df).
  { unfold T. rewrite List.filter_app, filter_new_rows_existing by done.
    apply app_nil_r. }
  assert (Horig : orig_total T k = orig_total aci_df k).
  { unfold orig_total. by rewrite HT. }
  rewrite HT. clear HT.
  assert (Hall : Forall (fun r => key r = k)
                        (List.filter (fun r => key_eqb (key r) k) aci_df)).
  { apply Forall_forall. intros r Hr. apply list_elem_of_In, filter_In in Hr as [_ Hr].
    by apply key_eqb_eq. }
  revert Hall. generalize (List.filter (fun r => key_eqb (key r) k) aci_df).
  intros L Hall.
  induction Hall as [|r l Hr _ IH]; simpl; [constructor |].
  unfold merge_row at 1. rewrite Hr, Hm. simpl.
  constructor; [| exact IH].
  unfold fill_new, mask_new, rescale, scale_factor. simpl.
  rewrite Horig.
  assert (Qeq_bool (orig_total aci_df k) 0 = false) as ->.
  { apply Qeqb_neq. lra. }
  assert (Qltb 0 (orig_total aci_df k) = true) as -> by (by apply Qltb_lt).
  simpl. unfold scaled_by. simpl. split_and!; try done; reflexivity.
Qed.

(** X10.  For a region and label whose municipality rows add up to a
    positive total and which has one corrected row, the Distributor
    returns the rows of the key in their order, each with its number,
    name, code and label and with pixel count, hectares and acres
    multiplied by one and the same factor, corrected total over original
    total. *)
Theorem rows_rescaled_by_common_factor aci_df reallocated_df k m :
  0 < orig_total aci_df k ->
  List.filter (fun m' => key_eqb (rkey m') k) reallocated_df = [m] ->
  Forall2 (scaled_by (Reconciler.acres_aci m / orig_total aci_df k))
          (List.filter (fun r => key_eqb (key r) k) aci_df)
          (rows_of k (distribute_df aci_df reallocated_df)).
Proof. apply scaled_rows. Qed.

Lemma rows_rescaled_by_common_factor_witness :
  let halved := [Reconciler.mkRow "R" "Canola/rapeseed" 900 81 100 100 0] in
  exists r, rows_of ("R", "Canola/rapeseed")%string
                    (distribute_df one_muni halved) = [r] /\
            acres r == 200 * (100 / 200) /\ hectares r == 81 * (100 / 200).
Proof.
  intros halved.
  pose proof (rows_rescaled_by_common_factor one_muni halved
                ("R", "Canola/rapeseed")%string
                (Reconciler.mkRow "R" "Canola/rapeseed" 900 81 100 100 0)
                eq_refl eq_refl) as H.
  apply Forall2_cons_inv_l in H as (r & rest & Hr & Hrest & Heq).
  apply Forall2_nil_inv_l in Hrest as ->.
  exists r. split; [exact Heq |].
  destruct Hr as (_ & _ & _ & _ & _ & _ & Hh & Ha). split; [exact Ha | exact Hh].
Defined.

(** Rows appended for missing keys carry keys of the corrected table. *)
Lemma filter_new_rows_absent k aci_df realloc :
  List.filter (fun m => key_eqb (rkey m) k) realloc = [] ->
  List.filter (fun r => key_eqb (key r) k) (new_rows aci_df realloc) = [].
Proof.
  unfold new_rows. induction realloc as [|m l IH]; simpl; [done |].
  destruct (key_eqb (rkey m) k) eqn:E; [done |]. intros H.
  destruct (in_keys (rkey m) aci_df); simpl; [by apply IH |].
  rewrite key_new_row, E. by apply IH.
Qed.

(** X11.  A region and label without any row in the corrected table is
    left alone: its municipality rows come back in order with the same
    pixel count, hectares and acres, and no row is added for it. *)
Theorem uncorrected_key_unchanged aci_df reallocated_df k :
  List.filter (fun m => key_eqb (rkey m) k) reallocated_df = [] ->
  Forall2 same_record
          (List.filter (fun r => key_eqb (key r) k) aci_df)
          (rows_of k (distribute_df aci_df reallocated_df)).
Proof.
  intros Hm. unfold distribute_df.
  set (T := aci_df ++ new_rows aci_df reallocated_df).
  rewrite rows_of_concat.
  assert (HT : List.filter (fun r => key_eqb (key r) k) T =
               List.filter (fun r => key_eqb (key r) k) aci_df).
  { unfold T. rewrite List.filter_app, filter_new_rows_absent by done.
    apply app_nil_r. }
  rewrite HT. clear HT.
  assert (Hall : Forall (fun r => key r = k)
                        (List.filter (fun r => key_eqb (key r) k) aci_df)).
  { apply Forall_forall. intros r Hr.
    apply list_elem_of_In, filter_In in Hr as [_ Hr]. by apply key_eqb_eq. }
  revert Hall. generalize (List.filter (fun r => key_eqb (key r) k) aci_df).
  intros L Hall.
  induction Hall as [|r l Hr _ IH]; simpl; [constructor |].
  unfold merge_row at 1. rewrite Hr, Hm. simpl.
  constructor; [| exact IH].
  unfold fill_new, mask_new, rescale, scale_factor. simpl.
  rewrite andb_false_r. simpl.
  unfold same_record. simpl. split_and!; try done; ring.
Qed.

Lemma uncorrected_key_unchanged_witness :
  Forall2 same_record
          (List.filter (fun r => key_eqb (key r) ("R", "Canola/rapeseed")%string)
                       one_muni)
          (rows_of ("R", "Canola/rapeseed")%string
                   (distribute_df one_muni wheat_corrected)).
Proof.
  apply (uncorrected_key_unchanged one_muni wheat_corrected
           ("R", "Canola/rapeseed")%string).
  reflexivity.
Defined.

(** Every row of [df] comes from a row of the extended municipality table
    and the rows of the corrected table with its key. *)
Lemma elem_of_distribute_df aci_df realloc x :
  x ∈ distribute_df aci_df realloc ->
  exists r, r ∈ aci_df ++ new_rows aci_df realloc /\
    ((List.filter (fun m => key_eqb (rkey m) (key r)) realloc = [] /\
      x = fill_new (rescale (mkMerged r
            (orig_total (aci_df ++ new_rows aci_df realloc) (key r)) None))) \/
     (exists m, m ∈ realloc /\ rkey m = key r /\
        x = fill_new (rescale (mkMerged r
              (orig_total (aci_df ++ new_rows aci_df realloc) (key r))
              (Some (Reconciler.acres_aci m)))))).
Proof.
  unfold distribute_df. intros Hx.
  set (T := aci_df ++ new_rows aci_df realloc) in *.
  apply list_elem_of_fmap in Hx as (y & -> & Hy).
  apply list_elem_of_In, in_concat in Hy as (ys & Hys & Hy).
  apply list_elem_of_In in Hy.
  apply list_elem_of_In, list_elem_of_fmap in Hys as (r & -> & Hr).
  exists r. split; [done |].
  unfold merge_row in Hy.
  destruct (List.filter (fun m => key_eqb (rkey m) (key r)) realloc)
    as [|m0 ms] eqn:E.
  - left. split; [done |]. apply list_elem_of_singleton in Hy. by subst.
  - right. apply list_elem_of_fmap in Hy as (m & -> & Hm).
    exists m. rewrite <- E in Hm.
    apply list_elem_of_In, filter_In in Hm as [Hm Hk].
    split_and!; [by apply list_elem_of_In | by apply key_eqb_eq | done].
Qed.

(** X12.  When every corrected row of a region and label has a corrected
    total of zero (the Reconciler removed the crop), every municipality
    row of that key comes back with pixel count, hectares and acres zero. *)
Theorem zero_corrected_total_zeroes_rows aci_df reallocated_df k :
  List.filter (fun m => key_eqb (rkey m) k) reallocated_df <> [] ->
  Forall (fun m => rkey m = k -> Reconciler.acres_aci m == 0) reallocated_df ->
  Forall areas_zero (rows_of k (distribute_df aci_df reallocated_df)).
Proof.
  intros Hne Hz. apply Forall_forall. intros r' Hr'.
  unfold rows_of in Hr'.
  apply list_elem_of_In, filter_In in Hr' as [Hr' Hk].
  apply list_elem_of_In, list_elem_of_fmap in Hr' as (x & -> & Hx).
  apply key_eqb_eq in Hk.
  apply elem_of_distribute_df in Hx as (r & _ & [[Hnil ->] | (m & Hm & Hkm & ->)]).
  - rewrite key_fill_new, key_rescale in Hk. simpl in Hk. by rewrite Hk in Hnil.
  - rewrite key_fill_new, key_rescale in Hk. simpl in Hk.
    rewrite Forall_forall in Hz.
    assert (Ha : Reconciler.acres_aci m == 0) by (apply Hz; [done | congruence]).
    unfold fill_new, mask_new. simpl.
    assert (Qltb 0 (Reconciler.acres_aci m) = false) as ->.
    { apply Qltb_ge. lra. }
    rewrite andb_false_r. unfold rescale, scale_factor, areas_zero. simpl.
    destruct (Qltb 0 _); rewrite ?Ha; split_and!; try ring.
    all: unfold Qdiv; ring.
Qed.

Lemma zero_corrected_total_zeroes_rows_witness :
  Forall areas_zero
    (rows_of ("R", "Canola/rapeseed")%string
       (distribute_df one_muni
          [Reconciler.mkRow "R" "Canola/rapeseed" 0 0 0 0 0])).
Proof.
  apply (zero_corrected_total_zeroes_rows one_muni
           [Reconciler.mkRow "R" "Canola/rapeseed" 0 0 0 0 0]
           ("R", "Canola/rapeseed")%string).
  - discriminate.
  - repeat constructor.
Defined.

Lemma areas_nonneg_new_row aci_df m : areas_nonneg (new_row aci_df m).
Proof.
  unfold new_row, areas_nonneg.
  destruct (List.filter _ aci_df); simpl; split_and!; lra.
Qed.

Lemma orig_total_nonneg T k :
  Forall areas_nonneg T -> 0 <= orig_total T k.
Proof.
  unfold orig_total, Qsum. induction 1 as [|r l Hr _ IH]; simpl; [lra |].
  destruct (key_eqb (key r) k); simpl; [| done].
  destruct Hr as (_ & _ & Hr). lra.
Qed.

(** X13.  The Distributor never produces a negative area: when no input
    municipality row has a negative pixel count, hectares or acres and no
    corrected total is negative, every row of the result has all three
    non-negative. *)
Theorem distribute_keeps_areas_nonneg aci_df reallocated_df :
  Forall areas_nonneg aci_df ->
  Forall (fun m => 0 <= Reconciler.acres_aci m) reallocated_df ->
  Forall (fun x => areas_nonneg (base x)) (distribute_df aci_df reallocated_df).
Proof.
  intros Hin Hre. apply Forall_forall. intros x Hx.
  apply elem_of_distribute_df in Hx as (r & Hr & Hx).
  assert (HT : Forall areas_nonneg (aci_df ++ new_rows aci_df reallocated_df)).
  { apply Forall_app. split; [done |]. unfold new_rows.
    apply Forall_fmap, Forall_forall. intros m _. apply areas_nonneg_new_row. }
  pose proof (orig_total_nonneg _ (key r) HT) as Ho.
  rewrite Forall_forall in HT. destruct (HT r Hr) as (Hp & Hh & Ha).
  destruct Hx as [[_ ->] | (m & Hm & _ & ->)].
  - unfold fill_new, mask_new. simpl. rewrite andb_false_r.
    unfold areas_nonneg, rescale, scale_factor. simpl. split_and!; lra.
  - rewrite Forall_forall in Hre. pose proof (Hre m Hm) as Hm0.
    set (o := orig_total (aci_df ++ new_rows aci_df reallocated_df) (key r)) in *.
    unfold fill_new, mask_new. simpl. fold o.
    destruct (Qeq_bool o 0 && Qltb 0 (Reconciler.acres_aci m)) eqn:E.
    + unfold areas_nonneg. simpl.
      apply andb_true_iff in E as [_ E]. apply Qltb_lt in E.
      split_and!; [| nra | lra].
      apply Qle_shift_div_l; [reflexivity | nra].
    + unfold rescale, scale_factor, areas_nonneg. simpl.
      destruct (Qltb 0 o) eqn:E'.
      * apply Qltb_lt in E'.
        assert (0 <= Reconciler.acres_aci m / o).
        { apply Qle_shift_div_l; [done | lra]. }
        split_and!; nra.
      * split_and!; lra.
Qed.

Lemma distribute_keeps_areas_nonneg_witness :
  Forall (fun x => areas_nonneg (base x)) (distribute_df one_muni wheat_corrected).
Proof.
  apply (distribute_keeps_areas_nonneg one_muni wheat_corrected).
  - repeat constructor; simpl; lra.
  - repeat constructor; simpl; lra.
Defined.

Lemma filter_key_NoDup k (realloc : list Reconciler.Row) :
  List.NoDup (map rkey realloc) ->
  (length (List.filter (fun m => key_eqb (rkey m) k) realloc) <= 1)%nat.
Proof.
  induction realloc as [|m l IH]; simpl; [lia |].
  intros H. apply List.NoDup_cons_iff in H as [Hm Hl].
  destruct (key_eqb (rkey m) k) eqn:E; [| by apply IH].
  apply key_eqb_eq in E. simpl.
  assert (List.filter (fun m' => key_eqb (rkey m') k) l = []) as ->; [| simpl; lia].
  destruct (List.filter _ l) as [|m' ms] eqn:E'; [done |].
  exfalso. apply Hm.
  assert (Hin : In m' (List.filter (fun m' => key_eqb (rkey m') k) l))
    by (rewrite E'; by left).
  apply filter_In in Hin as [Hin Hk]. apply key_eqb_eq in Hk.
  rewrite E, <- Hk. by apply in_map.
Qed.

Lemma merge_row_single T realloc r :
  List.NoDup (map rkey realloc) ->
  exists a, merge_row T realloc r = [mkMerged r (orig_total T (key r)) a].
Proof.
  intros H. pose proof (filter_key_NoDup (key r) realloc H) as Hlen.
  unfold merge_row.
  destruct (List.filter _ realloc) as [|m [|m' ms]]; simpl in *; [by eexists .. | lia].
Qed.

Lemma ident_fill_rescale m :
  f_ident (final_cols (fill_new (rescale m))) = ident (base m).
Proof. unfold fill_new. by destruct (mask_new _). Qed.

Lemma ident_merged_rows T realloc (L : list Row) :
  List.NoDup (map rkey realloc) ->
  map f_ident (map final_cols (map (fun m => fill_new (rescale m))
                 (concat (map (merge_row T realloc) L)))) =
  map ident L.
Proof.
  intros H. induction L as [|r l IH]; simpl; [done |].
  destruct (merge_row_single T realloc r H) as [a ->]. simpl.
  rewrite ident_fill_rescale. simpl. f_equal. exact IH.
Qed.

(** X14.  When the corrected table holds each region and label once, the
    returned table has exactly the rows of the municipality table, in
    order and with number, name, code and label unchanged, followed by
    one made-up row for each corrected row whose key the municipality
    table lacks: no row is dropped or duplicated. *)
Theorem distribute_keeps_row_structure aci_df reallocated_df :
  List.NoDup (map rkey reallocated_df) ->
  map f_ident (distribute_back_to_municipalities aci_df reallocated_df) =
  map ident (aci_df ++ new_rows aci_df reallocated_df).
Proof.
  intros H. unfold distribute_back_to_municipalities, distribute_df.
  apply ident_merged_rows, H.
Qed.

Lemma distribute_keeps_row_structure_witness :
  map f_ident (distribute_back_to_municipalities one_muni wheat_corrected) =
  [ (Some 101%Z, "Alpha"%string, Some 153%Z, "Canola/rapeseed"%string);
    (Some 101%Z, "Alpha"%string, Some 153%Z, "Wheat"%string) ].
Proof.
  apply (distribute_keeps_row_structure one_muni wheat_corrected).
  repeat constructor; simpl; tauto.
Defined.

End DistributorMore.

(** ** Unit conversions across the stages *)

Module UnitsFacts.

Import Num NumFacts Units.
Local Open Scope Q_scope.

(** The Distributor's step 5b converts with the functions of [Units]. *)
Lemma fill_new_units m :
  Distributor.mask_new m = true ->
  let r := Distributor.base (Distributor.fill_new m) in
  Distributor.hectares r = distributor_hectares (Distributor.acres r) /\
  Distributor.pixel_count r = distributor_pixels (Distributor.hectares r).
Proof. intros H. unfold Distributor.fill_new. rewrite H. done. Qed.

Lemma yield_biomass_agree a :
  yield_hectares a = biomass_hectares a /\
  yield_pixels (yield_hectares a) = biomass_pixels (biomass_hectares a).
Proof. done. Qed.

Lemma hectares_differ a :
  ~ a == 0 -> ~ distributor_hectares a == yield_hectares a.
Proof.
  unfold distributor_hectares, yield_hectares. intros Ha H.
  apply Ha. nra.
Qed.

(** C7 (the code departs from it).  One acre converted by the Distributor
    is 0.404685642 hectares, converted by the yield and biomass stages it
    is 0.404686 hectares; the hectares differ, and so do the pixel counts
    derived from them.  The yield and biomass stages agree with each other,
    and every stage divides hectares by 0.09.  The 10 acres the Distributor
    gives to a new label come out as 4.04685642 hectares, which the later
    stages would make 4.04686. *)
Theorem stages_convert_one_acre_differently :
  map Distributor.hectares
      (Distributor.rows_of ("R", "Wheat")%string
         (Distributor.distribute_df Distributor.one_muni
                                    Distributor.wheat_corrected))
    = [distributor_hectares 10] /\
  distributor_hectares 10 == 4.04685642 /\
  yield_hectares 10 == 4.04686 /\
  distributor_hectares 1 == 0.404685642 /\
  yield_hectares 1 == 0.404686 /\
  biomass_hectares 1 == 0.404686 /\
  ~ distributor_hectares 1 == yield_hectares 1 /\
  ~ distributor_pixels (distributor_hectares 1) == yield_pixels (yield_hectares 1) /\
  (forall a, ~ a == 0 -> ~ distributor_hectares a == biomass_hectares a).
Proof.
  split_and!; try reflexivity; try (vm_compute; discriminate).
  intros a Ha. by apply hectares_differ.
Qed.

End UnitsFacts.

(** ** The Pixel Materializer *)

Module MaterializerFacts.

Import Num NumFacts Materializer.
Local Open Scope Q_scope.

(** *** Arrays *)

Lemma length_set_at {A} sel (v : A) l : length (set_at sel v l) = length l.
Proof.
  unfold set_at. revert l. induction sel as [|s sel IH]; intros l; simpl; [done |].
  by rewrite IH, length_insert.
Qed.

Lemma set_at_keeps {A} sel (v : A) l p :
  l !! p = Some v -> set_at sel v l !! p = Some v.
Proof.
  unfold set_at. revert l. induction sel as [|s sel IH]; intros l Hp; simpl; [done |].
  apply IH. destruct (decide (s = p)) as [->|Hne].
  - apply list_lookup_insert_eq. by eapply lookup_lt_Some.
  - by rewrite list_lookup_insert_ne.
Qed.

Lemma set_at_lookup_in {A} sel (v : A) l p :
  p ∈ sel -> (p < length l)%nat -> set_at sel v l !! p = Some v.
Proof.
  revert l. induction sel as [|s sel IH]; intros l Hin Hlt.
  { by apply elem_of_nil in Hin. }
  apply elem_of_cons in Hin as [->|Hin].
  - apply (set_at_keeps sel v (<[s:=v]> l)). by apply list_lookup_insert_eq.
  - apply (IH (<[s:=v]> l)); [done |]. by rewrite length_insert.
Qed.

Lemma set_at_lookup_notin {A} sel (v : A) l p :
  p ∉ sel -> set_at sel v l !! p = l !! p.
Proof.
  unfold set_at. revert l. induction sel as [|s sel IH]; intros l Hp; simpl; [done |].
  apply not_elem_of_cons in Hp as [Hne Hp].
  rewrite IH by done. by apply list_lookup_insert_ne.
Qed.

Lemma elem_of_argwhere mask p : p ∈ argwhere mask <-> mask !! p = Some true.
Proof.
  unfold argwhere. rewrite list_elem_of_fmap. split.
  - intros ([q b] & -> & Hin). simpl.
    apply list_elem_of_In, filter_In in Hin as [Hin Hb].
    apply list_elem_of_In, elem_of_iterrows in Hin. simpl in Hb. by subst b.
  - intros Hp. exists (p, true). split; [done |].
    apply list_elem_of_In, filter_In. split; [| done].
    by apply list_elem_of_In, elem_of_iterrows.
Qed.

Lemma NoDup_argwhere mask : NoDup (argwhere mask).
Proof. apply NoDup_fst_filter, NoDup_fst_iterrows. Qed.

(** A candidate cell is unassigned, not protected, and inside the mask. *)
Lemma cand_mask_true P g valid p :
  cand_mask P g valid !! p = Some true ->
  assigned_mask g !! p = Some false /\
  (exists c, band1 g !! p = Some c /\ c ∉ P) /\
  (forall v, valid = Some v -> v !! p = Some true).
Proof.
  unfold cand_mask. intros H.
  assert (Hm : zip_with (fun (a : bool) (c : Z) =>
                 negb a && negb (bool_decide (c ∈ P)))
                 (assigned_mask g) (band1 g) !! p = Some true ->
               assigned_mask g !! p = Some false /\
               (exists c, band1 g !! p = Some c /\ c ∉ P)).
  { intros Hz. apply lookup_zip_with_Some in Hz as (a & c & Heq & Ha & Hc).
    symmetry in Heq. apply andb_true_iff in Heq as [H1 H2].
    apply negb_true_iff in H1, H2. subst a.
    apply bool_decide_eq_false in H2. eauto. }
  destruct valid as [v|].
  - apply lookup_zip_with_Some in H as (m & b & Heq & Hm' & Hb).
    symmetry in Heq. apply andb_true_iff in Heq as [-> ->].
    destruct (Hm Hm') as [? ?]. split_and!; [done | done |].
    by intros v' [= <-].
  - destruct (Hm H) as [? ?]. split_and!; [done | done | done].
Qed.

(** *** The random draw *)

Lemma first_k_ok : choice_ok first_k.
Proof.
  intros g n k Hk. unfold first_k. simpl.
  rewrite Nat.min_l by done. split_and!.
  - apply length_seq.
  - apply NoDup_seq.
  - apply Forall_forall. intros i Hi. apply elem_of_seq in Hi. lia.
Qed.

(** The cells picked by a draw: distinct members of the candidate list. *)
Lemma selected_spec (candidates idx : list nat) :
  NoDup candidates -> NoDup idx ->
  Forall (fun i => (i < length candidates)%nat) idx ->
  let sel := map (fun k => nth k candidates 0%nat) idx in
  NoDup sel /\ length sel = length idx /\ (forall p, p ∈ sel -> p ∈ candidates).
Proof.
  intros Hc Hi Hlt sel. unfold sel. split_and!.
  - apply NoDup_fmap_2_strong; [| done].
    intros x y Hx Hy Heq. rewrite Forall_forall in Hlt.
    apply NoDup_ListNoDup in Hc.
    eapply (proj1 (List.NoDup_nth candidates 0%nat)); eauto.
  - by rewrite length_map.
  - intros p Hp. apply list_elem_of_fmap in Hp as (k & -> & Hk).
    rewrite Forall_forall in Hlt. apply list_elem_of_In, nth_In. by apply Hlt.
Qed.


(** *** One row of Rule 2 *)

Section FillRow.

Context {G : Type} (choice : G -> nat -> nat -> list nat * G).
Context (label_to_code : gmap string Z) (protected : gset Z)
        (valid_mask : option (list bool)).

Local Abbreviation fill := (fill_row choice label_to_code protected valid_mask).

Lemma fill_row_spec st row code :
  choice_ok choice ->
  label_to_code !! strip (Label row) = Some code ->
  let required := py_round (aci_pixels row) in
  let current := count_code code (band1 (grid st)) in
  let pool := argwhere (cand_mask protected (grid st) valid_mask) in
  let n := Z.min (required - current) (Z.of_nat (length pool)) in
  (0 < required)%Z -> (0 < required - current)%Z ->
  (pool = [] -> fill st row = st) /\
  (pool <> [] ->
     (Z.to_nat n <= length pool)%nat /\
     exists sel, NoDup sel /\ (forall p, p ∈ sel -> p ∈ pool) /\
                 Z.of_nat (length sel) = n /\
                 filled_with st row code sel n (fill st row)).
Proof.
  intros Hok Hcode required current pool n Hreq Hdef.
  unfold fill_row. rewrite Hcode. fold required current pool.
  assert ((required <=? 0)%Z = false) as -> by lia.
  assert ((required - current <=? 0)%Z = false) as -> by lia.
  destruct pool as [|c0 cs] eqn:Epool.
  { split; [done | by intros []]. }
  split; [done |]. intros _. fold n.
  assert (Hn : (Z.to_nat n <= length (c0 :: cs))%nat) by (unfold n; lia).
  split; [done |].
  destruct (Hok (rng st) (length (c0 :: cs)) (Z.to_nat n) Hn) as (Hlen & Hnd & Hlt).
  destruct (choice (rng st) (length (c0 :: cs)) (Z.to_nat n)) as [idx rng'].
  simpl in Hlen, Hnd, Hlt.
  assert (Hc : NoDup (c0 :: cs)) by (rewrite <- Epool; apply NoDup_argwhere).
  destruct (selected_spec (c0 :: cs) idx Hc Hnd Hlt) as (Hs1 & Hs2 & Hs3).
  eexists. split_and!; [exact Hs1 | exact Hs3 | |].
  - rewrite Hs2, Hlen. unfold n. lia.
  - by split.
Qed.

Lemma fill_row_cases st row :
  choice_ok choice ->
  fill st row = st \/
  exists code sel n,
    label_to_code !! strip (Label row) = Some code /\
    NoDup sel /\
    (forall p, p ∈ sel ->
       p ∈ argwhere (cand_mask protected (grid st) valid_mask)) /\
    filled_with st row code sel n (fill st row).
Proof.
  intros Hok.
  destruct (label_to_code !! strip (Label row)) as [code|] eqn:Hcode.
  2:{ left. unfold fill_row. by rewrite Hcode. }
  destruct (Z.leb_spec (py_round (aci_pixels row)) 0) as [Hreq|Hreq].
  { left. unfold fill_row. rewrite Hcode.
    by assert ((py_round (aci_pixels row) <=? 0)%Z = true) as -> by lia. }
  destruct (Z.leb_spec (py_round (aci_pixels row)
                        - count_code code (band1 (grid st))) 0) as [Hdef|Hdef].
  { left. unfold fill_row. rewrite Hcode.
    assert ((py_round (aci_pixels row) <=? 0)%Z = false) as -> by lia.
    by assert ((py_round (aci_pixels row)
                - count_code code (band1 (grid st)) <=? 0)%Z = true) as -> by lia. }
  destruct (fill_row_spec st row code Hok Hcode Hreq Hdef) as [Hnil Hcons].
  destruct (argwhere (cand_mask protected (grid st) valid_mask)) as [|c0 cs] eqn:E.
  { left. by apply Hnil. }
  right. destruct Hcons as (_ & sel & H1 & H2 & H3 & H4); [done |].
  exists code, sel. eexists. split_and!; [done | done | exact H2 | exact H4].
Qed.

(** Cells that hold a protected code are never written. *)
Lemma fill_row_protected st row p c :
  choice_ok choice ->
  band1 (grid st) !! p = Some c -> c ∈ protected ->
  band1 (grid (fill st row)) !! p = Some c.
Proof.
  intros Hok Hp Hc.
  destruct (fill_row_cases st row Hok) as [->|(code & sel & n & _ & _ & Hsel & Hg & _)];
    [done |].
  rewrite Hg. simpl. rewrite set_at_lookup_notin; [done |].
  intros Hin. apply Hsel, elem_of_argwhere, cand_mask_true in Hin
    as (_ & (c' & Hc' & Hnot) & _).
  congruence.
Qed.

(** Cells outside the mask are never written. *)
Lemma fill_row_outside_mask st row p v :
  choice_ok choice ->
  valid_mask = Some v -> v !! p <> Some true ->
  band1 (grid (fill st row)) !! p = band1 (grid st) !! p.
Proof.
  intros Hok Hv Hp.
  destruct (fill_row_cases st row Hok) as [->|(code & sel & n & _ & _ & Hsel & Hg & _)];
    [done |].
  rewrite Hg. simpl. rewrite set_at_lookup_notin; [done |].
  intros Hin. apply Hsel, elem_of_argwhere, cand_mask_true in Hin as (_ & _ & Hm).
  by apply Hp, Hm.
Qed.

Lemma foldl_fill_protected rows : forall st p c,
  choice_ok choice ->
  band1 (grid st) !! p = Some c -> c ∈ protected ->
  band1 (grid (foldl fill st rows)) !! p = Some c.
Proof.
  induction rows as [|row rows IH]; intros st p c Hok Hp Hc; simpl; [done |].
  apply IH; [done | | done]. by apply fill_row_protected.
Qed.

Lemma foldl_fill_outside_mask rows : forall st p v,
  choice_ok choice ->
  valid_mask = Some v -> v !! p <> Some true ->
  band1 (grid (foldl fill st rows)) !! p = band1 (grid st) !! p.
Proof.
  induction rows as [|row rows IH]; intros st p v Hok Hv Hp; simpl; [done |].
  rewrite (IH _ p v) by done. by apply (fill_row_outside_mask _ _ _ v).
Qed.

End FillRow.

Lemma band1_preserve_label label_to_code df_muni g lbl :
  band1 (preserve_label label_to_code df_muni g lbl) = band1 g.
Proof.
  unfold preserve_label. destruct (label_to_code !! lbl); [| done].
  by destruct (List.filter _ df_muni).
Qed.

Lemma band1_rule1 label_to_code df_muni g :
  band1 (rule1 label_to_code df_muni g) = band1 g.
Proof.
  unfold rule1. generalize (sorted_keys (map Label df_muni)). intros ks.
  revert g. induction ks as [|k ks IH]; intros g; simpl; [done |].
  by rewrite IH, band1_preserve_label.
Qed.


(** *** Protected cells *)

Lemma assign_within_muni_protected {G} (choice : G -> nat -> nat -> list nat * G)
    b1 b2 df_muni label_to_code protected rng0 valid_mask p c :
  choice_ok choice ->
  b1 !! p = Some c -> c ∈ protected ->
  (assign_within_muni choice b1 b2 df_muni label_to_code protected rng0
                      valid_mask).1.1.1 !! p = Some c.
Proof.
  intros Hok Hp Hc. unfold assign_within_muni. simpl.
  apply foldl_fill_protected; [done | | done].
  simpl. by rewrite band1_rule1.
Qed.

Lemma to_uint16_protected c : c ∈ protected_codes -> to_uint16 c = c.
Proof.
  unfold protected_codes. rewrite !elem_of_union, !elem_of_singleton.
  intros H. repeat destruct H as [H|H]; by subst c.
Qed.

(** Whatever the targets, the mask, the deficits and the random draws, a
    cell whose source code is protected has that same code in the category
    band that comes back from [assign_within_muni], for any protected set,
    and in the band that [process_by_municipality] writes to the output
    raster for the window, for its fixed protected set. *)
Lemma protected_cells_keep_code {G} (choice : G -> nat -> nat -> list nat * G) :
  choice_ok choice ->
  (forall b1 b2 df_muni label_to_code protected rng0 valid_mask p c,
     b1 !! p = Some c -> c ∈ protected ->
     (assign_within_muni choice b1 b2 df_muni label_to_code protected rng0
                         valid_mask).1.1.1 !! p = Some c) /\
  (forall muni_name band1_chunk mask_geom df_muni label_to_code rng0 out p c,
     process_window choice muni_name band1_chunk mask_geom df_muni
                    label_to_code rng0 = Some out ->
     band1_chunk !! p = Some c -> c ∈ protected_codes ->
     out.1.1.1 !! p = Some c).
Proof.
  intros Hok. split.
  - intros. by apply assign_within_muni_protected.
  - intros muni_name band1_chunk mask_geom df_muni label_to_code rng0 out p c
           Hout Hp Hc.
    unfold process_window in Hout.
    destruct df_muni as [|t ts]; [done |].
    destruct (forallb (Z.eqb 0) band1_chunk); [done |].
    pose proof (assign_within_muni_protected choice band1_chunk
                  (replicate (length band1_chunk) (-9999.0)) (t :: ts)
                  label_to_code protected_codes rng0 (Some mask_geom) p c
                  Hok Hp Hc) as Hkeep.
    destruct (assign_within_muni _ _ _ _ _ _ _ _) as [[[b1' b2'] log] rng'].
    injection Hout as <-. simpl in *.
    rewrite list_lookup_fmap, Hkeep. simpl. by rewrite to_uint16_protected.
Qed.

(** *** Filling a deficit *)

(** With an empty pool a positive deficit leaves no record in the log. *)
Lemma empty_pool_is_not_logged :
  let b1 := [10]%Z in
  let deficit := (py_round (aci_pixels (wheat_target 1)) - count_code 146 b1)%Z in
  let pool := argwhere (cand_mask protected_codes
                (grid (start_state b1 [-9999.0] [wheat_target 1] example_codes tt))
                (Some [true])) in
  let log := (assign_within_muni first_k b1 [-9999.0] [wheat_target 1]
                example_codes protected_codes tt (Some [true])).1.2 in
  (0 < deficit)%Z /\
  ~ (exists e, e ∈ log /\
               newly_assigned e = Z.min deficit (Z.of_nat (length pool))).
Proof.
  vm_compute. split; [reflexivity |]. intros (e & He & _).
  by apply elem_of_nil in He.
Qed.


(** *** The count of existing cells *)

(** C10 (as amended).  Let [st] be the state in which a row of the target
    table is processed, after any number of earlier rows [pre].  A record
    logged for the row carries as [existing_pixels] the number of cells of
    the entire window whose code in the category band of [st] equals the
    row's code; the geometry mask plays no part in the count.  Outside the
    mask that band still holds the source codes, inside it a cell may hold
    a code written by an earlier row.  The cells the row newly assigns all
    lie inside the mask. *)
Theorem existing_count_over_window {G} (choice : G -> nat -> nat -> list nat * G)
    b1 b2 df_muni label_to_code protected rng0 mask_geom pre row :
  choice_ok choice ->
  let fill := fill_row choice label_to_code protected (Some mask_geom) in
  let st := foldl fill (start_state b1 b2 df_muni label_to_code rng0) pre in
  let st' := fill st row in
  (forall e, assigned_log st' = assigned_log st ++ [e] ->
     existing_pixels e = count_code (log_Code e) (band1 (grid st))) /\
  (forall p, mask_geom !! p <> Some true -> band1 (grid st) !! p = b1 !! p) /\
  (forall p, band1 (grid st') !! p <> band1 (grid st) !! p ->
     mask_geom !! p = Some true).
Proof.
  intros Hok fill st st'. split_and!.
  - intros e He. unfold st' in He.
    destruct (fill_row_cases choice label_to_code protected (Some mask_geom)
                st row Hok) as [Hsame|(code & sel & n & _ & _ & _ & _ & Hlog)].
    + unfold fill in He. rewrite Hsame in He.
      apply (f_equal length) in He. rewrite length_app in He. simpl in He. lia.
    + unfold fill in He. rewrite Hlog in He.
      apply app_inv_head in He. injection He as <-. done.
  - intros p Hp. unfold st.
    rewrite (foldl_fill_outside_mask choice label_to_code protected
               (Some mask_geom) pre _ p mask_geom) by done.
    unfold start_state. simpl. by rewrite band1_rule1.
  - intros p Hp. destruct (decide (mask_geom !! p = Some true)) as [|Hn]; [done |].
    exfalso. apply Hp. unfold st'.
    by apply (fill_row_outside_mask choice label_to_code protected
                (Some mask_geom) st row p mask_geom).
Qed.

Lemma existing_count_over_window_witness :
  let b1 := [146; 0; 0]%Z in
  let st := start_state b1 [-9999.0; -9999.0; -9999.0]
                        [wheat_target 2] example_codes tt in
  let st' := fill_row first_k example_codes protected_codes
                      (Some [false; true; true]) st (wheat_target 2) in
  let e := entry_of (wheat_target 2) 146 1 1 in
  assigned_log st' = assigned_log st ++ [e] /\
  existing_pixels e = count_code (log_Code e) b1 /\
  band1 (grid st') = [146; 146; 0]%Z.
Proof.
  intros b1 st st' e.
  assert (He : assigned_log st' = assigned_log st ++ [e]) by reflexivity.
  split; [exact He |]. split; [| reflexivity].
  exact (proj1 (existing_count_over_window first_k b1
                  [-9999.0; -9999.0; -9999.0] [wheat_target 2] example_codes
                  protected_codes tt [false; true; true] [] (wheat_target 2)
                  first_k_ok) e He).
Defined.

(** A second row of the same label counts the cells that the first row
    has just assigned, which the source grid does not hold. *)
Lemma existing_count_includes_new_cells :
  let b1 := [7; 0; 0]%Z in
  let log := (assign_within_muni first_k b1 [-9999.0; -9999.0; -9999.0]
                [wheat_target 1; wheat_target 2] example_codes
                protected_codes tt (Some [true; true; true])).1.2 in
  map existing_pixels log = [0; 1]%Z /\
  ~ Forall (fun e => existing_pixels e = count_code (log_Code e) b1) log.
Proof.
  vm_compute. split; [reflexivity |]. intros H.
  apply Forall_cons in H as [_ H]. apply Forall_cons in H as [H _].
  discriminate H.
Qed.

End MaterializerFacts.

(** ** More on the Pixel Materializer *)

Module MaterializerMore.

Import Num NumFacts Materializer MaterializerFacts.
Local Open Scope Q_scope.

(** *** Rule 1 *)

Section Rule1.

Context (label_to_code : gmap string Z) (df_muni : list Target).

Lemma assigned_preserve_label g lbl p c a :
  band1 g !! p = Some c -> assigned_mask g !! p = Some a ->
  assigned_mask (preserve_label label_to_code df_muni g lbl) !! p =
    Some (a || marks label_to_code df_muni lbl c).
Proof.
  intros Hc Ha. unfold preserve_label, marks.
  destruct (label_to_code !! lbl) as [code|]; [| by rewrite orb_false_r].
  destruct (List.filter _ df_muni) as [|t ts]; [by rewrite orb_false_r |].
  simpl. unfold set_where.
  rewrite lookup_zip_with, list_lookup_fmap, Hc, Ha. simpl.
  by destruct (code =? c)%Z, a.
Qed.

Lemma assigned_foldl_preserve ks : forall g p c a,
  band1 g !! p = Some c -> assigned_mask g !! p = Some a ->
  assigned_mask (foldl (preserve_label label_to_code df_muni) g ks) !! p =
    Some (a || existsb (fun lbl => marks label_to_code df_muni lbl c) ks).
Proof.
  induction ks as [|k ks IH]; intros g p c a Hc Ha; simpl.
  { by rewrite orb_false_r. }
  rewrite (IH _ p c (a || marks label_to_code df_muni k c)).
  - by rewrite orb_assoc.
  - by rewrite band1_preserve_label.
  - by apply assigned_preserve_label.
Qed.

(** After Rule 1 a cell is marked as assigned exactly when it was marked
    before or holds the code of a label of the table. *)
Lemma assigned_rule1 g p c a :
  band1 g !! p = Some c -> assigned_mask g !! p = Some a ->
  target_code label_to_code df_muni c ->
  assigned_mask (rule1 label_to_code df_muni g) !! p = Some true.
Proof.
  intros Hc Ha (t & Ht & Hcode). unfold rule1.
  rewrite (assigned_foldl_preserve _ g p c a Hc Ha).
  assert (existsb (fun lbl => marks label_to_code df_muni lbl c)
                  (sorted_keys (map Label df_muni)) = true)
    as ->; [| by rewrite orb_true_r].
  apply existsb_exists. exists (Label t). split.
  - apply list_elem_of_In, KeyFacts.elem_of_sorted_keys, list_elem_of_fmap. eauto.
  - unfold marks. rewrite Hcode.
    destruct (List.filter _ df_muni) as [|t' ts] eqn:E.
    + exfalso. assert (Hin : In t (List.filter
        (fun t' => String.eqb (Label t') (Label t)) df_muni)).
      { apply filter_In. split; [by apply list_elem_of_In | apply String.eqb_refl]. }
      by rewrite E in Hin.
    + apply Z.eqb_refl.
Qed.

Lemma length_band2_preserve_label g lbl :
  length (band2 g) = length (band1 g) ->
  length (band2 (preserve_label label_to_code df_muni g lbl)) = length (band2 g).
Proof.
  intros Hlen. unfold preserve_label.
  destruct (label_to_code !! lbl) as [code|]; [| done].
  destruct (List.filter _ df_muni) as [|t ts]; [done |].
  simpl. unfold set_where. rewrite length_zip_with, length_map. lia.
Qed.

Lemma length_band2_rule1 g :
  length (band2 g) = length (band1 g) ->
  length (band2 (rule1 label_to_code df_muni g)) = length (band2 g).
Proof.
  unfold rule1. generalize (sorted_keys (map Label df_muni)). intros ks.
  revert g. induction ks as [|k ks IH]; intros g Hlen; simpl; [done |].
  rewrite IH.
  - by apply length_band2_preserve_label.
  - rewrite band1_preserve_label, length_band2_preserve_label; done.
Qed.

Lemma length_assigned_preserve_label g lbl :
  length (assigned_mask g) = length (band1 g) ->
  length (assigned_mask (preserve_label label_to_code df_muni g lbl)) =
    length (assigned_mask g).
Proof.
  intros Hlen. unfold preserve_label.
  destruct (label_to_code !! lbl) as [code|]; [| done].
  destruct (List.filter _ df_muni) as [|t ts]; [done |].
  simpl. unfold set_where. rewrite length_zip_with, length_map. lia.
Qed.

(** Rule 1 writes values only on cells that it marks and that hold the
    code of the group's label. *)
Lemma values_preserve_label g lbl :
  length (assigned_mask g) = length (band1 g) ->
  values_on_targets label_to_code df_muni g ->
  values_on_targets label_to_code df_muni
    (preserve_label label_to_code df_muni g lbl).
Proof.
  intros Hlen HV p v Hp.
  pose proof (band1_preserve_label label_to_code df_muni g lbl) as Hb1.
  rewrite Hb1.
  assert (Hkeep : forall c a, band1 g !! p = Some c ->
            assigned_mask g !! p = Some a ->
            assigned_mask (preserve_label label_to_code df_muni g lbl) !! p =
              Some (a || marks label_to_code df_muni lbl c)).
  { intros c a. apply assigned_preserve_label. }
  unfold preserve_label in Hp. unfold marks in Hkeep.
  destruct (label_to_code !! lbl) as [code|] eqn:Hcode.
  2:{ destruct (HV p v Hp) as [->|(c & Hc & Ha & Hr)]; [by left | right].
      exists c. split_and!; [done | | done].
      rewrite (Hkeep c true Hc Ha). done. }
  destruct (List.filter _ df_muni) as [|t ts] eqn:E.
  { destruct (HV p v Hp) as [->|(c & Hc & Ha & Hr)]; [by left | right].
    exists c. split_and!; [done | | done].
    rewrite (Hkeep c true Hc Ha). done. }
  simpl in Hp. unfold set_where in Hp.
  apply lookup_zip_with_Some in Hp as (m & x & -> & Hm & Hx).
  rewrite list_lookup_fmap in Hm.
  destruct (band1 g !! p) as [c|] eqn:Hc; [| done]. simpl in Hm.
  injection Hm as <-.
  assert (Ha : exists a, assigned_mask g !! p = Some a).
  { apply lookup_lt_is_Some_2. rewrite Hlen. by eapply lookup_lt_Some. }
  destruct Ha as [a Ha].
  destruct (code =? c)%Z eqn:Ec.
  - right. exists c. split_and!; [done | |].
    + rewrite (Hkeep c a eq_refl Ha), Ec. by rewrite orb_true_r.
    + apply Z.eqb_eq in Ec. subst c.
      assert (Hin : In t (List.filter (fun t => String.eqb (Label t) lbl) df_muni))
        by (rewrite E; by left).
      apply filter_In in Hin as [Hin Hl]. apply String.eqb_eq in Hl.
      subst lbl. exists t. split; [by apply list_elem_of_In | by left].
  - destruct (HV p x Hx) as [->|(c' & Hc' & Ha' & Hr)]; [by left | right].
    assert (c' = c) as -> by congruence.
    exists c. split_and!; [done | | done].
    rewrite (Hkeep c true eq_refl Ha'). done.
Qed.

Lemma values_rule1 g :
  length (assigned_mask g) = length (band1 g) ->
  values_on_targets label_to_code df_muni g ->
  length (assigned_mask (rule1 label_to_code df_muni g)) = length (band1 g) /\
  values_on_targets label_to_code df_muni (rule1 label_to_code df_muni g).
Proof.
  unfold rule1. generalize (sorted_keys (map Label df_muni)). intros ks.
  revert g. induction ks as [|k ks IH]; intros g Hlen HV; simpl; [done |].
  destruct (IH (preserve_label label_to_code df_muni g k)) as [H1 H2].
  - rewrite band1_preserve_label, length_assigned_preserve_label; done.
  - by apply values_preserve_label.
  - split; [| done]. by rewrite H1, band1_preserve_label.
Qed.

End Rule1.

(** *** Rule 2 *)

Section FillMore.

Context {G : Type} (choice : G -> nat -> nat -> list nat * G).
Context (label_to_code : gmap string Z) (protected : gset Z)
        (valid_mask : option (list bool)).

Local Abbreviation fill := (fill_row choice label_to_code protected valid_mask).

(** One row of Rule 2 either leaves the state alone or fills the drawn
    cells. *)
Lemma fill_row_step st row :
  choice_ok choice ->
  fill st row = st \/
  exists code sel,
    let required := py_round (aci_pixels row) in
    let current := count_code code (band1 (grid st)) in
    let pool := argwhere (cand_mask protected (grid st) valid_mask) in
    let n := Z.min (required - current) (Z.of_nat (length pool)) in
    label_to_code !! strip (Label row) = Some code /\
    (0 < required)%Z /\ (0 < required - current)%Z /\ pool <> [] /\
    NoDup sel /\ (forall p, p ∈ sel -> p ∈ pool) /\
    Z.of_nat (length sel) = n /\
    filled_with st row code sel n (fill st row).
Proof.
  intros Hok.
  destruct (label_to_code !! strip (Label row)) as [code|] eqn:Hcode.
  2:{ left. unfold fill_row. by rewrite Hcode. }
  destruct (Z.leb_spec (py_round (aci_pixels row)) 0) as [Hreq|Hreq].
  { left. unfold fill_row. rewrite Hcode.
    by assert ((py_round (aci_pixels row) <=? 0)%Z = true) as -> by lia. }
  destruct (Z.leb_spec (py_round (aci_pixels row)
                        - count_code code (band1 (grid st))) 0) as [Hdef|Hdef].
  { left. unfold fill_row. rewrite Hcode.
    assert ((py_round (aci_pixels row) <=? 0)%Z = false) as -> by lia.
    by assert ((py_round (aci_pixels row)
                - count_code code (band1 (grid st)) <=? 0)%Z = true) as -> by lia. }
  destruct (fill_row_spec choice label_to_code protected valid_mask
              st row code Hok Hcode Hreq Hdef) as [Hnil Hcons].
  destruct (argwhere (cand_mask protected (grid st) valid_mask)) as [|c0 cs] eqn:E.
  { left. by apply Hnil. }
  right. destruct Hcons as (_ & sel & H1 & H2 & H3 & H4); [done |].
  exists code, sel. simpl. split_and!; try done.
Qed.

(** A cell marked as assigned stays marked and keeps its code. *)
Lemma fill_row_assigned st row p :
  choice_ok choice ->
  assigned_mask (grid st) !! p = Some true ->
  assigned_mask (grid (fill st row)) !! p = Some true /\
  band1 (grid (fill st row)) !! p = band1 (grid st) !! p.
Proof.
  intros Hok Hp.
  destruct (fill_row_cases choice label_to_code protected valid_mask st row Hok)
    as [->|(code & sel & n & _ & _ & Hsel & Hg & _)]; [done |].
  rewrite Hg. simpl. split; [by apply set_at_keeps |].
  apply set_at_lookup_notin. intros Hin.
  apply Hsel, elem_of_argwhere, cand_mask_true in Hin as (Hf & _). congruence.
Qed.

Lemma foldl_fill_assigned rows : forall st p,
  choice_ok choice ->
  assigned_mask (grid st) !! p = Some true ->
  assigned_mask (grid (foldl fill st rows)) !! p = Some true /\
  band1 (grid (foldl fill st rows)) !! p = band1 (grid st) !! p.
Proof.
  induction rows as [|row rows IH]; intros st p Hok Hp; simpl; [done |].
  destruct (fill_row_assigned st row p Hok Hp) as [Ha Hb].
  destruct (IH (fill st row) p Hok Ha) as [Ha' Hb'].
  split; [done | congruence].
Qed.

(** A cell written by a row is marked as assigned. *)
Lemma fill_row_marks_changed st row p :
  choice_ok choice ->
  band1 (grid (fill st row)) !! p <> band1 (grid st) !! p ->
  assigned_mask (grid (fill st row)) !! p = Some true.
Proof.
  intros Hok Hp.
  destruct (fill_row_cases choice label_to_code protected valid_mask st row Hok)
    as [E|(code & sel & n & _ & _ & Hsel & Hg & _)].
  { by rewrite E in Hp. }
  rewrite Hg in Hp |- *. simpl in *.
  destruct (decide (p ∈ sel)) as [Hin|Hnot].
  - apply set_at_lookup_in; [done |].
    apply Hsel, elem_of_argwhere, cand_mask_true in Hin as (Hf & _).
    by eapply lookup_lt_Some.
  - by rewrite set_at_lookup_notin in Hp.
Qed.

(** The codes Rule 2 writes are codes of rows it has processed. *)
Lemma foldl_fill_codes rows : forall st p c,
  choice_ok choice ->
  band1 (grid (foldl fill st rows)) !! p = Some c ->
  band1 (grid st) !! p = Some c \/
  exists t, t ∈ rows /\ label_to_code !! strip (Label t) = Some c /\
            (0 < py_round (aci_pixels t))%Z.
Proof.
  induction rows as [|row rows IH]; intros st p c Hok Hp; simpl in *; [by left |].
  destruct (IH _ p c Hok Hp) as [H|(t & Ht & H)].
  2:{ right. exists t. split; [by right | done]. }
  destruct (fill_row_step st row Hok)
    as [E|(code & sel & Hcode & Hreq & _ & _ & _ & _ & _ & Hg & _)].
  { left. by rewrite E in H. }
  rewrite Hg in H. simpl in H.
  destruct (decide (p ∈ sel)) as [Hin|Hnot].
  - right. exists row. split; [by left |]. split; [| done].
    assert (Hlt : (p < length (band1 (grid st)))%nat).
    { apply lookup_lt_Some in H. by rewrite length_set_at in H. }
    rewrite set_at_lookup_in in H by done. congruence.
  - left. by rewrite set_at_lookup_notin in H.
Qed.

(** Every record Rule 2 appends has consistent counts. *)
Lemma fill_row_log_ok st row :
  Forall log_ok (assigned_log st) ->
  Forall log_ok (assigned_log (fill st row)).
Proof.
  intros H. unfold fill_row.
  destruct (label_to_code !! strip (Label row)) as [code|]; [| done].
  destruct (_ <=? 0)%Z eqn:E1; [done |].
  destruct (_ - _ <=? 0)%Z eqn:E2; [done |].
  destruct (argwhere _) as [|c0 cs] eqn:E; [done |].
  destruct (choice _ _ _) as [idx rng']. simpl.
  apply Forall_app. split; [done |]. constructor; [| done].
  unfold log_ok, count_code in *. simpl length in *. simpl. lia.
Qed.

Lemma foldl_fill_log_ok rows : forall st,
  Forall log_ok (assigned_log st) ->
  Forall log_ok (assigned_log (foldl fill st rows)).
Proof.
  induction rows as [|row rows IH]; intros st H; simpl; [done |].
  by apply IH, fill_row_log_ok.
Qed.

Lemma length_fill_row st row :
  choice_ok choice ->
  length (band1 (grid (fill st row))) = length (band1 (grid st)) /\
  length (band2 (grid (fill st row))) = length (band2 (grid st)).
Proof.
  intros Hok.
  destruct (fill_row_cases choice label_to_code protected valid_mask st row Hok)
    as [->|(code & sel & n & _ & _ & _ & Hg & _)]; [done |].
  rewrite Hg. simpl. by rewrite !length_set_at.
Qed.

Lemma length_foldl_fill rows : forall st,
  choice_ok choice ->
  length (band1 (grid (foldl fill st rows))) = length (band1 (grid st)) /\
  length (band2 (grid (foldl fill st rows))) = length (band2 (grid st)).
Proof.
  induction rows as [|row rows IH]; intros st Hok; simpl; [done |].
  destruct (IH (fill st row) Hok) as [-> ->]. by apply length_fill_row.
Qed.

(** Rule 2 writes a value only together with the code of its row. *)
Lemma fill_row_values df_muni st row :
  choice_ok choice -> row ∈ df_muni ->
  values_on_targets label_to_code df_muni (grid st) ->
  values_on_targets label_to_code df_muni (grid (fill st row)).
Proof.
  intros Hok Hrow HV.
  destruct (fill_row_cases choice label_to_code protected valid_mask st row Hok)
    as [->|(code & sel & n & Hcode & _ & Hsel & Hg & _)]; [done |].
  rewrite Hg. intros p v Hp. cbn [band1 band2 assigned_mask] in *.
  destruct (decide (p ∈ sel)) as [Hin|Hnot].
  - right. pose proof Hin as Hcand.
    apply Hsel, elem_of_argwhere, cand_mask_true in Hcand
      as (Hf & (c0 & Hc0 & _) & _).
    exists code. split_and!.
    + apply set_at_lookup_in; [done |]. by eapply lookup_lt_Some.
    + apply set_at_lookup_in; [done |]. by eapply lookup_lt_Some.
    + exists row. split; [done | by right].
  - rewrite set_at_lookup_notin in Hp by done.
    rewrite !set_at_lookup_notin by done. by apply HV.
Qed.

Lemma foldl_fill_values_on_targets df_muni rows : forall st,
  choice_ok choice -> (forall t, t ∈ rows -> t ∈ df_muni) ->
  values_on_targets label_to_code df_muni (grid st) ->
  values_on_targets label_to_code df_muni (grid (foldl fill st rows)).
Proof.
  induction rows as [|row rows IH]; intros st Hok Hsub HV; simpl; [done |].
  apply IH; [done | |].
  - intros t Ht. apply Hsub. by right.
  - apply fill_row_values; [done | | done]. apply Hsub. by left.
Qed.

(** Rule 2 keeps every cell of a target code marked as assigned. *)
Lemma fill_row_targets_assigned df_muni st row :
  choice_ok choice ->
  targets_assigned label_to_code df_muni (grid st) ->
  targets_assigned label_to_code df_muni (grid (fill st row)).
Proof.
  intros Hok HI.
  destruct (fill_row_cases choice label_to_code protected valid_mask st row Hok)
    as [->|(code & sel & n & _ & _ & Hsel & Hg & _)]; [done |].
  rewrite Hg. intros p c Hp Hc. cbn [band1 assigned_mask] in *.
  destruct (decide (p ∈ sel)) as [Hin|Hnot].
  - apply set_at_lookup_in; [done |].
    apply Hsel, elem_of_argwhere, cand_mask_true in Hin as (Hf & _).
    by eapply lookup_lt_Some.
  - rewrite set_at_lookup_notin in Hp by done.
    rewrite set_at_lookup_notin by done. by apply (HI p c).
Qed.

Lemma foldl_fill_targets_assigned df_muni rows : forall st,
  choice_ok choice ->
  targets_assigned label_to_code df_muni (grid st) ->
  targets_assigned label_to_code df_muni (grid (foldl fill st rows)).
Proof.
  induction rows as [|row rows IH]; intros st Hok HI; simpl; [done |].
  by apply IH, fill_row_targets_assigned.
Qed.

End FillMore.

(** *** Counting *)

Lemma count_code_app code l1 l2 :
  count_code code (l1 ++ l2) = (count_code code l1 + count_code code l2)%Z.
Proof. unfold count_code. rewrite List.filter_app, length_app. lia. Qed.

Lemma count_code_insert code b p c :
  b !! p = Some c -> c <> code ->
  count_code code (<[p:=code]> b) = (count_code code b + 1)%Z.
Proof.
  intros Hp Hc.
  rewrite insert_take_drop by (by eapply lookup_lt_Some).
  rewrite <- (take_drop_middle b p c Hp) at 3.
  rewrite !count_code_app. unfold count_code. simpl.
  rewrite Z.eqb_refl. assert ((code =? c)%Z = false) as -> by lia.
  simpl length. lia.
Qed.

Lemma count_code_set_at code sel : forall b,
  NoDup sel ->
  (forall p, p ∈ sel -> exists c, b !! p = Some c /\ c <> code) ->
  count_code code (set_at sel code b) =
    (count_code code b + Z.of_nat (length sel))%Z.
Proof.
  induction sel as [|s sel IH]; intros b Hnd Hsel.
  { unfold set_at. simpl. lia. }
  apply NoDup_cons in Hnd as [Hs Hnd].
  change (set_at (s :: sel) code b) with (set_at sel code (<[s:=code]> b)).
  rewrite IH; [| done |].
  - destruct (Hsel s) as (c & Hc & Hne); [by left |].
    rewrite (count_code_insert code b s c Hc Hne). simpl length. lia.
  - intros p Hp. destruct (Hsel p) as (c & Hc & Hne); [by right |].
    exists c. split; [| done].
    rewrite list_lookup_insert_ne; [done |]. intros ->. done.
Qed.

(** *** The whole pass *)

Lemma start_state_targets_assigned {G} b1 b2 df_muni label_to_code (rng0 : G) :
  targets_assigned label_to_code df_muni
    (grid (start_state b1 b2 df_muni label_to_code rng0)).
Proof.
  intros p c Hp Hc. simpl in *. rewrite band1_rule1 in Hp. simpl in Hp.
  apply (assigned_rule1 label_to_code df_muni _ p c false); [done | | done].
  simpl. apply lookup_replicate_2. by eapply lookup_lt_Some.
Qed.

Lemma assign_keeps_target_coded {G} (choice : G -> nat -> nat -> list nat * G)
    b1 b2 df_muni label_to_code protected rng0 valid_mask p c :
  choice_ok choice ->
  b1 !! p = Some c -> target_code label_to_code df_muni c ->
  (assign_within_muni choice b1 b2 df_muni label_to_code protected rng0
                      valid_mask).1.1.1 !! p = Some c.
Proof.
  intros Hok Hp Hc. unfold assign_within_muni. simpl.
  pose proof (start_state_targets_assigned b1 b2 df_muni label_to_code rng0) as HI.
  unfold start_state in HI.
  set (st := mkRun _ [] rng0) in *.
  assert (Hb : band1 (grid st) !! p = Some c).
  { unfold st. simpl. by rewrite band1_rule1. }
  destruct (foldl_fill_assigned choice label_to_code protected valid_mask
              df_muni st p Hok (HI p c Hb Hc)) as [_ ->].
  exact Hb.
Qed.

(** X16.  A pixel whose source code is the code of one of the
    municipality's labels keeps that code: Rule 1 marks it as assigned and
    the deficit fill never draws it. *)
Theorem target_coded_cells_kept {G} (choice : G -> nat -> nat -> list nat * G)
    b1 b2 df_muni label_to_code protected rng0 valid_mask p c :
  choice_ok choice ->
  b1 !! p = Some c -> target_code label_to_code df_muni c ->
  (assign_within_muni choice b1 b2 df_muni label_to_code protected rng0
                      valid_mask).1.1.1 !! p = Some c.
Proof. apply assign_keeps_target_coded. Qed.

Lemma target_coded_cells_kept_witness :
  (assign_within_muni first_k [146; 0; 7]%Z [-9999.0; -9999.0; -9999.0]
     [wheat_target 3] example_codes protected_codes tt None).1.1.1 !! 0%nat
  = Some 146%Z.
Proof.
  apply (target_coded_cells_kept first_k [146; 0; 7]%Z
           [-9999.0; -9999.0; -9999.0] [wheat_target 3] example_codes
           protected_codes tt None 0%nat 146%Z first_k_ok eq_refl).
  exists (wheat_target 3). split; [by left | reflexivity].
Defined.

(** X17.  A pixel whose code in the returned category band differs from
    its source code was not protected, did not hold the code of a label of
    the table, lies inside the geometry mask when one is given, and now
    holds the code of a target row that requires at least one pixel. *)
Theorem changed_cells_take_a_row_code {G}
    (choice : G -> nat -> nat -> list nat * G)
    b1 b2 df_muni label_to_code protected rng0 valid_mask p c c' :
  choice_ok choice ->
  b1 !! p = Some c ->
  (assign_within_muni choice b1 b2 df_muni label_to_code protected rng0
                      valid_mask).1.1.1 !! p = Some c' ->
  c' <> c ->
  (exists t, t ∈ df_muni /\ label_to_code !! strip (Label t) = Some c' /\
             (0 < py_round (aci_pixels t))%Z) /\
  (c ∉ protected) /\
  ~ target_code label_to_code df_muni c /\
  (forall v, valid_mask = Some v -> v !! p = Some true).
Proof.
  intros Hok Hp Hout Hne. split_and!.
  - unfold assign_within_muni in Hout. simpl in Hout.
    apply foldl_fill_codes in Hout as [H|H]; [| done | done].
    simpl in H. rewrite band1_rule1 in H. simpl in H. congruence.
  - intros Hc.
    pose proof (assign_within_muni_protected choice b1 b2 df_muni label_to_code
                  protected rng0 valid_mask p c Hok Hp Hc) as H.
    congruence.
  - intros Hc.
    pose proof (assign_keeps_target_coded choice b1 b2 df_muni label_to_code
                  protected rng0 valid_mask p c Hok Hp Hc) as H.
    congruence.
  - intros v Hv. destruct (decide (v !! p = Some true)) as [|Hn]; [done |].
    exfalso. unfold assign_within_muni in Hout. simpl in Hout.
    rewrite (foldl_fill_outside_mask choice label_to_code protected valid_mask
               df_muni _ p v Hok Hv Hn) in Hout.
    simpl in Hout. rewrite band1_rule1 in Hout. simpl in Hout. congruence.
Qed.

Lemma changed_cells_take_a_row_code_witness :
  exists t, t ∈ [wheat_target 3] /\
            example_codes !! strip (Label t) = Some 146%Z /\
            (0 < py_round (aci_pixels t))%Z.
Proof.
  apply (changed_cells_take_a_row_code first_k [146; 0; 7]%Z
           [-9999.0; -9999.0; -9999.0] [wheat_target 3] example_codes
           protected_codes tt None 1%nat 0%Z 146%Z first_k_ok eq_refl eq_refl).
  discriminate.
Defined.

(** X18.  The deficit fill assigns a pixel at most once: a cell that a
    row has just written keeps that code through all later rows. *)
Theorem filled_cells_never_rewritten {G}
    (choice : G -> nat -> nat -> list nat * G)
    label_to_code protected valid_mask st row rows p :
  choice_ok choice ->
  let fill := fill_row choice label_to_code protected valid_mask in
  band1 (grid (fill st row)) !! p <> band1 (grid st) !! p ->
  band1 (grid (foldl fill (fill st row) rows)) !! p =
    band1 (grid (fill st row)) !! p.
Proof.
  intros Hok fill Hp.
  apply foldl_fill_assigned; [done |].
  by apply fill_row_marks_changed.
Qed.

Lemma filled_cells_never_rewritten_witness :
  let fill := fill_row first_k example_codes protected_codes None in
  let st := start_state [0; 0; 7]%Z [-9999.0; -9999.0; -9999.0]
                        [wheat_target 1; wheat_target 2] example_codes tt in
  band1 (grid (foldl fill (fill st (wheat_target 1)) [wheat_target 2])) !! 0%nat =
    Some 146%Z.
Proof.
  intros fill st.
  refine (eq_trans (filled_cells_never_rewritten first_k example_codes
            protected_codes None st (wheat_target 1) [wheat_target 2] 0%nat
            first_k_ok _) _).
  - vm_compute. discriminate.
  - reflexivity.
Defined.

(** X19.  With labels free of surrounding white space, the total a log
    record reports is the true count: right after a row of the table is
    processed and logged, the number of window pixels that hold the row's
    code equals the record's [total_assigned], existing plus newly
    assigned. *)
Theorem log_total_is_true_count {G} (choice : G -> nat -> nat -> list nat * G)
    b1 b2 df_muni label_to_code protected rng0 valid_mask pre row post e :
  choice_ok choice ->
  stripped df_muni ->
  df_muni = pre ++ row :: post ->
  let fill := fill_row choice label_to_code protected valid_mask in
  let st := foldl fill (start_state b1 b2 df_muni label_to_code rng0) pre in
  let st' := fill st row in
  assigned_log st' = assigned_log st ++ [e] ->
  count_code (log_Code e) (band1 (grid st')) = total_assigned e /\
  total_assigned e = (existing_pixels e + newly_assigned e)%Z.
Proof.
  intros Hok Hstr Hdf fill st st' He.
  assert (Hrow : row ∈ df_muni) by (rewrite Hdf; set_solver).
  assert (HI : targets_assigned label_to_code df_muni (grid st)).
  { apply foldl_fill_targets_assigned; [done |].
    apply start_state_targets_assigned. }
  destruct (fill_row_step choice label_to_code protected valid_mask st row Hok)
    as [E|(code & sel & Hcode & _ & _ & _ & Hnd & Hsel & Hlen & Hg & Hlog)].
  { exfalso. unfold st', fill in He. rewrite E in He.
    apply (f_equal length) in He. rewrite length_app in He. simpl in He. lia. }
  unfold st', fill in He |- *. rewrite Hlog in He.
  apply app_inj_tail in He as [_ <-]. rewrite Hg. simpl.
  split; [| done].
  rewrite count_code_set_at; [lia | done |].
  intros p Hp.
  apply Hsel, elem_of_argwhere, cand_mask_true in Hp as (Hf & (c & Hc & _) & _).
  exists c. split; [done |]. intros ->.
  assert (Ht : target_code label_to_code df_muni code).
  { exists row. split; [done |].
    unfold stripped in Hstr. rewrite Forall_forall in Hstr.
    by rewrite <- (Hstr row Hrow). }
  specialize (HI p code Hc Ht). congruence.
Qed.

Lemma log_total_is_true_count_witness :
  let st := start_state [146; 0; 0]%Z [-9999.0; -9999.0; -9999.0]
                        [wheat_target 2] example_codes tt in
  let st' := fill_row first_k example_codes protected_codes
                      (Some [false; true; true]) st (wheat_target 2) in
  count_code 146 (band1 (grid st')) = 2%Z.
Proof.
  intros st st'.
  refine (proj1 (log_total_is_true_count first_k [146; 0; 0]%Z
            [-9999.0; -9999.0; -9999.0] [wheat_target 2] example_codes
            protected_codes tt (Some [false; true; true]) [] (wheat_target 2) []
            (entry_of (wheat_target 2) 146 1 1) first_k_ok _ eq_refl _)).
  - repeat constructor.
  - reflexivity.
Defined.

(** X15.  Every record of the assignment log has consistent counts: at
    least one newly assigned pixel, no negative existing count, a total
    equal to existing plus newly assigned, and a total that never exceeds
    the required pixel count.  This holds for the log returned by
    [assign_within_muni] and for the log [process_by_municipality]
    collects for a window, whatever the random draws. *)
Theorem log_records_consistent {G} (choice : G -> nat -> nat -> list nat * G) :
  (forall b1 b2 df_muni label_to_code protected rng0 valid_mask,
     Forall log_ok
       (assign_within_muni choice b1 b2 df_muni label_to_code protected rng0
                           valid_mask).1.2) /\
  (forall muni_name band1_chunk mask_geom df_muni label_to_code rng0 out,
     process_window choice muni_name band1_chunk mask_geom df_muni
                    label_to_code rng0 = Some out ->
     Forall log_ok out.1.2).
Proof.
  assert (H1 : forall b1 b2 df_muni label_to_code protected rng0 valid_mask,
     Forall log_ok
       (assign_within_muni choice b1 b2 df_muni label_to_code protected rng0
                           valid_mask).1.2).
  { intros. unfold assign_within_muni. simpl.
    apply foldl_fill_log_ok. constructor. }
  split; [exact H1 |].
  intros muni_name band1_chunk mask_geom df_muni label_to_code rng0 out Hout.
  unfold process_window in Hout.
  destruct df_muni as [|t ts]; [done |].
  destruct (forallb _ band1_chunk); [done |].
  specialize (H1 band1_chunk (replicate (length band1_chunk) (-9999.0)) (t :: ts)
                 label_to_code protected_codes rng0 (Some mask_geom)).
  destruct (assign_within_muni _ _ _ _ _ _ _ _) as [[[b1 b2] log] rng'].
  injection Hout as <-. simpl in *.
  apply Forall_fmap. eapply Forall_impl; [exact H1 |].
  by intros e He.
Qed.

(** What a window that is not skipped looks like inside
    [process_by_municipality]. *)
Lemma process_window_Some {G} (choice : G -> nat -> nat -> list nat * G)
    muni_name band1_chunk mask_geom df_muni label_to_code rng0 out :
  process_window choice muni_name band1_chunk mask_geom df_muni
                 label_to_code rng0 = Some out ->
  let fill := fill_row choice label_to_code protected_codes (Some mask_geom) in
  let st := foldl fill
              (start_state band1_chunk
                 (replicate (length band1_chunk) (-9999.0)) df_muni
                 label_to_code rng0) df_muni in
  df_muni <> [] /\ forallb (Z.eqb 0) band1_chunk = false /\
  out.1.1.1 = map to_uint16 (band1 (grid st)) /\
  out.1.1.2 = map clean (band2 (grid st)) /\
  out.1.2 = map (rename_muni muni_name) (assigned_log st).
Proof.
  unfold process_window. intros H.
  destruct df_muni as [|t ts]; [done |].
  destruct (forallb _ band1_chunk); [done |].
  unfold assign_within_muni in H. injection H as <-. simpl.
  by split_and!.
Qed.

(** X20.  A window that is processed keeps its shape: the category band
    and the value band written for it have one cell for every cell of the
    window that was read. *)
Theorem window_shape_kept {G} (choice : G -> nat -> nat -> list nat * G)
    muni_name band1_chunk mask_geom df_muni label_to_code rng0 out :
  choice_ok choice ->
  process_window choice muni_name band1_chunk mask_geom df_muni
                 label_to_code rng0 = Some out ->
  length out.1.1.1 = length band1_chunk /\
  length out.1.1.2 = length band1_chunk.
Proof.
  intros Hok Hout.
  apply process_window_Some in Hout as (_ & _ & -> & -> & _).
  rewrite !length_map.
  destruct (length_foldl_fill choice label_to_code protected_codes
              (Some mask_geom) df_muni
              (start_state band1_chunk
                 (replicate (length band1_chunk) (-9999.0)) df_muni
                 label_to_code rng0) Hok) as [-> ->].
  simpl. rewrite band1_rule1, length_band2_rule1; simpl.
  - by rewrite length_replicate.
  - by rewrite length_replicate.
Qed.

Lemma window_shape_kept_witness :
  exists out,
    process_window first_k "Alpha" [10; 0; 7]%Z [true; true; true]
                   [wheat_target 2] example_codes tt = Some out /\
    length out.1.1.1 = 3%nat /\ length out.1.1.2 = 3%nat.
Proof.
  eexists. split; [vm_compute; reflexivity |].
  eapply (window_shape_kept first_k "Alpha"%string [10; 0; 7]%Z
           [true; true; true] [wheat_target 2] example_codes tt _ first_k_ok).
  vm_compute. reflexivity.
Defined.

(** X21.  In a window that is processed, a biomass value is written only
    on a pixel that carries the code of one of the municipality's target
    rows: every cell of the value band that differs from the no-data
    value -9999 belongs to a pixel whose code in the category band is the
    code Rule 1 or Rule 2 looks up for a row of the table. *)
Theorem values_only_on_target_cells {G} (choice : G -> nat -> nat -> list nat * G)
    muni_name band1_chunk mask_geom df_muni label_to_code rng0 out p v :
  choice_ok choice ->
  process_window choice muni_name band1_chunk mask_geom df_muni
                 label_to_code rng0 = Some out ->
  out.1.1.2 !! p = Some v -> ~ v == -9999.0 ->
  exists c, out.1.1.1 !! p = Some (to_uint16 c) /\
            row_code label_to_code df_muni c.
Proof.
  intros Hok Hout Hp Hv.
  apply process_window_Some in Hout as (_ & _ & E1 & E2 & _).
  rewrite E2 in Hp. rewrite E1. clear E1 E2.
  rewrite list_lookup_fmap in Hp.
  destruct (band2 _ !! p) as [x|] eqn:Hx; [| done].
  injection Hp as <-.
  assert (HV : values_on_targets label_to_code df_muni
                 (grid (foldl (fill_row choice label_to_code protected_codes
                                        (Some mask_geom))
                          (start_state band1_chunk
                             (replicate (length band1_chunk) (-9999.0)) df_muni
                             label_to_code rng0) df_muni))).
  { apply foldl_fill_values_on_targets; [done | done |].
    unfold start_state. cbn [grid].
    apply values_rule1; cbn [band1 band2 assigned_mask].
    - by rewrite length_replicate.
    - intros q w Hq. left. by apply lookup_replicate in Hq as [-> _]. }
  destruct (HV p x Hx) as [->|(c & Hc & _ & Hr)].
  - exfalso. apply Hv. reflexivity.
  - exists c. split; [| done]. by rewrite list_lookup_fmap, Hc.
Qed.

Lemma values_only_on_target_cells_witness :
  exists out,
    process_window first_k "Alpha" [10; 0; 7]%Z [true; true; true]
                   [wheat_target 2] example_codes tt = Some out /\
    out.1.1.2 !! 1%nat = Some 3 /\
    exists c, out.1.1.1 !! 1%nat = Some (to_uint16 c) /\
              row_code example_codes [wheat_target 2] c.
Proof.
  eexists. split; [vm_compute; reflexivity |]. split; [reflexivity |].
  eapply (values_only_on_target_cells first_k "Alpha"%string [10; 0; 7]%Z
            [true; true; true] [wheat_target 2] example_codes tt _ 1%nat 3
            first_k_ok).
  - vm_compute. reflexivity.
  - reflexivity.
  - intros H. discriminate H.
Defined.


Lemma log_records_consistent_witness :
  exists out,
    process_window first_k "Alpha" [0; 0; 10]%Z [true; true; true]
                   [wheat_target 5] example_codes tt = Some out /\
    length out.1.2 = 1%nat /\ Forall log_ok out.1.2.
Proof.
  eexists. split; [vm_compute; reflexivity |]. split; [reflexivity |].
  eapply (proj2 (log_records_consistent first_k) "Alpha"%string [0; 0; 10]%Z
            [true; true; true] [wheat_target 5] example_codes tt).
  vm_compute. reflexivity.
Defined.

(** *** The output rasters *)

Lemma length_write_window {A} (cells : list nat) : forall (dst arr : list A),
  length (write_window dst cells arr) = length dst.
Proof.
  unfold write_window.
  induction cells as [|q cells IH]; intros dst [|v arr]; simpl; try done.
  by rewrite IH, length_insert.
Qed.

Lemma write_window_outside {A} (cells : list nat) p : forall (dst arr : list A),
  p ∉ cells -> write_window dst cells arr !! p = dst !! p.
Proof.
  unfold write_window.
  induction cells as [|q cells IH]; intros dst [|v arr] Hp; simpl; try done.
  apply not_elem_of_cons in Hp as [Hne Hp].
  rewrite IH by done. by apply list_lookup_insert_ne.
Qed.

Lemma write_window_inside {A} (cells : list nat) p : forall (dst arr : list A) i v,
  NoDup cells -> cells !! i = Some p -> arr !! i = Some v ->
  (p < length dst)%nat ->
  write_window dst cells arr !! p = Some v.
Proof.
  induction cells as [|q cells IH]; intros dst [|w arr] i v Hnd Hi Hv Hlt;
    try done.
  apply NoDup_cons in Hnd as [Hq Hnd].
  change (write_window dst (q :: cells) (w :: arr))
    with (write_window (<[q:=w]> dst) cells arr).
  destruct i as [|i]; simpl in Hi, Hv.
  - injection Hi as ->. injection Hv as ->.
    rewrite write_window_outside by done. by apply list_lookup_insert_eq.
  - apply (IH _ _ i); [done | done | done |]. by rewrite length_insert.
Qed.

Lemma process_muni_skipped {G} (choice : G -> nat -> nat -> list nat * G)
    df label_to_code only_muni src st muni :
  is_processed df only_muni src muni = false ->
  process_muni choice df label_to_code only_muni src st muni = st.
Proof.
  unfold is_processed, process_muni.
  destruct (filtered_out only_muni (m_name muni)); [done |]. simpl.
  destruct (m_window muni) as [cells|]; [| done].
  unfold process_window.
  destruct (List.filter _ df) as [|t ts]; [done |].
  intros H. apply negb_false_iff in H. by rewrite H.
Qed.

Lemma process_muni_processed {G} (choice : G -> nat -> nat -> list nat * G)
    df label_to_code only_muni src st muni :
  is_processed df only_muni src muni = true ->
  exists cells out,
    m_window muni = Some cells /\
    process_window choice (m_name muni) (read_window src cells) (m_mask muni)
      (List.filter (fun t => String.eqb (MUNI_NAME t) (m_name muni)) df)
      label_to_code (gen st) = Some out /\
    dst_codes (process_muni choice df label_to_code only_muni src st muni) =
      write_window (dst_codes st) cells out.1.1.1.
Proof.
  unfold is_processed, process_muni.
  destruct (filtered_out only_muni (m_name muni)); [done |]. simpl.
  destruct (m_window muni) as [cells|]; [| done].
  intros H. exists cells.
  destruct (process_window _ _ _ _ _ _ _) as [[[[b1 b2] log] rng']|] eqn:E.
  - eexists. split; [done |]. split; [done |]. done.
  - exfalso. unfold process_window in E.
    destruct (List.filter _ df) as [|t ts]; [done |].
    apply negb_true_iff in H. rewrite H in E.
    by destruct (assign_within_muni _ _ _ _ _ _ _ _) as [[[? ?] ?] ?].
Qed.

(** The codes of the output raster after the municipalities of a list:
    a protected cell holds its source code when one of the windows that
    were written covers it, and the initial zero otherwise. *)
Lemma process_by_municipality_protected {G}
    (choice : G -> nat -> nat -> list nat * G)
    df label_to_code only_muni src rng0 gdf_muni :
  choice_ok choice -> Forall (window_ok src) gdf_muni ->
  let out := build_rasters choice src df gdf_muni label_to_code rng0 only_muni in
  length (dst_codes out) = length src /\
  forall p c, src !! p = Some c -> c ∈ protected_codes ->
    dst_codes out !! p =
      Some (if covered df only_muni src gdf_muni p then c else 0%Z).
Proof.
  intros Hok. unfold build_rasters, process_by_municipality.
  induction gdf_muni as [|muni pre IH] using rev_ind; intros Hwf.
  { simpl. split; [by rewrite length_replicate |].
    intros p c Hp _. apply lookup_replicate_2. by eapply lookup_lt_Some. }
  apply Forall_app in Hwf as [Hpre Hmuni].
  apply Forall_cons in Hmuni as [Hmuni _].
  destruct (IH Hpre) as [Hlen Hcells]. clear IH.
  rewrite foldl_app. simpl.
  set (st := foldl (process_muni choice df label_to_code only_muni src)
                   (mkRasters (replicate (length src) 0%Z)
                              (replicate (length src) (-9999.0)) [] rng0) pre)
    in *.
  assert (Hcov : forall p, covered df only_muni src (pre ++ [muni]) p =
            covered df only_muni src pre p ||
            (is_processed df only_muni src muni &&
             bool_decide (p ∈ default [] (m_window muni)))).
  { intros p. unfold covered. rewrite existsb_app. simpl.
    by rewrite orb_false_r. }
  destruct (is_processed df only_muni src muni) eqn:Hproc.
  2:{ rewrite process_muni_skipped by done. split; [done |].
      intros p c Hp Hc. rewrite Hcov. simpl. rewrite orb_false_r.
      by apply Hcells. }
  destruct (process_muni_processed choice df label_to_code only_muni src
              st muni Hproc) as (cells & out & Hw & Hout & ->).
  unfold window_ok in Hmuni. rewrite Hw in Hmuni. destruct Hmuni as [Hnd Hin].
  split; [by rewrite length_write_window |].
  intros p c Hp Hc. rewrite Hcov, Hw. simpl.
  destruct (decide (p ∈ cells)) as [Hpc|Hpc].
  - rewrite bool_decide_true by done. rewrite orb_true_r.
    apply list_elem_of_lookup_1 in Hpc as [i Hi].
    apply (write_window_inside cells p _ _ i); [done | done | |].
    + apply (proj2 (MaterializerFacts.protected_cells_keep_code choice Hok)
               (m_name muni) (read_window src cells) (m_mask muni) _
               label_to_code (gen st) out i c Hout); [| done].
      unfold read_window. rewrite list_lookup_fmap, Hi. simpl. by rewrite Hp.
    + rewrite Hlen. by eapply lookup_lt_Some.
  - rewrite bool_decide_false by done. rewrite orb_false_r.
    rewrite write_window_outside by done. by apply Hcells.
Qed.

(** C4 (as amended).  The deficit fill never selects a protected pixel:
    whatever the targets, the mask, the deficits and the random draws, a
    cell whose source code is protected has that same code in the category
    band that [assign_within_muni] returns.  In the output category grid
    of a run, a pixel whose source code is protected keeps that code when
    it lies in the window of at least one municipality that is processed;
    a pixel that no processed window covers is left at the zero the grid
    is initialised with. *)
Theorem protected_pixels_in_output {G} (choice : G -> nat -> nat -> list nat * G) :
  choice_ok choice ->
  (forall b1 b2 df_muni label_to_code protected rng0 valid_mask p c,
     b1 !! p = Some c -> c ∈ protected ->
     (assign_within_muni choice b1 b2 df_muni label_to_code protected rng0
                         valid_mask).1.1.1 !! p = Some c) /\
  (forall src df gdf_muni label_to_code rng0 only_muni p c,
     Forall (window_ok src) gdf_muni ->
     src !! p = Some c -> c ∈ protected_codes ->
     dst_codes (build_rasters choice src df gdf_muni label_to_code rng0
                              only_muni) !! p =
       Some (if covered df only_muni src gdf_muni p then c else 0%Z)).
Proof.
  intros Hok. split.
  - intros. by apply assign_within_muni_protected.
  - intros src df gdf_muni label_to_code rng0 only_muni p c Hwf Hp Hc.
    by apply (process_by_municipality_protected choice df label_to_code
                only_muni src rng0 gdf_muni Hok Hwf).
Qed.

Lemma protected_pixels_in_output_witness :
  dst_codes (build_rasters first_k two_munis_src
               [wheat_target 2] two_munis example_codes tt None) !! 0%nat
  = Some 10%Z.
Proof.
  apply (proj2 (protected_pixels_in_output first_k first_k_ok)
           two_munis_src [wheat_target 2] two_munis example_codes tt None
           0%nat 10%Z).
  - repeat constructor; simpl; try lia; by apply (bool_decide_unpack _).
  - reflexivity.
  - by apply (bool_decide_unpack _).
Defined.

(** The municipality 'Beta' has no target row and is skipped: its
    protected pixel, code 10 in the source grid, is 0 in the output. *)
Lemma skipped_municipality_loses_protected_code :
  let out := build_rasters first_k two_munis_src [wheat_target 2] two_munis
                           example_codes tt None in
  two_munis_src !! 3%nat = Some 10%Z /\ 10%Z ∈ protected_codes /\
  dst_codes out = [10; 146; 0; 0]%Z /\
  ~ (dst_codes out !! 3%nat = Some 10%Z).
Proof.
  split; [reflexivity |]. split; [by apply (bool_decide_unpack _) |].
  split; [vm_compute; reflexivity |].
  vm_compute. discriminate.
Qed.

(** [strip] removes a trailing no-break space, code point 160, as
    Python's [str.strip] does. *)
Lemma strip_no_break_space :
  strip (String.append "Wheat" (String (Ascii.ascii_of_nat 160) EmptyString))
    = "Wheat"%string.
Proof. reflexivity. Qed.

(** *** The random draw *)

Lemma nth_inj_on (pool : list nat) : forall idx idx' : list nat,
  NoDup pool ->
  Forall (fun i => (i < length pool)%nat) idx ->
  Forall (fun i => (i < length pool)%nat) idx' ->
  map (fun j => nth j pool 0%nat) idx = map (fun j => nth j pool 0%nat) idx' ->
  idx = idx'.
Proof.
  induction idx as [|i idx IH]; intros [|i' idx'] Hnd H1 H2 Heq;
    simpl in *; try done.
  injection Heq as Hi Hrest.
  apply Forall_cons in H1 as [Hi1 H1]. apply Forall_cons in H2 as [Hi2 H2].
  f_equal.
  - apply NoDup_ListNoDup in Hnd.
    by apply (proj1 (List.NoDup_nth pool 0%nat) Hnd).
  - by apply IH.
Qed.

(** Every arrangement of pool cells is selected by one arrangement of
    indices. *)
Lemma selection_has_indices (pool : list nat) k sel :
  selection_of pool k sel ->
  exists idx, arrangement (length pool) k idx /\
              map (fun j => nth j pool 0%nat) idx = sel.
Proof.
  intros (Hlen & Hnd & Hin).
  assert (H : exists idx, length idx = length sel /\
                Forall (fun i => (i < length pool)%nat) idx /\
                map (fun j => nth j pool 0%nat) idx = sel).
  { clear Hlen Hnd. induction Hin as [|q sel Hq _ IH].
    { by exists []. }
    destruct IH as (idx & L & F & M).
    apply list_elem_of_lookup_1 in Hq as [j Hj].
    exists (j :: idx). simpl. split_and!.
    - by rewrite L.
    - constructor; [by eapply lookup_lt_Some | done].
    - rewrite M. f_equal. by apply nth_lookup_Some. }
  destruct H as (idx & L & F & M). exists idx. split; [| done].
  split_and!; [congruence | | done].
  rewrite <- M in Hnd. by apply NoDup_fmap_1 in Hnd.
Qed.

(** A uniform draw of indices selects the cells of the pool uniformly. *)
Lemma uniform_selection {G} (choice : G -> nat -> nat -> list nat * G)
    protected valid_mask (st : @Run G) states k :
  let pool := argwhere (cand_mask protected (grid st) valid_mask) in
  uniform_draw choice states (length pool) k ->
  exists times, (0 < times)%nat /\
    forall sel, selection_of pool k sel ->
      selects_of choice protected valid_mask st states k sel = times.
Proof.
  intros pool [Harr (times & Hpos & Hun)]. exists times. split; [done |].
  intros sel Hsel.
  destruct (selection_has_indices pool k sel Hsel) as (idx & Hidx & Hmap).
  rewrite <- (Hun idx Hidx). unfold selects_of, draws_of. f_equal.
  apply List.filter_ext_in. intros g Hg.
  rewrite Forall_forall in Harr.
  pose proof (Harr g (proj2 (list_elem_of_In _ _) Hg)) as (_ & _ & Hlt).
  unfold selected_cells, with_rng. cbn [grid rng]. fold pool.
  apply bool_decide_ext. split.
  - intros Heq. apply (nth_inj_on pool); [apply NoDup_argwhere | done | |].
    + by destruct Hidx as (_ & _ & ?).
    + by rewrite Heq, Hmap.
  - by intros ->.
Qed.

(** The state after a row with a positive deficit and a pool that is not
    empty, in terms of the cells its draw selects. *)
Lemma fill_row_selected {G} (choice : G -> nat -> nat -> list nat * G)
    label_to_code protected valid_mask (st : @Run G) row code :
  label_to_code !! strip (Label row) = Some code ->
  let required := py_round (aci_pixels row) in
  let current := count_code code (band1 (grid st)) in
  let pool := argwhere (cand_mask protected (grid st) valid_mask) in
  let n := Z.min (required - current) (Z.of_nat (length pool)) in
  (0 < required)%Z -> (0 < required - current)%Z -> pool <> [] ->
  filled_with st row code
    (selected_cells choice protected valid_mask st (Z.to_nat n)) n
    (fill_row choice label_to_code protected valid_mask st row).
Proof.
  intros Hcode required current pool n Hreq Hdef Hne.
  unfold fill_row, selected_cells, filled_with. rewrite Hcode.
  fold required current pool.
  assert ((required <=? 0)%Z = false) as -> by lia.
  assert ((required - current <=? 0)%Z = false) as -> by lia.
  destruct pool as [|c0 cs] eqn:Epool; [done |]. fold n.
  destruct (choice (rng st) (length (c0 :: cs)) (Z.to_nat n)) as [idx rng'].
  by split.
Qed.

Lemma scripted_ok : choice_ok scripted.
Proof.
  intros g n k Hk. unfold scripted. simpl.
  destruct ((length g =? k)%nat && bool_decide (NoDup g)
            && forallb (fun i => (i <? n)%nat) g) eqn:E.
  - apply andb_true_iff in E as [E E3]. apply andb_true_iff in E as [E1 E2].
    apply Nat.eqb_eq in E1. apply bool_decide_eq_true in E2.
    split_and!; [done | done |].
    apply Forall_forall. intros i Hi.
    rewrite forallb_forall in E3.
    by apply Nat.ltb_lt, E3, list_elem_of_In.
  - split_and!.
    + apply length_seq.
    + apply NoDup_seq.
    + apply Forall_forall. intros i Hi. apply elem_of_seq in Hi. lia.
Qed.

(** C8 (as amended).  For a row with a positive deficit: when the pool of
    candidate cells is empty nothing is assigned and nothing is logged.
    Otherwise, whatever the state of the generator, the draw selects
    exactly [min(deficit, pool size)] distinct cells of the pool, a number
    that never exceeds the pool size; each of them was unassigned and now
    carries the row's code, every other cell is as before, and one record
    is appended to the log whose [newly_assigned] is that number.  The
    cells are drawn uniformly at random without replacement: when the
    generator draws its indices uniformly, every arrangement of that many
    distinct pool cells is selected by the same number of generator
    states. *)
Theorem deficit_fill_uniform {G} (choice : G -> nat -> nat -> list nat * G)
    label_to_code protected valid_mask (st : @Run G) row code :
  choice_ok choice ->
  label_to_code !! strip (Label row) = Some code ->
  let required := py_round (aci_pixels row) in
  let current := count_code code (band1 (grid st)) in
  let pool := argwhere (cand_mask protected (grid st) valid_mask) in
  let n := Z.min (required - current) (Z.of_nat (length pool)) in
  let fill := fun g =>
    fill_row choice label_to_code protected valid_mask (with_rng st g) row in
  (0 < required)%Z -> (0 < required - current)%Z ->
  (pool = [] -> forall g, fill g = with_rng st g) /\
  (pool <> [] ->
     (Z.to_nat n <= length pool)%nat /\
     (forall g,
        let sel := selected_cells choice protected valid_mask (with_rng st g)
                                  (Z.to_nat n) in
        selection_of pool (Z.to_nat n) sel /\
        (exists e, assigned_log (fill g) = assigned_log st ++ [e] /\
                   newly_assigned e = n /\ required_pixels e = required /\
                   existing_pixels e = current /\
                   total_assigned e = (current + n)%Z) /\
        (forall p, p ∈ sel ->
           assigned_mask (grid st) !! p = Some false /\
           assigned_mask (grid (fill g)) !! p = Some true /\
           band1 (grid (fill g)) !! p = Some code) /\
        (forall p, p ∉ sel ->
           assigned_mask (grid (fill g)) !! p = assigned_mask (grid st) !! p /\
           band1 (grid (fill g)) !! p = band1 (grid st) !! p /\
           band2 (grid (fill g)) !! p = band2 (grid st) !! p)) /\
     (forall states,
        uniform_draw choice states (length pool) (Z.to_nat n) ->
        exists times, (0 < times)%nat /\
          forall sel, selection_of pool (Z.to_nat n) sel ->
            selects_of choice protected valid_mask st states (Z.to_nat n) sel
              = times)).
Proof.
  intros Hok Hcode required current pool n fill Hreq Hdef. split.
  { intros Hnil g.
    by apply (proj1 (fill_row_spec choice label_to_code protected valid_mask
                       (with_rng st g) row code Hok Hcode Hreq Hdef)). }
  intros Hne.
  assert (Hle : (Z.to_nat n <= length pool)%nat) by (unfold n; lia).
  split; [exact Hle |]. split.
  2:{ intros states Hun.
      by apply (uniform_selection choice protected valid_mask st states). }
  intros g sel.
  destruct (fill_row_selected choice label_to_code protected valid_mask
              (with_rng st g) row code Hcode Hreq Hdef Hne) as [Hg Hlog].
  fold sel in Hg. cbn [with_rng grid assigned_log] in Hg, Hlog.
  fold (fill g) in Hg, Hlog.
  destruct (Hok g (length pool) (Z.to_nat n) Hle) as (Hlen & Hnd & Hlt).
  destruct (selected_spec pool (choice g (length pool) (Z.to_nat n)).1
              (NoDup_argwhere _) Hnd Hlt) as (Hs1 & Hs2 & Hs3).
  assert (Hsel : selection_of pool (Z.to_nat n) sel).
  { unfold selection_of, sel, selected_cells. cbn [with_rng grid rng].
    fold pool. split_and!; [by rewrite Hs2 | done |].
    apply Forall_forall. exact Hs3. }
  split; [exact Hsel |]. split.
  { eexists. split; [exact Hlog |]. by split_and!. }
  destruct Hsel as (_ & _ & Hin). rewrite Forall_forall in Hin.
  split.
  - intros p Hp. pose proof (Hin p Hp) as Hpool.
    apply elem_of_argwhere, cand_mask_true in Hpool as (Ha & (c & Hc & _) & _).
    rewrite Hg. cbn [band1 assigned_mask]. split_and!; [done | |].
    + apply set_at_lookup_in; [done |]. by eapply lookup_lt_Some.
    + apply set_at_lookup_in; [done |]. by eapply lookup_lt_Some.
  - intros p Hp. rewrite Hg. cbn [band1 band2 assigned_mask].
    by rewrite !set_at_lookup_notin.
Qed.

Lemma deficit_fill_uniform_witness :
  let st := start_state [0; 0; 10]%Z [-9999.0; -9999.0; -9999.0]
                        [wheat_target 1] example_codes [] in
  let states := [[0]; [1]]%nat in
  exists times, (0 < times)%nat /\
    selects_of scripted protected_codes (Some [true; true; true]) st states 1
               [0%nat] = times /\
    selects_of scripted protected_codes (Some [true; true; true]) st states 1
               [1%nat] = times.
Proof.
  intros st states.
  destruct (deficit_fill_uniform scripted example_codes protected_codes
              (Some [true; true; true]) st (wheat_target 1) 146%Z
              scripted_ok eq_refl eq_refl eq_refl) as [_ H].
  destruct H as (_ & _ & H); [discriminate |].
  destruct (H states) as (times & Hpos & Hsel).
  - split; [repeat constructor; simpl; try lia; by apply (bool_decide_unpack _) |].
    exists 1%nat. split; [lia |].
    intros idx (Hlen & _ & Hlt).
    destruct idx as [|i [|j idx]]; try discriminate Hlen.
    apply Forall_cons in Hlt as [Hi _].
    assert (Hi' : (i < 2)%nat) by exact Hi.
    destruct i as [|[|i]]; [reflexivity | reflexivity | lia].
  - exists times. split; [exact Hpos |]. split; apply Hsel.
    + split_and!; [reflexivity | by apply (bool_decide_unpack _) |].
      repeat constructor.
    + split_and!; [reflexivity | by apply (bool_decide_unpack _) |].
      repeat constructor.
Defined.

End MaterializerMore.
